(** * Asynchronous MPC for omission failures: a shallow embedding

    The development follows the Python sources module by module:
    [field.py] (prime field, univariate and bivariate polynomials),
    [circuit.py] (bit decomposition, comparison gadget, tournament),
    [beacon.py], [aba.py], [rbc.py], [css.py], [party.py] and
    [simple_auction.py].

    Python integers are modelled as [Z]; [%] with a positive modulus is
    [Z.modulo]; list positions are [nat]; dictionaries are [gmap]s, or
    association lists where the iteration order is part of the code;
    a raised exception is [None] in an [option] result; a coroutine that
    is suspended on a condition is reported as such in the result. *)

From Stdlib Require Import ZArith Lia List Znumtheory.
From Stdlib Require Import Zmod.ZmodInv.
From stdpp Require Import gmap strings list fin_maps sorting.

Local Open Scope Z_scope.

(** ** Python idioms shared by all modules *)

(** [enumerate(l)]. *)
Definition enumerate {A} (l : list A) : list (nat * A) :=
  combine (seq 0 (length l)) l.

(** [range(k)] for an integer [k]; empty when [k <= 0]. *)
Definition range (k : Z) : list Z :=
  map Z.of_nat (seq 0 (Z.to_nat k)).

(** The slice [l[:e]]: the first [e] elements, or all but the last [-e]
    when [e] is negative. *)
Definition slice_to {A} (e : Z) (l : list A) : list A :=
  if 0 <=? e then take (Z.to_nat e) l
  else take (length l - Z.to_nat (- e)) l.

(** [sorted(d.keys())] for a dictionary with integer keys. *)
Definition sorted_keys {V} (d : gmap Z V) : list Z :=
  merge_sort Z.le (elements (dom d)).

(** [l.index(x)], the first position of [x]; [None] stands for
    [ValueError]. *)
Fixpoint index_of (x : Z) (l : list Z) : option nat :=
  match l with
  | [] => None
  | y :: l' => if y =? x then Some 0%nat else S <$> index_of x l'
  end.

(** ** field.py: class Field *)

Module Field.

Definition MODULUS : Z := 2 ^ 31 - 1.

Definition add (a b : Z) : Z := (a + b) mod MODULUS.
Definition sub (a b : Z) : Z := (a - b) mod MODULUS.
Definition mul (a b : Z) : Z := (a * b) mod MODULUS.
Definition neg (a : Z) : Z := (- a) mod MODULUS.

(** [inv] raises [ValueError] on zero; otherwise [pow(a, p - 2, p)]. *)
Definition inv (a : Z) : option Z :=
  if a =? 0 then None else Some ((a ^ (MODULUS - 2)) mod MODULUS).

Definition div (a b : Z) : option Z :=
  match inv b with
  | Some b' => Some (mul a b')
  | None => None
  end.

Definition embed (x : Z) : Z := x mod MODULUS.

Definition is_valid (x : Z) : bool := (0 <=? x) && (x <? MODULUS).

End Field.

(** ** field.py: class Polynomial *)

Record Polynomial : Type := MkPolynomial { coeffs : list Z }.

Module Polynomial.

(** The [while] loop of [__init__] pops zeros from the end of the list
    as long as more than one coefficient is left; [pop_zeros] works on
    the reversed list, whose head is the last coefficient. *)
Fixpoint pop_zeros (r : list Z) : list Z :=
  match r with
  | c :: (_ :: _) as rest => if c =? 0 then pop_zeros rest else r
  | _ => r
  end.

(** [Polynomial(coefficients)]. *)
Definition new (coefficients : list Z) : Polynomial :=
  MkPolynomial (rev (pop_zeros (rev (map Field.embed coefficients)))).

Definition degree (p : Polynomial) : Z := Z.of_nat (length (coeffs p)) - 1.

(** Horner evaluation over [reversed(self.coeffs)]. *)
Definition eval (p : Polynomial) (x : Z) : Z :=
  let x := Field.embed x in
  fold_left (fun result coeff => Field.add (Field.mul result x) coeff)
            (rev (coeffs p)) 0.

(** [__add__]: the shorter operand is padded with zeros. *)
Definition add (p q : Polynomial) : Polynomial :=
  let max_len := Nat.max (length (coeffs p)) (length (coeffs q)) in
  new (map (fun i => Field.add (nth i (coeffs p) 0) (nth i (coeffs q) 0))
           (seq 0 max_len)).

(** [__mul__] with an [int] operand. *)
Definition mul_scalar (p : Polynomial) (other : Z) : Polynomial :=
  new (map (fun c => Field.mul c other) (coeffs p)).

(** The inner loop of [__mul__]: [result[i + j] += a * b] for every
    [(j, b)] of the other operand.  The position [i + j] is always below
    [len(self.coeffs) + len(other.coeffs) - 1], so the assignment never
    raises. *)
Definition mul_row (i : nat) (a : Z) (other : list Z) (result : list Z)
  : list Z :=
  fold_left
    (fun result '(j, b) =>
       <[(i + j)%nat := Field.add (nth (i + j) result 0) (Field.mul a b)]>
         result)
    (enumerate other) result.

(** [__mul__] with a polynomial operand (schoolbook). *)
Definition mul (p q : Polynomial) : Polynomial :=
  let result0 :=
    repeat 0 (length (coeffs p) + length (coeffs q) - 1)%nat in
  new (fold_left (fun result '(i, a) => mul_row i a (coeffs q) result)
                 (enumerate (coeffs p)) result0).

(** The inner loop of [interpolate] for the basis polynomial [L_i]:
    [basis = basis * numerator * denom_inv] for every [j <> i].  A zero
    denominator makes [Field.inv] raise, which aborts the whole call. *)
Definition basis_step (points : list (Z * Z)) (i : nat) (xi : Z)
    (basis : option Polynomial) (j : nat) : option Polynomial :=
  if (i =? j)%nat then basis
  else
    match basis with
    | None => None
    | Some b =>
        let xj := fst (nth j points (0, 0)) in
        let numerator := new [Field.neg xj; 1] in
        let denominator := Field.sub xi xj in
        match Field.inv denominator with
        | None => None
        | Some denom_inv => Some (mul_scalar (mul b numerator) denom_inv)
        end
    end.

Definition basis_poly (points : list (Z * Z)) (i : nat) (xi : Z)
  : option Polynomial :=
  fold_left (basis_step points i xi) (seq 0 (length points))
            (Some (new [1])).

(** The outer loop of [interpolate]. *)
Definition interpolate_step (points : list (Z * Z))
    (result : option Polynomial) (i : nat) : option Polynomial :=
  match result with
  | None => None
  | Some res =>
      let '(xi, yi) := nth i points (0, 0) in
      match basis_poly points i xi with
      | None => None
      | Some basis => Some (add res (mul_scalar basis yi))
      end
  end.

(** [Polynomial.interpolate(points)]; [None] when [Field.inv] raises. *)
Definition interpolate (points : list (Z * Z)) : option Polynomial :=
  fold_left (interpolate_step points) (seq 0 (length points))
            (Some (new [0])).

(** One factor of [lagrange_coefficient]. *)
Definition lagrange_step (i : nat) (xi eval_point : Z)
    (result : option Z) (jx : nat * Z) : option Z :=
  let '(j, xj) := jx in
  if (i =? j)%nat then result
  else
    match result with
    | None => None
    | Some r =>
        match Field.div (Field.sub eval_point xj) (Field.sub xi xj) with
        | None => None
        | Some q => Some (Field.mul r q)
        end
    end.

(** [Polynomial.lagrange_coefficient(i, points, eval_point)]; the index
    [i] is a valid position of [points]. *)
Definition lagrange_coefficient (i : nat) (points : list Z)
    (eval_point : Z) : option Z :=
  match points !! i with
  | None => None
  | Some xi => fold_left (lagrange_step i xi eval_point)
                         (enumerate points) (Some 1)
  end.

End Polynomial.

(** ** field.py: class BiVariatePolynomial *)

(** [coeffs] is the dictionary [(i, j) -> a_ij], kept as the list of its
    items in insertion order, which is the order [eval] iterates in. *)
Record BiVariatePolynomial : Type := MkBiVariate {
  bv_degree : Z;
  bv_coeffs : list ((Z * Z) * Z)
}.

Module BiVariatePolynomial.

(** [self.coeffs[key]]; [None] stands for [KeyError]. *)
Fixpoint getitem (items : list ((Z * Z) * Z)) (key : Z * Z) : option Z :=
  match items with
  | [] => None
  | ((i, j), c) :: rest =>
      if (i =? fst key) && (j =? snd key) then Some c
      else getitem rest key
  end.

(** [BiVariatePolynomial(degree, secret)].  The two nested loops assign
    every key [(i, j)] once, row by row; [rnd i j] is the value that
    [Field.random()] returns in iteration [(i, j)]. *)
Definition new (degree : Z) (secret : option Z) (rnd : Z -> Z -> Z)
  : BiVariatePolynomial :=
  MkBiVariate degree
    (flat_map
       (fun i =>
          map (fun j =>
                 ((i, j),
                  if (i =? 0) && (j =? 0) then
                    match secret with
                    | Some s => Field.embed s
                    | None => rnd i j
                    end
                  else rnd i j))
              (range (degree + 1)))
       (range (degree + 1))).

(** [eval(x, y)]. *)
Definition eval (p : BiVariatePolynomial) (x y : Z) : Z :=
  let x := Field.embed x in
  let y := Field.embed y in
  fold_left
    (fun result '((i, j), coeff) =>
       let term :=
         Field.mul coeff (Field.mul ((x ^ i) mod Field.MODULUS)
                                    ((y ^ j) mod Field.MODULUS)) in
       Field.add result term)
    (bv_coeffs p) 0.

(** [[pow(i, exp, MODULUS) for exp in range(degree + 1)]]. *)
Definition powers (p : BiVariatePolynomial) (i : Z) : list Z :=
  map (fun exp => (i ^ exp) mod Field.MODULUS) (range (bv_degree p + 1)).

(** [row_polynomial(i)], the polynomial [p(i, y)]: for every [j] and [k],
    [coeffs[j] += self.coeffs[(k, j)] * i_pow[k]]. *)
Definition row_polynomial (p : BiVariatePolynomial) (i : Z)
  : option Polynomial :=
  let n := Z.to_nat (bv_degree p + 1) in
  let i_pow := powers p i in
  match
    fold_left
      (fun acc j =>
         fold_left
           (fun acc k =>
              match acc, getitem (bv_coeffs p) (Z.of_nat k, Z.of_nat j),
                    i_pow !! k with
              | Some cs, Some c, Some ip =>
                  let term := Field.mul c ip in
                  Some (<[j := Field.add (nth j cs 0) term]> cs)
              | _, _, _ => None
              end)
           (seq 0 n) acc)
      (seq 0 n) (Some (repeat 0 n))
  with
  | Some cs => Some (Polynomial.new cs)
  | None => None
  end.

(** [col_polynomial(i)], the polynomial [p(x, i)]: for every [j] and [k],
    [coeffs[j] += self.coeffs[(j, k)] * i_pow[k]]. *)
Definition col_polynomial (p : BiVariatePolynomial) (i : Z)
  : option Polynomial :=
  let n := Z.to_nat (bv_degree p + 1) in
  let i_pow := powers p i in
  match
    fold_left
      (fun acc j =>
         fold_left
           (fun acc k =>
              match acc, getitem (bv_coeffs p) (Z.of_nat j, Z.of_nat k),
                    i_pow !! k with
              | Some cs, Some c, Some ip =>
                  let term := Field.mul c ip in
                  Some (<[j := Field.add (nth j cs 0) term]> cs)
              | _, _, _ => None
              end)
           (seq 0 n) acc)
      (seq 0 n) (Some (repeat 0 n))
  with
  | Some cs => Some (Polynomial.new cs)
  | None => None
  end.

(** [get_secret()]. *)
Definition get_secret (p : BiVariatePolynomial) : option Z :=
  getitem (bv_coeffs p) (0, 0).

End BiVariatePolynomial.

(** ** circuit.py: class ArithmeticCircuit *)

Module ArithmeticCircuit.

(** [bit_decompose(value, k)]: the bits [(value >> i) & 1], LSB first. *)
Definition bit_decompose (value k : Z) : list Z :=
  map (fun i => Z.land (Z.shiftr value i) 1) (range k).

(** The inner loop of [compare_bits], [for l in range(j + 1, k)]; an
    index beyond the end of [b_bits] raises [IndexError]. *)
Definition enable_flag (a_bits b_bits : list Z) (j : nat) : option Z :=
  fold_left
    (fun enable l =>
       match enable, a_bits !! l, b_bits !! l with
       | Some e, Some al, Some bl =>
           let diff := Field.sub al bl in
           let diff_sq := Field.mul diff diff in
           Some (Field.mul e (Field.sub 1 diff_sq))
       | _, _, _ => None
       end)
    (seq (S j) (length a_bits - S j)) (Some 1).

(** One iteration of the outer loop of [compare_bits]. *)
Definition compare_step (a_bits b_bits : list Z)
    (result : option Z) (j : nat) : option Z :=
  match result, a_bits !! j, b_bits !! j with
  | Some r, Some aj, Some bj =>
      let term := Field.mul aj (Field.sub 1 bj) in
      match enable_flag a_bits b_bits j with
      | Some enable => Some (Field.add r (Field.mul term enable))
      | None => None
      end
  | _, _, _ => None
  end.

(** [compare_bits(a_bits, b_bits)], with [j] running from [k - 1] down
    to [0] where [k = len(a_bits)]. *)
Definition compare_bits (a_bits b_bits : list Z) : option Z :=
  fold_left (compare_step a_bits b_bits)
            (rev (seq 0 (length a_bits))) (Some 0).

(** [max_two(a, b, a_bits, b_bits) = c * a + (1 - c) * b]. *)
Definition max_two (a b : Z) (a_bits b_bits : list Z) : option Z :=
  match compare_bits a_bits b_bits with
  | Some c =>
      let term1 := Field.mul c a in
      let term2 := Field.mul (Field.sub 1 c) b in
      Some (Field.add term1 term2)
  | None => None
  end.

(** One slot of the three parallel lists [current_values],
    [current_indices] and [current_bits], which the tournament always
    extends together. *)
Record entry : Type := Entry {
  e_value : Z;
  e_index : Z;
  e_bits : list Z
}.

(** The body of the [for i in range(0, len(current_values), 2)] loop for
    a pair of neighbours. *)
Definition play (x y : entry) : option entry :=
  match max_two (e_value x) (e_value y) (e_bits x) (e_bits y) with
  | Some max_val => Some (if max_val =? e_value x then x else y)
  | None => None
  end.

(** One pass of the [for] loop: neighbours are paired, an odd last
    element is carried over. *)
Fixpoint tournament_round (current : list entry) : option (list entry) :=
  match current with
  | x :: y :: rest =>
      match play x y, tournament_round rest with
      | Some w, Some next => Some (w :: next)
      | _, _ => None
      end
  | _ => Some current
  end.

(** The [while len(current_values) > 1] loop.  [fuel] bounds the number
    of passes; [length current] passes always suffice. *)
Fixpoint tournament (fuel : nat) (current : list entry)
  : option (list entry) :=
  match current with
  | _ :: _ :: _ =>
      match fuel with
      | O => None
      | S fuel' =>
          match tournament_round current with
          | Some next => tournament fuel' next
          | None => None
          end
      end
  | _ => Some current
  end.

(** [find_max(values, k)] returns [(max_value, winner_index)]. *)
Definition find_max (values : list Z) (k : Z) : option (Z * Z) :=
  match values with
  | [] => Some (0, -1)
  | [v] => Some (v, 0)
  | _ =>
      let start :=
        map (fun '(i, v) => Entry v (Z.of_nat i) (bit_decompose v k))
            (enumerate values) in
      match tournament (length values) start with
      | Some (w :: _) => Some (e_value w, e_index w)
      | _ => None
      end
  end.

(** [find_second_max(values, winner_idx, k)]. *)
Definition find_second_max (values : list Z) (winner_idx k : Z)
  : option Z :=
  let masked_values :=
    map (fun '(i, v) => if Z.of_nat i =? winner_idx then 0 else v)
        (enumerate values) in
  match find_max masked_values k with
  | Some (second_max, _) => Some second_max
  | None => None
  end.

(** [second_price_auction(bids, k)] returns [(winner_id, second_price)]. *)
Definition second_price_auction (bids : list Z) (k : Z) : option (Z * Z) :=
  match find_max bids k with
  | Some (_, winner_id) =>
      match find_second_max bids winner_id k with
      | Some second_price => Some (winner_id, second_price)
      | None => None
      end
  | None => None
  end.

End ArithmeticCircuit.

(** ** beacon.py: class RandomnessBeacon *)

Module RandomnessBeacon.

(** The [asyncio.Condition] objects only serve to suspend and wake
    callers; they carry no data and are left out of the state. *)
Record t : Type := Mk {
  n : Z;
  f : Z;
  threshold : Z;
  index : Z;
  requests : gmap Z (gset Z);
  values : gmap Z Z;
  total_invocations : Z
}.

(** [RandomnessBeacon(n, f)]. *)
Definition new (n f : Z) : t := Mk n f (f + 1) 0 ∅ ∅ 0.

(** [request(party_id, index)].  [rnd] is the value that
    [Field.random()] returns if this call generates the value.  The
    result is the new state, the index that was used, and the returned
    value; [None] in the last component means that the caller is
    suspended in the [while index not in self.values] loop. *)
Definition request (rnd : Z) (party_id : Z) (idx : option Z) (b : t)
  : t * Z * option Z :=
  let '(i, b1) :=
    match idx with
    | None =>
        (index b,
         Mk (n b) (f b) (threshold b) (index b + 1) (requests b)
            (values b) (total_invocations b))
    | Some i => (i, b)
    end in
  let reqs := {[party_id]} ∪ default ∅ (requests b1 !! i) in
  let b2 :=
    Mk (n b1) (f b1) (threshold b1) (index b1)
       (<[i := reqs]> (requests b1)) (values b1) (total_invocations b1) in
  let b3 :=
    if threshold b2 <=? Z.of_nat (size reqs) then
      match values b2 !! i with
      | None =>
          Mk (n b2) (f b2) (threshold b2) (index b2) (requests b2)
             (<[i := rnd]> (values b2)) (total_invocations b2 + 1)
      | Some _ => b2
      end
    else b2 in
  (b3, i, values b3 !! i).

(** What a suspended caller returns when it is woken: [self.values[index]]. *)
Definition wake (i : Z) (b : t) : option Z := values b !! i.

Definition get_invocation_count (b : t) : Z := total_invocations b.

(** [reset()]. *)
Definition reset (b : t) : t := Mk (n b) (f b) (threshold b) 0 ∅ ∅ 0.

(** A call of [request], as it appears in an execution. *)
Record call : Type := Call {
  call_rnd : Z;
  call_party : Z;
  call_index : option Z
}.

(** The beacon after a sequence of calls, together with the log of
    (party, index used) pairs, most recent first. *)
Fixpoint run (calls : list call) (b : t) (log : list (Z * Z))
  : t * list (Z * Z) :=
  match calls with
  | [] => (b, log)
  | c :: rest =>
      let '(b', i, _) :=
        request (call_rnd c) (call_party c) (call_index c) b in
      run rest b' ((call_party c, i) :: log)
  end.

End RandomnessBeacon.

(** ** aba.py: class BinaryAgreement *)

Module BinaryAgreement.

(** Message values are [0], [1] or [null]; [null] is [None].  The two
    [defaultdict(lambda: defaultdict(int))] counters are maps whose
    missing entries read as [0]. *)
Record t : Type := Mk {
  party_id : Z;
  n : Z;
  f : Z;
  instance_id : Z;
  round : Z;
  estimate : option Z;
  decided : bool;
  decision : option Z;
  est_count : gmap Z (gmap (option Z) Z);
  aux_count : gmap Z (gmap (option Z) Z);
  est_sent : gmap Z bool;
  aux_sent : gmap Z bool
}.

(** [BinaryAgreement(party_id, n, f, network, beacon, instance_id)]. *)
Definition new (party_id n f instance_id : Z) : t :=
  Mk party_id n f instance_id 0 None false None ∅ ∅ ∅ ∅.

(** [counts[r][value]] on a nested [defaultdict]. *)
Definition count (counts : gmap Z (gmap (option Z) Z)) (r : Z)
    (value : option Z) : Z :=
  default 0 (default ∅ (counts !! r) !! value).

(** [counts[r][value] += 1]. *)
Definition incr (counts : gmap Z (gmap (option Z) Z)) (r : Z)
    (value : option Z) : gmap Z (gmap (option Z) Z) :=
  <[r := <[value := count counts r value + 1]> (default ∅ (counts !! r))]>
    counts.

(** [sum(counts[r].values())]. *)
Definition total (counts : gmap Z (gmap (option Z) Z)) (r : Z) : Z :=
  map_fold (fun _ c acc => c + acc) 0 (default ∅ (counts !! r)).

(** [propose(value)] up to the start of the round task. *)
Definition propose (value : Z) (a : t) : option t :=
  if (value =? 0) || (value =? 1) then
    Some (Mk (party_id a) (n a) (f a) (instance_id a) (round a)
             (Some value) (decided a) (decision a) (est_count a)
             (aux_count a) (est_sent a) (aux_sent a))
  else None.

(** [_handle_est(payload)]. *)
Definition _handle_est (r : Z) (value : option Z) (a : t) : t :=
  match value with
  | Some v =>
      if (v =? 0) || (v =? 1) then
        Mk (party_id a) (n a) (f a) (instance_id a) (round a) (estimate a)
           (decided a) (decision a) (incr (est_count a) r value)
           (aux_count a) (est_sent a) (aux_sent a)
      else a
  | None => a
  end.

(** [_handle_aux(payload)]. *)
Definition _handle_aux (r : Z) (value : option Z) (a : t) : t :=
  let accept :=
    match value with
    | Some v => (v =? 0) || (v =? 1)
    | None => true
    end in
  if accept then
    Mk (party_id a) (n a) (f a) (instance_id a) (round a) (estimate a)
       (decided a) (decision a) (est_count a)
       (incr (aux_count a) r value) (est_sent a) (aux_sent a)
  else a.

(** The "Determine AUX value" block of [_run_round]. *)
Definition aux_value (a : t) : option Z :=
  let r := round a in
  if n a - f a <=? count (est_count a) r (estimate a) then estimate a
  else if count (est_count a) r (Some 0) >? count (est_count a) r (Some 1)
       then Some 0
  else if count (est_count a) r (Some 1) >? count (est_count a) r (Some 0)
       then Some 1
  else None.

(** The EST wait followed by the AUX selection: [None] while fewer than
    [n - f] EST messages have been counted for the round. *)
Definition aux_phase (a : t) : option (option Z) :=
  if total (est_count a) (round a) <? n a - f a then None
  else Some (aux_value a).

(** [[v for v in [0, 1] if self.aux_count[r][v] >= self.n - self.f]]. *)
Definition values_with_nf (a : t) : list Z :=
  List.filter (fun v => n a - f a <=? count (aux_count a) (round a) (Some v))
              [0; 1].

(** How the block ends: with a decision, with a coin drawn at a beacon
    index (the round counter then advances), or suspended inside
    [beacon.request] at an index that has no value yet. *)
Inductive outcome : Type :=
| Decided (v : Z)
| CoinTaken (index coin : Z)
| AwaitingCoin (index : Z).

(** [coin_bit = coin % 2; self.estimate = coin_bit; self.round += 1]. *)
Definition take_coin (coin : Z) (a : t) : t :=
  Mk (party_id a) (n a) (f a) (instance_id a) (round a + 1)
     (Some (coin mod 2)) (decided a) (decision a) (est_count a)
     (aux_count a) (est_sent a) (aux_sent a).

(** Both coin branches: [coin = await self.beacon.request(self.party_id)]. *)
Definition use_coin (rnd : Z) (a : t) (b : RandomnessBeacon.t)
  : t * RandomnessBeacon.t * outcome :=
  let '(b', i, ret) := RandomnessBeacon.request rnd (party_id a) None b in
  match ret with
  | Some coin => (take_coin coin a, b', CoinTaken i coin)
  | None => (a, b', AwaitingCoin i)
  end.

(** The "Check if we can decide" block of [_run_round], entered after
    [n - f] AUX messages have been counted. *)
Definition decision_step (rnd : Z) (a : t) (b : RandomnessBeacon.t)
  : t * RandomnessBeacon.t * outcome :=
  match values_with_nf a with
  | [] => use_coin rnd a b
  | [v] =>
      (Mk (party_id a) (n a) (f a) (instance_id a) (round a) (estimate a)
          true (Some v) (est_count a) (aux_count a) (est_sent a)
          (aux_sent a),
       b, Decided v)
  | _ => use_coin rnd a b
  end.


(** A message as [handle_message] reads it: its type, and the
    [instance], [round] and [value] entries of its payload. *)
Inductive msg_kind : Type := ABA_EST | ABA_AUX | OtherKind.

Record message : Type := Message {
  msg_type : msg_kind;
  msg_instance : Z;
  msg_round : Z;
  msg_value : option Z
}.

(** [handle_message(message)]: messages of other instances are ignored. *)
Definition handle_message (m : message) (a : t) : t :=
  if negb (msg_instance m =? instance_id a) then a
  else
    match msg_type m with
    | ABA_EST => _handle_est (msg_round m) (msg_value m) a
    | ABA_AUX => _handle_aux (msg_round m) (msg_value m) a
    | OtherKind => a
    end.

(** The party after it has handled the messages in the order given. *)
Definition handle_messages (msgs : list message) (a : t) : t :=
  fold_left (fun a m => handle_message m a) msgs a.

End BinaryAgreement.

(** ** css.py: class CompleteSecretSharing *)

Module CompleteSecretSharing.

(** The state per dealer.  [sub_shares] maps a dealer to the dictionary
    [party -> (row_eval, col_eval)]. *)
Record t : Type := Mk {
  party_id : Z;
  n : Z;
  f : Z;
  row_polys : gmap Z Polynomial;
  col_polys : gmap Z Polynomial;
  sub_shares : gmap Z (gmap Z (Z * Z));
  happy_count : gmap Z Z;
  completed : gmap Z bool
}.

(** [CompleteSecretSharing(party_id, n, f, network, beacon)]. *)
Definition new (party_id n f : Z) : t := Mk party_id n f ∅ ∅ ∅ ∅ ∅.

(** The loop of [_check_happy] over the received sub-shares, with its
    two early returns. *)
Fixpoint check_items (my_party_id : Z) (my_row my_col : Polynomial)
    (items : list (Z * (Z * Z))) : bool :=
  match items with
  | [] => true
  | (sender, (row_eval, col_eval)) :: rest =>
      if negb (Polynomial.eval my_row sender =? row_eval) then false
      else if negb (Polynomial.eval my_col my_party_id =? col_eval)
           then false
      else check_items my_party_id my_row my_col rest
  end.

(** [_check_happy(dealer)]; [None] stands for [KeyError].  The verdict
    does not depend on the order in which the items are visited. *)
Definition _check_happy (s : t) (dealer : Z) : option bool :=
  match row_polys s !! dealer with
  | None => Some false
  | Some my_row =>
      match col_polys s !! dealer, sub_shares s !! dealer with
      | Some my_col, Some subs =>
          Some (check_items (party_id s) my_row my_col (map_to_list subs))
      | _, _ => None
      end
  end.

(** [_handle_share(payload)]. *)
Definition _handle_share (dealer : Z) (row col : list Z) (s : t) : t :=
  match row_polys s !! dealer with
  | Some _ => s
  | None =>
      Mk (party_id s) (n s) (f s)
         (<[dealer := Polynomial.new row]> (row_polys s))
         (<[dealer := Polynomial.new col]> (col_polys s))
         (sub_shares s) (happy_count s) (completed s)
  end.

(** [_handle_subshare(payload)].  Its second statement reads the name
    [message], which is neither a parameter nor a global of the module, so
    the call raises [NameError] before [sub_shares] is touched. *)
Definition _handle_subshare (dealer row_eval col_eval : Z) (s : t)
  : option t := None.


(** [_handle_happy(payload)]: only [happy = True] is counted. *)
Definition _handle_happy (dealer : Z) (happy : bool) (s : t) : t :=
  let count := default 0 (happy_count s !! dealer) in
  Mk (party_id s) (n s) (f s) (row_polys s) (col_polys s) (sub_shares s)
     (<[dealer := if happy then count + 1 else count]> (happy_count s))
     (completed s).

(** The payload [(row.coeffs, col.coeffs)] of the CSS_SHARE message that
    [share] sends to [receiver]. *)
Definition share_payload (poly : BiVariatePolynomial) (receiver : Z)
  : option (list Z * list Z) :=
  match BiVariatePolynomial.row_polynomial poly receiver,
        BiVariatePolynomial.col_polynomial poly receiver with
  | Some row, Some col => Some (coeffs row, coeffs col)
  | _, _ => None
  end.

(** Phase 1 of [share(secret)]: the dealer's polynomial of degree [f] and
    the list of [(receiver, payload)] sent, for [receiver] in
    [range(n)]. *)
Definition share_messages (s : t) (secret : option Z) (rnd : Z -> Z -> Z)
  : option (list (Z * (list Z * list Z))) :=
  let poly := BiVariatePolynomial.new (f s) secret rnd in
  fold_right
    (fun receiver rest =>
       match share_payload poly receiver, rest with
       | Some payload, Some msgs => Some ((receiver, payload) :: msgs)
       | _, _ => None
       end)
    (Some []) (range (n s)).

(** The payload [(row_eval, col_eval)] of the CSS_SUBSHARE message that
    phase 2 of [receive_share] sends to [receiver]. *)
Definition subshare_payload (my_row my_col : Polynomial) (receiver : Z)
  : Z * Z :=
  (Polynomial.eval my_row receiver, Polynomial.eval my_col receiver).

(** A message as [handle_message] reads it: its type and the entries of
    its payload.  Messages of the [RBC_] types are passed on to
    [self.rbc] and, like those of unknown types, leave this state
    alone. *)
Inductive message : Type :=
| CSS_SHARE (dealer : Z) (row col : list Z)
| CSS_SUBSHARE (dealer row_eval col_eval : Z)
| CSS_HAPPY (dealer : Z) (happy : bool)
| OtherMessage.

(** [handle_message(message)]; [None] stands for a raised exception. *)
Definition handle_message (m : message) (s : t) : option t :=
  match m with
  | CSS_SHARE dealer row col => Some (_handle_share dealer row col s)
  | CSS_SUBSHARE dealer row_eval col_eval =>
      _handle_subshare dealer row_eval col_eval s
  | CSS_HAPPY dealer happy => Some (_handle_happy dealer happy s)
  | OtherMessage => Some s
  end.

(** One turn of [MPCParty._message_handler] (party.py) on a message for
    this object: an exception that the handler raises is caught and
    ignored.  [_handle_subshare] raises before it changes anything. *)
Definition deliver (m : message) (s : t) : t :=
  default s (handle_message m s).

(** What [receive_share] hands to the network: a CSS_SUBSHARE message to
    one receiver, or the CSS_HAPPY broadcast. *)
Inductive sent : Type :=
| SUBSHARE (receiver dealer row_eval col_eval : Z)
| HAPPY (dealer : Z) (happy : bool).

(** Where a call of [receive_share(dealer)] stands: suspended in the
    [asyncio.sleep] of one of its three loops ([timeout] is the value of
    the local counter, [is_happy] the verdict computed in phase 3),
    returned, or left by an exception.  [network.send] and
    [network.broadcast] contain no suspension point, and the lock of the
    condition is never held across one, so the code between two sleeps
    runs without interruption. *)
Inductive pc : Type :=
| AwaitShare (timeout : Z)
| AwaitSubshares
| AwaitHappy (is_happy : bool)
| Returned (row col : Polynomial)
| Raised.

(** From the test of [while self.happy_count[dealer] < self.n - self.f]
    to the return (phase 4).  [Raised] is a [KeyError]. *)
Definition happy_wait (is_happy : bool) (dealer : Z) (s : t) : pc * t :=
  match happy_count s !! dealer with
  | None => (Raised, s)
  | Some count =>
      if count <? n s - f s then (AwaitHappy is_happy, s)
      else
        let s' :=
          Mk (party_id s) (n s) (f s) (row_polys s) (col_polys s)
             (sub_shares s) (happy_count s)
             (<[dealer := is_happy]> (completed s)) in
        match is_happy, row_polys s !! dealer with
        | true, Some row =>
            match col_polys s !! dealer with
            | Some col => (Returned row col, s')
            | None => (Raised, s')
            end
        | _, _ => (Returned (Polynomial.new [0]) (Polynomial.new [0]), s')
        end
  end.

(** From the test of
    [while len(self.sub_shares[dealer]) < self.n - self.f] on: the wait
    for sub-shares, then phase 3 (the happiness check and the HAPPY
    broadcast), then the wait for HAPPY messages. *)
Definition subshare_wait (dealer : Z) (s : t) : pc * t * list sent :=
  match sub_shares s !! dealer with
  | None => (Raised, s, [])
  | Some subs =>
      if Z.of_nat (size subs) <? n s - f s then (AwaitSubshares, s, [])
      else
        match _check_happy s dealer with
        | None => (Raised, s, [])
        | Some is_happy =>
            let '(p, s') := happy_wait is_happy dealer s in
            (p, s', [HAPPY dealer is_happy])
        end
  end.

(** Phase 2, entered when the wait for the share is over: the sub-shares
    are sent if the share has arrived. *)
Definition exchange (dealer : Z) (s : t) : pc * t * list sent :=
  match row_polys s !! dealer with
  | None => subshare_wait dealer s
  | Some my_row =>
      match col_polys s !! dealer with
      | None => (Raised, s, [])
      | Some my_col =>
          let sends :=
            map (fun q =>
                   let '(row_eval, col_eval) :=
                     subshare_payload my_row my_col q in
                   SUBSHARE q dealer row_eval col_eval)
                (List.filter (fun q => negb (q =? party_id s))
                             (range (n s))) in
          let '(p, s', more) := subshare_wait dealer s in
          (p, s', sends ++ more)
      end
  end.

(** The test of [while dealer not in self.row_polys and timeout < 100]
    for the given value of [timeout], and what follows it. *)
Definition share_wait (timeout dealer : Z) (s : t) : pc * t * list sent :=
  match row_polys s !! dealer with
  | None =>
      if timeout <? 100 then (AwaitShare timeout, s, [])
      else exchange dealer s
  | Some _ => exchange dealer s
  end.

(** The call [receive_share(dealer)] up to its first suspension.
    [conditions] is the key set of [self.completion_conditions]; a dealer
    that is not in it gets an empty sub-share dictionary and a zero
    happiness counter. *)
Definition receive_share (dealer : Z) (conditions : gset Z) (s : t)
  : gset Z * (pc * t * list sent) :=
  let s1 :=
    if decide (dealer ∈ conditions) then s
    else
      Mk (party_id s) (n s) (f s) (row_polys s) (col_polys s)
         (<[dealer := ∅]> (sub_shares s))
         (<[dealer := 0]> (happy_count s)) (completed s) in
  ({[dealer]} ∪ conditions, share_wait 0 dealer s1).

(** The call resumed after a sleep: in the first loop [timeout += 1]; in
    each loop the test is evaluated again. *)
Definition resume (p : pc) (dealer : Z) (s : t) : pc * t * list sent :=
  match p with
  | AwaitShare timeout => share_wait (timeout + 1) dealer s
  | AwaitSubshares => subshare_wait dealer s
  | AwaitHappy is_happy =>
      let '(p', s') := happy_wait is_happy dealer s in (p', s', [])
  | Returned _ _ | Raised => (p, s, [])
  end.

(** A party's sharing object in an execution: its state, the dealers that
    have a completion condition, the calls of [receive_share] in flight
    (each with its dealer), and what has been handed to the network. *)
Record config : Type := Config {
  css : t;
  conditions : gset Z;
  tasks : list (Z * pc);
  outbox : list sent
}.

(** What the event loop can do next: hand a message to the handler, start
    a call of [receive_share], or resume a suspended call. *)
Inductive event : Type :=
| Deliver (m : message)
| Call (dealer : Z)
| Resume (k : nat).

Definition step (e : event) (c : config) : config :=
  match e with
  | Deliver m => Config (deliver m (css c)) (conditions c) (tasks c) (outbox c)
  | Call dealer =>
      let '(conditions', (p, s', out)) :=
        receive_share dealer (conditions c) (css c) in
      Config s' conditions' (tasks c ++ [(dealer, p)]) (outbox c ++ out)
  | Resume k =>
      match tasks c !! k with
      | None => c
      | Some (dealer, p) =>
          let '(p', s', out) := resume p dealer (css c) in
          Config s' (conditions c) (<[k := (dealer, p')]> (tasks c))
                 (outbox c ++ out)
      end
  end.

(** The object after the events, in the order given. *)
Definition run_events (events : list event) (c : config) : config :=
  fold_left (fun c e => step e c) events c.

(** A newly constructed object, before any call or message. *)
Definition fresh (party_id n f : Z) : config :=
  Config (new party_id n f) ∅ [] [].

(** The collection loop of [reconstruct(dealer)]:
    [shares = {}; while len(shares) < self.f + 1: await asyncio.sleep(...)].
    The dictionary is a local variable that no statement fills.  [fuel]
    bounds the number of times the loop test is evaluated; [None] means
    that the loop is still running. *)
Fixpoint reconstruct_wait (fuel : nat) (f : Z) (shares : gmap Z Z)
  : option (gmap Z Z) :=
  match fuel with
  | O => None
  | S fuel' =>
      if Z.of_nat (size shares) <? f + 1
      then reconstruct_wait fuel' f shares
      else Some shares
  end.

(** [reconstruct(dealer)] after its broadcast: [Collecting], or the
    value [poly.eval(0)] of the interpolated polynomial
    ([InterpolationError] when [interpolate] raises). *)
Inductive reconstruction : Type :=
| Collecting
| Reconstructed (value : Z)
| InterpolationError.

Definition reconstruct (fuel : nat) (s : t) (dealer : Z) : reconstruction :=
  match reconstruct_wait fuel (f s) ∅ with
  | None => Collecting
  | Some shares =>
      match Polynomial.interpolate (map_to_list shares) with
      | Some poly => Reconstructed (Polynomial.eval poly 0)
      | None => InterpolationError
      end
  end.

End CompleteSecretSharing.

(** ** party.py: class MPCParty (the share store) *)

Module MPCParty.

Record t : Type := Mk {
  party_id : Z;
  n : Z;
  f : Z;
  my_shares : gmap string (Polynomial * Polynomial);
  shared_values : gmap string Z
}.

Definition new (party_id n f : Z) : t := Mk party_id n f ∅ ∅.

(** [self.shared_values[result_id] = result]. *)
Definition store (result_id : string) (result : Z) (p : t) : t :=
  Mk (party_id p) (n p) (f p) (my_shares p)
     (<[result_id := result]> (shared_values p)).

(** [local_add(secret_id1, secret_id2, result_id)]. *)
Definition local_add (secret_id1 secret_id2 result_id : string) (p : t)
  : t * Z :=
  let share1 := default 0 (shared_values p !! secret_id1) in
  let share2 := default 0 (shared_values p !! secret_id2) in
  let result := Field.add share1 share2 in
  (store result_id result p, result).

(** [local_multiply_constant(secret_id, constant, result_id)]. *)
Definition local_multiply_constant (secret_id : string) (constant : Z)
    (result_id : string) (p : t) : t * Z :=
  let share := default 0 (shared_values p !! secret_id) in
  let result := Field.mul share constant in
  (store result_id result p, result).

(** What [share_value] and [receive_share] store once the sharing has
    returned [(row_poly, col_poly)]: the pair, and the share
    [col_poly.eval(0)] (a [Polynomial] object is always truthy). *)
Definition store_share (secret_id : string) (row_poly col_poly : Polynomial)
    (p : t) : t * Z :=
  let share := Polynomial.eval col_poly 0 in
  (Mk (party_id p) (n p) (f p)
      (<[secret_id := (row_poly, col_poly)]> (my_shares p))
      (<[secret_id := share]> (shared_values p)),
   share).

(** Phase 1 of [multiply_shared]: the product [d_i] of the two local
    shares, which is broadcast. *)
Definition local_product (secret_id1 secret_id2 : string) (p : t) : Z :=
  Field.mul (default 0 (shared_values p !! secret_id1))
            (default 0 (shared_values p !! secret_id2)).

(** The degree-reduction loop of [multiply_shared] over the selected
    [parties]:
    [my_new_share += lagrange_coefficient(parties.index(p), parties,
    eval_point=self.party_id) * collected_shares[p]]. *)
Definition degree_reduction (my_id : Z) (parties : list Z)
    (collected_shares : gmap Z Z) : option Z :=
  fold_left
    (fun my_new_share q =>
       match my_new_share, index_of q parties, collected_shares !! q with
       | Some s, Some i, Some d =>
           match Polynomial.lagrange_coefficient i parties my_id with
           | Some coeff => Some (Field.add s (Field.mul coeff d))
           | None => None
           end
       | _, _, _ => None
       end)
    parties (Some 0).

(** [multiply_shared] from the end of its wait loop on, with
    [collected_shares = self._mult_shares[result_id]]. *)
Definition multiply_shared_finish (result_id : string)
    (collected_shares : gmap Z Z) (p : t) : option (t * Z) :=
  let parties := slice_to (f p + 1) (sorted_keys collected_shares) in
  match degree_reduction (party_id p) parties collected_shares with
  | Some my_new_share => Some (store result_id my_new_share p, my_new_share)
  | None => None
  end.

(** [[(p, shares[p]) for p in parties]]. *)
Fixpoint points_of (shares : gmap Z Z) (parties : list Z)
  : option (list (Z * Z)) :=
  match parties with
  | [] => Some []
  | q :: rest =>
      match shares !! q, points_of shares rest with
      | Some s, Some pts => Some ((q, s) :: pts)
      | _, _ => None
      end
  end.

(** [reconstruct] from the end of its wait loop on, with
    [shares = self._reconstruct_shares[secret_id]]. *)
Definition reconstruct_finish (shares : gmap Z Z) (p : t) : option Z :=
  let parties := slice_to (f p + 1) (sorted_keys shares) in
  match points_of shares parties with
  | Some points =>
      match Polynomial.interpolate points with
      | Some poly => Some (Polynomial.eval poly 0)
      | None => None
      end
  | None => None
  end.

(** [_handle_share_value] and [_handle_reconstruct_value] on the
    dictionary they fill: [collection[secret_id][party] = share]. *)
Definition collect (secret_id : string) (party share : Z)
    (collection : gmap string (gmap Z Z)) : gmap string (gmap Z Z) :=
  <[secret_id := <[party := share]> (default ∅ (collection !! secret_id))]>
    collection.

End MPCParty.


(** ** rbc.py: class ReliableBroadcast *)

Module ReliableBroadcast.

(** A broadcast value is an integer or [None].  The two nested
    [defaultdict]s are the counters of [aba.py] again, keyed by the
    original sender.  The [asyncio.Condition] objects carry no data and
    are left out. *)
Record t : Type := Mk {
  party_id : Z;
  n : Z;
  f : Z;
  echo_threshold : Z;
  ready_threshold : Z;
  deliver_threshold : Z;
  val_received : gmap Z (option Z);
  echo_count : gmap Z (gmap (option Z) Z);
  ready_count : gmap Z (gmap (option Z) Z);
  delivered : gmap Z (option Z);
  echo_sent : gmap Z bool;
  ready_sent : gmap Z (option Z)
}.

(** [ReliableBroadcast(party_id, n, f, network)]. *)
Definition new (party_id n f : Z) : t :=
  Mk party_id n f ((n + f + 1 + 1) / 2) (f + 1) (2 * f + 1) ∅ ∅ ∅ ∅ ∅ ∅.

(** The messages that a handler broadcasts. *)
Inductive out : Type :=
| ECHO (sender : Z) (value : option Z)
| READY (sender : Z) (value : option Z).

Definition set_val_received (m : gmap Z (option Z)) (s : t) : t :=
  Mk (party_id s) (n s) (f s) (echo_threshold s) (ready_threshold s)
     (deliver_threshold s) m (echo_count s) (ready_count s) (delivered s)
     (echo_sent s) (ready_sent s).

Definition set_echo_count (m : gmap Z (gmap (option Z) Z)) (s : t) : t :=
  Mk (party_id s) (n s) (f s) (echo_threshold s) (ready_threshold s)
     (deliver_threshold s) (val_received s) m (ready_count s) (delivered s)
     (echo_sent s) (ready_sent s).

Definition set_ready_count (m : gmap Z (gmap (option Z) Z)) (s : t) : t :=
  Mk (party_id s) (n s) (f s) (echo_threshold s) (ready_threshold s)
     (deliver_threshold s) (val_received s) (echo_count s) m (delivered s)
     (echo_sent s) (ready_sent s).

Definition set_delivered (m : gmap Z (option Z)) (s : t) : t :=
  Mk (party_id s) (n s) (f s) (echo_threshold s) (ready_threshold s)
     (deliver_threshold s) (val_received s) (echo_count s) (ready_count s) m
     (echo_sent s) (ready_sent s).

Definition set_echo_sent (m : gmap Z bool) (s : t) : t :=
  Mk (party_id s) (n s) (f s) (echo_threshold s) (ready_threshold s)
     (deliver_threshold s) (val_received s) (echo_count s) (ready_count s)
     (delivered s) m (ready_sent s).

Definition set_ready_sent (m : gmap Z (option Z)) (s : t) : t :=
  Mk (party_id s) (n s) (f s) (echo_threshold s) (ready_threshold s)
     (deliver_threshold s) (val_received s) (echo_count s) (ready_count s)
     (delivered s) (echo_sent s) m.

(** [self.ready_sent.get(sender) is None]: true when the key is missing
    and also when the stored value is [None]. *)
Definition ready_unset (s : t) (sender : Z) : bool :=
  match ready_sent s !! sender with
  | Some (Some _) => false
  | _ => true
  end.

(** [_handle_val(payload)]. *)
Definition _handle_val (sender : Z) (value : option Z) (s : t)
  : t * list out :=
  match val_received s !! sender with
  | Some _ => (s, [])
  | None =>
      let s1 := set_val_received (<[sender := value]> (val_received s)) s in
      match echo_sent s1 !! sender with
      | None =>
          (set_echo_sent (<[sender := true]> (echo_sent s1)) s1,
           [ECHO sender value])
      | Some _ => (s1, [])
      end
  end.

(** [_handle_echo(payload)]. *)
Definition _handle_echo (sender : Z) (value : option Z) (s : t)
  : t * list out :=
  let s1 :=
    set_echo_count (BinaryAgreement.incr (echo_count s) sender value) s in
  if (echo_threshold s1
      <=? BinaryAgreement.count (echo_count s1) sender value)
     && ready_unset s1 sender
  then (set_ready_sent (<[sender := value]> (ready_sent s1)) s1,
        [READY sender value])
  else (s1, []).

(** [_handle_ready(payload)]: amplification, then delivery. *)
Definition _handle_ready (sender : Z) (value : option Z) (s : t)
  : t * list out :=
  let s1 :=
    set_ready_count (BinaryAgreement.incr (ready_count s) sender value) s in
  let '(s2, sent) :=
    if (ready_threshold s1
        <=? BinaryAgreement.count (ready_count s1) sender value)
       && ready_unset s1 sender
    then (set_ready_sent (<[sender := value]> (ready_sent s1)) s1,
          [READY sender value])
    else (s1, []) in
  let s3 :=
    if (deliver_threshold s2
        <=? BinaryAgreement.count (ready_count s2) sender value)
       && negb (bool_decide (is_Some (delivered s2 !! sender)))
    then set_delivered (<[sender := value]> (delivered s2)) s2
    else s2 in
  (s3, sent).

(** A message as [handle_message] reads it: its type and the [sender]
    and [value] entries of its payload. *)
Inductive msg_kind : Type := RBC_VAL | RBC_ECHO | RBC_READY | OtherKind.

Record message : Type := Message {
  msg_type : msg_kind;
  msg_sender : Z;
  msg_value : option Z
}.

(** [handle_message(message)]. *)
Definition handle_message (m : message) (s : t) : t * list out :=
  match msg_type m with
  | RBC_VAL => _handle_val (msg_sender m) (msg_value m) s
  | RBC_ECHO => _handle_echo (msg_sender m) (msg_value m) s
  | RBC_READY => _handle_ready (msg_sender m) (msg_value m) s
  | OtherKind => (s, [])
  end.

(** The party after it has handled the messages in the order given,
    together with everything it has broadcast, oldest first; [sent] is
    what was broadcast before. *)
Fixpoint run (msgs : list message) (s : t) (sent : list out)
  : t * list out :=
  match msgs with
  | [] => (s, sent)
  | m :: rest =>
      let '(s', more) := handle_message m s in
      run rest s' (sent ++ more)
  end.

(** [deliver(sender)] once it holds the condition: the delivered value,
    or [None] while the caller is suspended. *)
Definition deliver (sender : Z) (s : t) : option (option Z) :=
  delivered s !! sender.

End ReliableBroadcast.

(** ** simple_auction.py: class SimplifiedAuction *)

Module SimplifiedAuction.

(** [l[i]] on a list: negative positions count from the end; [None]
    stands for [IndexError]. *)
Definition getitem {A} (l : list A) (i : Z) : option A :=
  if (0 <=? i) && (i <? Z.of_nat (length l)) then l !! Z.to_nat i
  else if (- Z.of_nat (length l) <=? i) && (i <? 0)
       then l !! Z.to_nat (Z.of_nat (length l) + i)
  else None.

(** [[bids[p] for p in participating]]; [None] stands for [KeyError]. *)
Fixpoint bids_of (bids : gmap Z Z) (participating : list Z)
  : option (list Z) :=
  match participating with
  | [] => Some []
  | p :: rest =>
      match bids !! p, bids_of bids rest with
      | Some b, Some bs => Some (b :: bs)
      | _, _ => None
      end
  end.

(** The masking and unmasking of one output in phase 4:
    [z_i = o_i + r_i + rho], then [z_i - r_i - rho]. *)
Definition blinded_output (o_i r_i rho : Z) : Z :=
  let z_i := Field.add (Field.add o_i r_i) rho in
  Field.sub (Field.sub z_i r_i) rho.

(** The dictionary that [run_auction(bids)] returns.  [rnd party_id] is
    the pair [(r_i, rho)] of the two [Field.random()] draws made for the
    party.  The message and beacon counters and the printing do not
    influence the result and are left out. *)
Definition run_auction (n f k : Z) (bids : gmap Z Z) (rnd : Z -> Z * Z)
  : option (gmap Z Z) :=
  let participating := slice_to (n - f) (sorted_keys bids) in
  match bids_of bids participating with
  | None => None
  | Some participating_bids =>
      match ArithmeticCircuit.second_price_auction participating_bids k with
      | None => None
      | Some (winner_idx, second_price) =>
          match getitem participating winner_idx with
          | None => None
          | Some winner_id =>
              Some
                (fold_left
                   (fun outputs party_id =>
                      let '(r_i, rho) := rnd party_id in
                      let o_i :=
                        if party_id =? winner_id then second_price else 0 in
                      <[party_id := blinded_output o_i r_i rho]> outputs)
                   (range n) ∅)
          end
      end
  end.

End SimplifiedAuction.
(** ** Proof-side notions for the polynomial theorems *)

(** Congruence modulo the field modulus. *)
Definition eqp (a b : Z) : Prop := a mod Field.MODULUS = b mod Field.MODULUS.

Infix "≡p" := eqp (at level 70, no associativity).

(** The integer value [c0 + c1 x + c2 x^2 + ...] of a coefficient list,
    without any reduction. *)
Fixpoint ev (l : list Z) (x : Z) : Z :=
  match l with
  | [] => 0
  | c :: l' => c + x * ev l' x
  end.

(** Synthetic division of a coefficient list by [x - a]. *)
Fixpoint quot (a : Z) (l : list Z) : list Z :=
  match l with
  | [] => []
  | _ :: l' =>
      match l' with
      | [] => []
      | _ :: _ => ev l' a :: quot a l'
      end
  end.

(** Pointwise difference of two coefficient lists, padding with zeros. *)
Fixpoint diff (l1 l2 : list Z) : list Z :=
  match l1, l2 with
  | [], _ => map Z.opp l2
  | _, [] => l1
  | a :: l1', b :: l2' => (a - b) :: diff l1' l2'
  end.

(** Trial division: no [d, d+1, ..., d+fuel-1] divides [n]. *)
Fixpoint no_divisor_from (fuel : nat) (d n : Z) : bool :=
  match fuel with
  | O => true
  | S fuel' => negb (n mod d =? 0) && no_divisor_from fuel' (d + 1) n
  end.

(** [x] to the power [n], by recursion on the exponent. *)
Fixpoint pw (x : Z) (n : nat) : Z :=
  match n with
  | O => 1
  | S n' => x * pw x n'
  end.

(** The sum of [f] over a list. *)
Fixpoint sumZ {A} (f : A -> Z) (l : list A) : Z :=
  match l with
  | [] => 0
  | a :: l' => f a + sumZ f l'
  end.

(** The common shape of the loops of [row_polynomial] and
    [col_polynomial]; [key j k] is the dictionary key read in iteration
    [(j, k)]. *)
Definition line_inner (items : list ((Z * Z) * Z)) (i_pow : list Z)
    (key : nat -> nat -> Z * Z) (j : nat) (ks : list nat)
    (acc : option (list Z)) : option (list Z) :=
  fold_left
    (fun acc k =>
       match acc, BiVariatePolynomial.getitem items (key j k), i_pow !! k with
       | Some cs, Some c, Some ip =>
           Some (<[j := Field.add (nth j cs 0) (Field.mul c ip)]> cs)
       | _, _, _ => None
       end) ks acc.

Definition line_outer (items : list ((Z * Z) * Z)) (i_pow : list Z)
    (key : nat -> nat -> Z * Z) (js ks : list nat)
    (acc : option (list Z)) : option (list Z) :=
  fold_left (fun acc j => line_inner items i_pow key j ks acc) js acc.

(** The weighted sum [b0 + 2 b1 + 4 b2 + ...] of an LSB-first bit list. *)
Fixpoint weighted_sum (bits : list Z) : Z :=
  match bits with
  | [] => 0
  | b :: bits' => b + 2 * weighted_sum bits'
  end.



(** An entry of the tournament whose value fits [k] bits and the field
    and whose bits are the decomposition of its value. *)
Definition good_entry (k : Z) (e : ArithmeticCircuit.entry) : Prop :=
  0 <= ArithmeticCircuit.e_value e < 2 ^ k /\
  Field.is_valid (ArithmeticCircuit.e_value e) = true /\
  ArithmeticCircuit.e_bits e
  = ArithmeticCircuit.bit_decompose (ArithmeticCircuit.e_value e) k.

(** [beats x y]: [x] has the larger value, or the same value and an index
    that is not larger. *)
Definition beats (x y : ArithmeticCircuit.entry) : Prop :=
  ArithmeticCircuit.e_value y < ArithmeticCircuit.e_value x \/
  (ArithmeticCircuit.e_value y = ArithmeticCircuit.e_value x /\
   ArithmeticCircuit.e_index x <= ArithmeticCircuit.e_index y).

(** The entries are listed by increasing index. *)
Definition index_sorted (l : list ArithmeticCircuit.entry) : Prop :=
  StronglySorted
    (fun x y => ArithmeticCircuit.e_index x < ArithmeticCircuit.e_index y) l.

(** The release rule of the beacon as a state invariant: a value is stored
    at exactly the indices whose requester set has reached [f + 1], and
    the invocation counter is the number of stored values. *)
Definition beacon_release_inv (f : Z) (b : RandomnessBeacon.t) : Prop :=
  RandomnessBeacon.threshold b = f + 1 /\
  (forall i, is_Some (RandomnessBeacon.values b !! i) <->
     f + 1 <= Z.of_nat (size (default ∅ (RandomnessBeacon.requests b !! i)))) /\
  RandomnessBeacon.total_invocations b
  = Z.of_nat (size (RandomnessBeacon.values b)).

(** A beacon that has only served [k] requests without an index and has
    released nothing. *)
Definition beacon_starved (f : Z) (k : Z) (b : RandomnessBeacon.t) : Prop :=
  RandomnessBeacon.threshold b = f + 1 /\
  RandomnessBeacon.index b = k /\
  RandomnessBeacon.values b = ∅ /\
  RandomnessBeacon.total_invocations b = 0 /\
  forall i, k <= i -> RandomnessBeacon.requests b !! i = None.

(** Whether a message is one that the party [a] tallies under the given
    kind, round and value. *)
Definition tallied (kind : BinaryAgreement.msg_kind) (a : BinaryAgreement.t)
    (r : Z) (v : option Z) (m : BinaryAgreement.message) : bool :=
  match BinaryAgreement.msg_type m, kind with
  | BinaryAgreement.ABA_EST, BinaryAgreement.ABA_EST => true
  | BinaryAgreement.ABA_AUX, BinaryAgreement.ABA_AUX => true
  | _, _ => false
  end
  && (BinaryAgreement.msg_instance m =? BinaryAgreement.instance_id a)
  && (BinaryAgreement.msg_round m =? r)
  && bool_decide (BinaryAgreement.msg_value m = v).

(** The number of messages in a list that satisfy a test. *)
Definition how_many {A} (test : A -> bool) (l : list A) : Z :=
  Z.of_nat (length (List.filter test l)).

(** Tests on the messages that a broadcast instance receives and sends. *)
Definition is_val_msg (sd : Z) (m : ReliableBroadcast.message) : bool :=
  match ReliableBroadcast.msg_type m with
  | ReliableBroadcast.RBC_VAL => ReliableBroadcast.msg_sender m =? sd
  | _ => false
  end.

Definition is_echo_msg (sd : Z) (v : option Z)
    (m : ReliableBroadcast.message) : bool :=
  match ReliableBroadcast.msg_type m with
  | ReliableBroadcast.RBC_ECHO =>
      (ReliableBroadcast.msg_sender m =? sd)
      && bool_decide (ReliableBroadcast.msg_value m = v)
  | _ => false
  end.

Definition is_ready_msg (sd : Z) (v : option Z)
    (m : ReliableBroadcast.message) : bool :=
  match ReliableBroadcast.msg_type m with
  | ReliableBroadcast.RBC_READY =>
      (ReliableBroadcast.msg_sender m =? sd)
      && bool_decide (ReliableBroadcast.msg_value m = v)
  | _ => false
  end.

Definition is_echo_for (sd : Z) (o : ReliableBroadcast.out) : bool :=
  match o with
  | ReliableBroadcast.ECHO s _ => s =? sd
  | ReliableBroadcast.READY _ _ => false
  end.

Definition is_ready_for (sd : Z) (o : ReliableBroadcast.out) : bool :=
  match o with
  | ReliableBroadcast.ECHO _ _ => false
  | ReliableBroadcast.READY s _ => s =? sd
  end.

(** A call of [receive_share] that has not got past its wait for
    sub-shares. *)
Definition css_waiting (p : CompleteSecretSharing.pc) : Prop :=
  (exists timeout, p = CompleteSecretSharing.AwaitShare timeout) \/
  p = CompleteSecretSharing.AwaitSubshares.

(** The invariant of a sharing object with [n - f >= 1]: every sub-share
    dictionary is empty, every dealer with a completion condition has
    one, row and column polynomials are stored together, every call in
    flight is waiting for its share or for sub-shares, and no HAPPY has
    been broadcast. *)
Definition css_stuck_inv (c : CompleteSecretSharing.config) : Prop :=
  1 <= CompleteSecretSharing.n (CompleteSecretSharing.css c)
       - CompleteSecretSharing.f (CompleteSecretSharing.css c) /\
  (forall d subs,
     CompleteSecretSharing.sub_shares (CompleteSecretSharing.css c) !! d
     = Some subs -> subs = ∅) /\
  (forall d, d ∈ CompleteSecretSharing.conditions c ->
     is_Some (CompleteSecretSharing.sub_shares (CompleteSecretSharing.css c)
              !! d)) /\
  (forall d,
     is_Some (CompleteSecretSharing.row_polys (CompleteSecretSharing.css c)
              !! d) ->
     is_Some (CompleteSecretSharing.col_polys (CompleteSecretSharing.css c)
              !! d)) /\
  (forall k d p, CompleteSecretSharing.tasks c !! k = Some (d, p) ->
     d ∈ CompleteSecretSharing.conditions c /\ css_waiting p) /\
  (forall d h,
     ~ List.In (CompleteSecretSharing.HAPPY d h)
         (CompleteSecretSharing.outbox c)).
(** ** Concrete states used as examples *)

(** A party with estimate [0] that has counted the EST values [1, 1, 0]
    ([n = 4], [f = 1]). *)
Definition aux_example : BinaryAgreement.t :=
  BinaryAgreement._handle_est 0 (Some 0)
    (BinaryAgreement._handle_est 0 (Some 1)
       (BinaryAgreement._handle_est 0 (Some 1)
          (BinaryAgreement.Mk 0 4 1 0 0 (Some 0) false None ∅ ∅ ∅ ∅))).

(** Two parties of instance [2], both in round [0] with no AUX support,
    and the beacon they share ([n = 4], [f = 1]). *)
Definition coin_party (party_id : Z) : BinaryAgreement.t :=
  BinaryAgreement.Mk party_id 4 1 2 0 (Some 1) false None ∅ ∅ ∅ ∅.


(** Party [0] ([n = 4], [f = 1]) calls [receive_share(1)]; the share of
    dealer [1] arrives and the call sends its sub-shares; three
    CSS_SUBSHARE and three CSS_HAPPY messages with [happy = True] are
    handled; the call is resumed. *)
Definition css_stuck_events : list CompleteSecretSharing.event :=
  [CompleteSecretSharing.Call 1;
   CompleteSecretSharing.Deliver (CompleteSecretSharing.CSS_SHARE 1 [1; 2] [3; 4]);
   CompleteSecretSharing.Resume 0;
   CompleteSecretSharing.Deliver (CompleteSecretSharing.CSS_SUBSHARE 1 7 7);
   CompleteSecretSharing.Deliver (CompleteSecretSharing.CSS_SUBSHARE 1 9 11);
   CompleteSecretSharing.Deliver (CompleteSecretSharing.CSS_SUBSHARE 1 11 15);
   CompleteSecretSharing.Deliver (CompleteSecretSharing.CSS_HAPPY 1 true);
   CompleteSecretSharing.Deliver (CompleteSecretSharing.CSS_HAPPY 1 true);
   CompleteSecretSharing.Deliver (CompleteSecretSharing.CSS_HAPPY 1 true);
   CompleteSecretSharing.Resume 0].
(** * Theorems *)

(** ** The modulus is prime *)

Lemma no_divisor_from_sound fuel : forall d n k,
  no_divisor_from fuel d n = true -> 0 < d ->
  d <= k < d + Z.of_nat fuel -> ~ (k | n).
Proof.
  induction fuel as [|fuel IH]; intros d n k H Hd Hk; [lia|].
  simpl in H. apply andb_prop in H as [H1 H2].
  destruct (Z.eq_dec k d) as [->|Hne].
  - intros Hdiv. apply Z.mod_divide in Hdiv; [|lia].
    rewrite Hdiv in H1. discriminate.
  - apply (IH (d + 1) n k); auto; lia.
Qed.

Lemma MODULUS_no_small_divisor :
  no_divisor_from (Z.to_nat 46340) 2 Field.MODULUS = true.
Proof. vm_compute. reflexivity. Qed.

Lemma MODULUS_value : Field.MODULUS = 2147483647.
Proof. reflexivity. Qed.

Lemma MODULUS_prime : Z.prime Field.MODULUS.
Proof.
  split; [reflexivity|].
  intros n Hn [q Hq].
  pose proof MODULUS_value as HM.
  assert (Hq' : 1 < q < Field.MODULUS) by nia.
  assert (Hsmall : n <= 46341 \/ q <= 46341).
  { destruct (Z_le_gt_dec n 46341) as [|Hn']; [now left|].
    destruct (Z_le_gt_dec q 46341) as [|Hq'']; [now right|].
    exfalso.
    assert (46342 * 46342 <= q * n) by (apply Z.mul_le_mono_nonneg; lia).
    lia. }
  pose proof (fun k => no_divisor_from_sound _ 2 Field.MODULUS k
                         MODULUS_no_small_divisor) as Hnd.
  destruct Hsmall as [Hs|Hs].
  - apply (Hnd n); [lia|rewrite Z2Nat.id; lia|].
    exists q. exact Hq.
  - apply (Hnd q); [lia|rewrite Z2Nat.id; lia|].
    exists n. lia.
Qed.

Lemma MODULUS_pos : 0 < Field.MODULUS.
Proof. reflexivity. Qed.

Global Opaque Field.MODULUS.

Lemma mod_0_M : 0 mod Field.MODULUS = 0.
Proof. apply Z.mod_0_l. pose proof MODULUS_pos; lia. Qed.

Lemma mod_1_M : 1 mod Field.MODULUS = 1.
Proof. apply Z.mod_1_l. pose proof MODULUS_value; lia. Qed.

(** ** Congruence modulo the modulus *)

#[global] Instance eqp_equiv : Equivalence eqp.
Proof.
  split.
  - intros a. reflexivity.
  - intros a b H. unfold eqp in *. congruence.
  - intros a b c H1 H2. unfold eqp in *. congruence.
Qed.

#[global] Instance eqp_add : Proper (eqp ==> eqp ==> eqp) Z.add.
Proof.
  intros a a' Ha b b' Hb. unfold eqp in *.
  rewrite (Z.add_mod a b), (Z.add_mod a' b'), Ha, Hb;
    [reflexivity | |]; pose proof MODULUS_pos; lia.
Qed.

#[global] Instance eqp_sub : Proper (eqp ==> eqp ==> eqp) Z.sub.
Proof.
  intros a a' Ha b b' Hb. unfold eqp in *.
  rewrite (Zminus_mod a b), (Zminus_mod a' b'), Ha, Hb. reflexivity.
Qed.

#[global] Instance eqp_mul : Proper (eqp ==> eqp ==> eqp) Z.mul.
Proof.
  intros a a' Ha b b' Hb. unfold eqp in *.
  rewrite (Z.mul_mod a b), (Z.mul_mod a' b'), Ha, Hb;
    [reflexivity | |]; pose proof MODULUS_pos; lia.
Qed.

#[global] Instance eqp_opp : Proper (eqp ==> eqp) Z.opp.
Proof.
  intros a a' Ha.
  change (- a) with (0 - a). change (- a') with (0 - a').
  now rewrite Ha.
Qed.

(** Closes a congruence whose two sides are equal as integer polynomials. *)
Ltac eqp_ring := unfold eqp; f_equal; ring.

Lemma mod_eqp a : a mod Field.MODULUS ≡p a.
Proof. unfold eqp. apply Z.mod_mod. pose proof MODULUS_pos; lia. Qed.

Lemma eqp_mod_eq a b : a ≡p b -> a mod Field.MODULUS = b mod Field.MODULUS.
Proof. exact (fun H => H). Qed.

Lemma add_eqp a b : Field.add a b ≡p a + b.
Proof. apply mod_eqp. Qed.

Lemma sub_eqp a b : Field.sub a b ≡p a - b.
Proof. apply mod_eqp. Qed.

Lemma mul_eqp a b : Field.mul a b ≡p a * b.
Proof. apply mod_eqp. Qed.

Lemma neg_eqp a : Field.neg a ≡p - a.
Proof. apply mod_eqp. Qed.

Lemma embed_eqp a : Field.embed a ≡p a.
Proof. apply mod_eqp. Qed.

Lemma eqp_zero_divide a : a ≡p 0 <-> (Field.MODULUS | a).
Proof.
  unfold eqp. rewrite Z.mod_0_l by (pose proof MODULUS_pos; lia).
  apply Z.mod_divide. pose proof MODULUS_pos; lia.
Qed.

(** Euclid's lemma in the field: no zero divisors. *)
Lemma eqp_integral a b : a * b ≡p 0 -> a ≡p 0 \/ b ≡p 0.
Proof.
  rewrite !eqp_zero_divide. intros H.
  apply Z.divide_prime_mul; [exact MODULUS_prime | exact H].
Qed.

(** Fermat: [inv] returns a multiplicative inverse. *)
Lemma inv_correct a :
  ~ a ≡p 0 -> exists a', Field.inv a = Some a' /\ a * a' ≡p 1.
Proof.
  intros Ha. unfold Field.inv.
  destruct (Z.eqb_spec a 0) as [->|Hne]; [now destruct Ha|].
  eexists; split; [reflexivity|].
  rewrite mod_eqp.
  pose proof (Z.fermat_nz Field.MODULUS a MODULUS_prime) as HF.
  assert (Hnz : a mod Field.MODULUS <> 0).
  { intros E. apply Ha. unfold eqp. rewrite E.
    symmetry. apply Z.mod_0_l. pose proof MODULUS_pos; lia. }
  specialize (HF Hnz).
  unfold eqp.
  replace (a * a ^ (Field.MODULUS - 2)) with (a ^ (Field.MODULUS - 1)).
  - rewrite HF. symmetry. apply Z.mod_1_l.
    pose proof MODULUS_value; lia.
  - replace (Field.MODULUS - 1) with (Z.succ (Field.MODULUS - 2)) by lia.
    rewrite Z.pow_succ_r; [reflexivity|]. pose proof MODULUS_value; lia.
Qed.

(** ** Coefficient lists and their values *)

Lemma pw_pow x n : pw x n = x ^ Z.of_nat n.
Proof.
  induction n as [|n IH]; [reflexivity|].
  rewrite Nat2Z.inj_succ, Z.pow_succ_r by lia. simpl. now rewrite IH.
Qed.

Lemma pw_add x n m : pw x (n + m) = pw x n * pw x m.
Proof. induction n as [|n IH]; simpl; [lia|]. rewrite IH. ring. Qed.

Lemma ev_app l1 l2 x :
  ev (l1 ++ l2) x = ev l1 x + pw x (length l1) * ev l2 x.
Proof.
  induction l1 as [|c l1 IH]; simpl; [lia|]. rewrite IH. ring.
Qed.

Lemma ev_eqp_arg l x y : x ≡p y -> ev l x ≡p ev l y.
Proof.
  intros H. induction l as [|c l IH]; simpl; [reflexivity|].
  now rewrite IH, H.
Qed.

Lemma ev_repeat_0 n x : ev (repeat 0 n) x = 0.
Proof. induction n as [|n IH]; simpl; [reflexivity|]. rewrite IH. ring. Qed.

Lemma ev_map_embed l x : ev (map Field.embed l) x ≡p ev l x.
Proof.
  induction l as [|c l IH]; simpl; [reflexivity|].
  now rewrite IH, embed_eqp.
Qed.

Lemma pop_zeros_ev r x : ev (rev (Polynomial.pop_zeros r)) x = ev (rev r) x.
Proof.
  induction r as [|c rest IH]; [reflexivity|].
  destruct rest as [|c' rest']; [reflexivity|].
  change (Polynomial.pop_zeros (c :: c' :: rest'))
    with (if c =? 0 then Polynomial.pop_zeros (c' :: rest')
          else c :: c' :: rest').
  destruct (Z.eqb_spec c 0) as [->|Hc]; [|reflexivity].
  rewrite IH. change (rev (0 :: c' :: rest')) with (rev (c' :: rest') ++ [0]).
  rewrite ev_app. simpl. ring.
Qed.

Lemma pop_zeros_length r :
  (length (Polynomial.pop_zeros r) <= length r)%nat.
Proof.
  induction r as [|c rest IH]; [reflexivity|].
  destruct rest as [|c' rest']; [reflexivity|].
  change (Polynomial.pop_zeros (c :: c' :: rest'))
    with (if c =? 0 then Polynomial.pop_zeros (c' :: rest')
          else c :: c' :: rest').
  destruct (c =? 0); simpl in *; lia.
Qed.

Lemma pop_zeros_nonempty r : r <> [] -> Polynomial.pop_zeros r <> [].
Proof.
  induction r as [|c rest IH]; [congruence|]. intros _.
  destruct rest as [|c' rest']; [discriminate|].
  change (Polynomial.pop_zeros (c :: c' :: rest'))
    with (if c =? 0 then Polynomial.pop_zeros (c' :: rest')
          else c :: c' :: rest').
  destruct (c =? 0); [apply IH|]; discriminate.
Qed.

Lemma new_ev l x : ev (coeffs (Polynomial.new l)) x ≡p ev l x.
Proof.
  unfold Polynomial.new. simpl.
  rewrite pop_zeros_ev, rev_involutive. apply ev_map_embed.
Qed.

Lemma new_length l : (length (coeffs (Polynomial.new l)) <= length l)%nat.
Proof.
  unfold Polynomial.new. simpl.
  rewrite length_rev.
  etransitivity; [apply pop_zeros_length|].
  rewrite length_rev, length_map. reflexivity.
Qed.

Lemma new_nonempty l : l <> [] -> coeffs (Polynomial.new l) <> [].
Proof.
  intros Hl. unfold Polynomial.new. simpl.
  intros E. apply (f_equal (@rev Z)) in E. rewrite rev_involutive in E.
  simpl in E. revert E. apply pop_zeros_nonempty.
  intros E. apply (f_equal (@rev Z)) in E. rewrite rev_involutive in E.
  simpl in E. destruct l; [congruence|discriminate].
Qed.

(** Horner evaluation computes the value of the coefficient list. *)
Lemma eval_ev p x : Polynomial.eval p x = ev (coeffs p) x mod Field.MODULUS.
Proof.
  unfold Polynomial.eval. generalize (coeffs p) as l. intros l.
  induction l as [|c l IH].
  - simpl. symmetry. apply Z.mod_0_l. pose proof MODULUS_pos; lia.
  - cbn [rev ev]. rewrite fold_left_app. cbn [fold_left]. rewrite IH.
    apply eqp_mod_eq.
    rewrite mul_eqp, mod_eqp, embed_eqp.
    eqp_ring.
Qed.

Lemma eval_eqp p x : Polynomial.eval p x ≡p ev (coeffs p) x.
Proof. rewrite eval_ev. apply mod_eqp. Qed.

Lemma eval_range p x : 0 <= Polynomial.eval p x < Field.MODULUS.
Proof. rewrite eval_ev. apply Z.mod_pos_bound, MODULUS_pos. Qed.

(** *** Addition *)

Lemma nth_S_tl (l : list Z) i : nth (S i) l 0 = nth i (tl l) 0.
Proof. destruct l; [destruct i|]; reflexivity. Qed.

Lemma ev_hd_tl l x : ev l x = hd 0 l + x * ev (tl l) x.
Proof. destruct l; simpl; ring. Qed.

Lemma length_tl_le (l : list Z) n :
  (length l <= S n)%nat -> (length (tl l) <= n)%nat.
Proof. destruct l; simpl; lia. Qed.

Lemma ev_add_seq n : forall a b x,
  (length a <= n)%nat -> (length b <= n)%nat ->
  ev (map (fun i => Field.add (nth i a 0) (nth i b 0)) (seq 0 n)) x
  ≡p ev a x + ev b x.
Proof.
  induction n as [|n IH]; intros a b x Ha Hb.
  - destruct a; [|simpl in Ha; lia]. destruct b; [|simpl in Hb; lia].
    reflexivity.
  - rewrite <- cons_seq, <- seq_shift, map_cons, map_map.
    cbn [ev].
    rewrite (map_ext _ (fun i => Field.add (nth i (tl a) 0) (nth i (tl b) 0)))
      by (intros i; now rewrite !nth_S_tl).
    rewrite (IH (tl a) (tl b) x) by (now apply length_tl_le).
    rewrite add_eqp, (ev_hd_tl a), (ev_hd_tl b).
    replace (nth 0 a 0) with (hd 0 a) by (now destruct a).
    replace (nth 0 b 0) with (hd 0 b) by (now destruct b).
    eqp_ring.
Qed.

Lemma add_ev p q x :
  ev (coeffs (Polynomial.add p q)) x ≡p ev (coeffs p) x + ev (coeffs q) x.
Proof.
  unfold Polynomial.add. rewrite new_ev. apply ev_add_seq; lia.
Qed.

Lemma add_length p q :
  (length (coeffs (Polynomial.add p q))
   <= Nat.max (length (coeffs p)) (length (coeffs q)))%nat.
Proof.
  unfold Polynomial.add. etransitivity; [apply new_length|].
  rewrite length_map, length_seq. reflexivity.
Qed.

(** *** Multiplication by a scalar *)

Lemma ev_map_mul l k x : ev (map (fun c => Field.mul c k) l) x ≡p k * ev l x.
Proof.
  induction l as [|c l IH]; simpl; [eqp_ring|].
  rewrite IH, mul_eqp. eqp_ring.
Qed.

Lemma mul_scalar_ev p k x :
  ev (coeffs (Polynomial.mul_scalar p k)) x ≡p k * ev (coeffs p) x.
Proof. unfold Polynomial.mul_scalar. rewrite new_ev. apply ev_map_mul. Qed.

Lemma mul_scalar_length p k :
  (length (coeffs (Polynomial.mul_scalar p k)) <= length (coeffs p))%nat.
Proof.
  unfold Polynomial.mul_scalar. etransitivity; [apply new_length|].
  now rewrite length_map.
Qed.

(** *** Multiplication *)

Lemma ev_insert : forall (r : list Z) (k : nat) v x,
  (k < length r)%nat ->
  ev (<[k := v]> r) x = ev r x + (v - nth k r 0) * pw x k.
Proof.
  induction r as [|c r IH]; intros k v x Hk; [simpl in Hk; lia|].
  destruct k as [|k]; simpl.
  - ring.
  - rewrite IH by (simpl in Hk; lia). ring.
Qed.

Lemma mul_row_step_spec i a x : forall bs s r,
  (i + s + length bs <= length r)%nat ->
  let r' :=
    fold_left
      (fun result '(j, b) =>
         <[(i + j)%nat := Field.add (nth (i + j) result 0) (Field.mul a b)]>
           result)
      (combine (seq s (length bs)) bs) r in
  length r' = length r /\
  ev r' x ≡p ev r x + a * pw x (i + s) * ev bs x.
Proof.
  induction bs as [|b bs IH]; intros s r Hlen; cbn zeta.
  - simpl. split; [reflexivity|]. eqp_ring.
  - cbn [length seq combine fold_left].
    set (r1 := <[(i + s)%nat :=
                  Field.add (nth (i + s) r 0) (Field.mul a b)]> r).
    assert (Hr1 : length r1 = length r) by (unfold r1; apply length_insert).
    destruct (IH (S s) r1) as [IHlen IHev].
    { rewrite Hr1. simpl in Hlen. lia. }
    split; [now rewrite IHlen|].
    rewrite IHev. unfold r1.
    rewrite ev_insert by (simpl in Hlen; lia).
    rewrite add_eqp, mul_eqp.
    replace (i + S s)%nat with (S (i + s)) by lia.
    cbn [pw ev]. eqp_ring.
Qed.

Lemma mul_row_spec i a x bs r :
  (i + length bs <= length r)%nat ->
  length (Polynomial.mul_row i a bs r) = length r /\
  ev (Polynomial.mul_row i a bs r) x ≡p ev r x + a * pw x i * ev bs x.
Proof.
  intros H. unfold Polynomial.mul_row, enumerate.
  pose proof (mul_row_step_spec i a x bs 0 r) as Hs. cbn zeta in Hs.
  rewrite Nat.add_0_r in Hs. apply Hs. exact H.
Qed.

Lemma mul_fold_spec x bs : bs <> [] -> forall cs s r,
  (s + length cs + length bs - 1 <= length r)%nat ->
  let r' :=
    fold_left (fun result '(i, a) => Polynomial.mul_row i a bs result)
              (combine (seq s (length cs)) cs) r in
  length r' = length r /\
  ev r' x ≡p ev r x + pw x s * ev cs x * ev bs x.
Proof.
  intros Hbs.
  assert (Hlb : (1 <= length bs)%nat) by (destruct bs; [congruence|simpl; lia]).
  induction cs as [|a cs IH]; intros s r Hlen; cbn zeta.
  - simpl. split; [reflexivity|]. eqp_ring.
  - cbn [length seq combine fold_left].
    destruct (mul_row_spec s a x bs r) as [Hl1 He1]; [simpl in Hlen; lia|].
    destruct (IH (S s) (Polynomial.mul_row s a bs r)) as [IHlen IHev].
    { rewrite Hl1. simpl in Hlen. lia. }
    split; [now rewrite IHlen|].
    rewrite IHev, He1. cbn [pw ev]. eqp_ring.
Qed.

Lemma mul_row_nil i a r : Polynomial.mul_row i a [] r = r.
Proof. reflexivity. Qed.

Lemma mul_fold_nil : forall (l : list (nat * Z)) r,
  fold_left (fun result '(i, a) => Polynomial.mul_row i a [] result) l r = r.
Proof.
  induction l as [|[i a] l IH]; intros r; [reflexivity|].
  simpl. apply IH.
Qed.

Lemma mul_ev p q x :
  ev (coeffs (Polynomial.mul p q)) x ≡p ev (coeffs p) x * ev (coeffs q) x.
Proof.
  unfold Polynomial.mul. rewrite new_ev.
  destruct (coeffs q) as [|b bs] eqn:Eq.
  - rewrite mul_fold_nil, ev_repeat_0. simpl. eqp_ring.
  - unfold enumerate.
    destruct (mul_fold_spec x (b :: bs) ltac:(discriminate) (coeffs p) 0%nat
                (repeat 0 (length (coeffs p) + length (b :: bs) - 1)%nat))
      as [_ He].
    { rewrite repeat_length. lia. }
    cbn zeta in He. rewrite He, ev_repeat_0. simpl. eqp_ring.
Qed.

Lemma mul_row_length_any i a bs r :
  length (Polynomial.mul_row i a bs r) = length r.
Proof.
  unfold Polynomial.mul_row. generalize (enumerate bs) as l.
  intros l. revert r. induction l as [|[j b] l IH]; intros r; [reflexivity|].
  simpl. rewrite IH. apply length_insert.
Qed.

Lemma mul_length p q :
  (length (coeffs (Polynomial.mul p q))
   <= length (coeffs p) + length (coeffs q) - 1)%nat.
Proof.
  unfold Polynomial.mul. etransitivity; [apply new_length|].
  assert (H : forall l r0, length (fold_left
            (fun result '(i, a) => Polynomial.mul_row i a (coeffs q) result)
            l r0) = length r0).
  { induction l as [|[i a] l IH]; intros r0; [reflexivity|].
    simpl. rewrite IH. apply mul_row_length_any. }
  rewrite H, repeat_length. reflexivity.
Qed.

(** ** A polynomial with more roots than coefficients vanishes *)

Lemma quot_spec a x : forall l,
  ev l x = ev l a + (x - a) * ev (quot a l) x.
Proof.
  induction l as [|c l IH]; [simpl; ring|].
  destruct l as [|c' l'].
  - simpl. ring.
  - change (quot a (c :: c' :: l'))
      with (ev (c' :: l') a :: quot a (c' :: l')).
    set (l := c' :: l') in *.
    cbn [ev]. rewrite IH at 1. ring.
Qed.

Lemma quot_length a : forall l, length (quot a l) = Nat.pred (length l).
Proof.
  induction l as [|c l IH]; [reflexivity|].
  destruct l as [|c' l']; [reflexivity|].
  change (quot a (c :: c' :: l'))
    with (ev (c' :: l') a :: quot a (c' :: l')).
  cbn [length] in *. rewrite IH. reflexivity.
Qed.

Lemma ev_map_opp l x : ev (map Z.opp l) x = - ev l x.
Proof. induction l as [|c l IH]; simpl; [reflexivity|]. rewrite IH. ring. Qed.

Lemma diff_ev : forall l1 l2 x, ev (diff l1 l2) x = ev l1 x - ev l2 x.
Proof.
  induction l1 as [|a l1 IH]; intros l2 x.
  - simpl. rewrite ev_map_opp. ring.
  - destruct l2 as [|b l2]; simpl; [ring|]. rewrite IH. ring.
Qed.

Lemma diff_length : forall l1 l2,
  (length (diff l1 l2) <= Nat.max (length l1) (length l2))%nat.
Proof.
  induction l1 as [|a l1 IH]; intros l2.
  - simpl. now rewrite length_map.
  - destruct l2 as [|b l2]; simpl; [lia|]. specialize (IH l2). lia.
Qed.

Lemma eqp_sub_zero a b : a - b ≡p 0 -> a mod Field.MODULUS = b mod Field.MODULUS.
Proof.
  intros H. change (a ≡p b).
  replace a with ((a - b) + b) by ring. rewrite H. reflexivity.
Qed.

Lemma roots_zero : forall (roots l : list Z),
  List.NoDup (map (fun r => r mod Field.MODULUS) roots) ->
  (length l <= length roots)%nat ->
  (forall a, List.In a roots -> ev l a ≡p 0) ->
  forall x, ev l x ≡p 0.
Proof.
  induction roots as [|a rs IH]; intros l Hnd Hlen Hroots x.
  - destruct l; [reflexivity|simpl in Hlen; lia].
  - cbn [map] in Hnd. apply List.NoDup_cons_iff in Hnd as [Hnotin Hnd].
    assert (HQ : forall y, ev (quot a l) y ≡p 0).
    { apply IH; [exact Hnd| |].
      - rewrite quot_length. simpl in Hlen. lia.
      - intros b Hb.
        pose proof (Hroots b (or_intror Hb)) as Hlb.
        rewrite (quot_spec a b l) in Hlb.
        rewrite (Hroots a (or_introl eq_refl)) in Hlb.
        rewrite Z.add_0_l in Hlb.
        apply eqp_integral in Hlb as [Hba|HQb]; [|exact HQb].
        exfalso. apply Hnotin.
        apply eqp_sub_zero in Hba. rewrite <- Hba.
        apply (List.in_map (fun r => r mod Field.MODULUS)). exact Hb. }
    rewrite (quot_spec a x l), (Hroots a (or_introl eq_refl)), HQ.
    eqp_ring.
Qed.

(** Two coefficient lists that agree on enough points agree everywhere. *)
Lemma agree_everywhere (roots l1 l2 : list Z) :
  List.NoDup (map (fun r => r mod Field.MODULUS) roots) ->
  (length l1 <= length roots)%nat ->
  (length l2 <= length roots)%nat ->
  (forall a, List.In a roots -> ev l1 a ≡p ev l2 a) ->
  forall x, ev l1 x ≡p ev l2 x.
Proof.
  intros Hnd H1 H2 Hagree x.
  assert (H : ev (diff l1 l2) x ≡p 0).
  { apply (roots_zero roots); [exact Hnd| |].
    - pose proof (diff_length l1 l2). lia.
    - intros a Ha. rewrite diff_ev, (Hagree a Ha).
      eqp_ring. }
  rewrite diff_ev in H.
  replace (ev l1 x) with ((ev l1 x - ev l2 x) + ev l2 x) by ring.
  rewrite H. reflexivity.
Qed.

(** ** Lagrange interpolation *)

Section Interpolation.

Variable points : list (Z * Z).

Let X (j : nat) : Z := fst (nth j points (0, 0)).
Let Y (j : nat) : Z := snd (nth j points (0, 0)).

Hypothesis distinct : forall i j,
  (i < length points)%nat -> (j < length points)%nat -> i <> j ->
  ~ X i - X j ≡p 0.

Lemma basis_step_spec i b0 j :
  ~ X i - X j ≡p 0 -> i <> j ->
  exists b,
    Polynomial.basis_step points i (X i) (Some b0) j = Some b /\
    (length (coeffs b) <= S (length (coeffs b0)))%nat /\
    ev (coeffs b) (X i) ≡p ev (coeffs b0) (X i) /\
    (forall t, ev (coeffs b0) t ≡p 0 -> ev (coeffs b) t ≡p 0) /\
    ev (coeffs b) (X j) ≡p 0.
Proof using Type.
  intros Hd Hij. unfold Polynomial.basis_step.
  destruct (Nat.eqb_spec i j) as [E|_]; [contradiction|].
  fold (X j).
  destruct (inv_correct (Field.sub (X i) (X j))) as (dinv & Hinv & Hdinv).
  { now rewrite sub_eqp. }
  rewrite Hinv. eexists; split; [reflexivity|].
  rewrite sub_eqp in Hdinv.
  assert (Hev : forall t,
    ev (coeffs (Polynomial.mul_scalar
                  (Polynomial.mul b0 (Polynomial.new [Field.neg (X j); 1]))
                  dinv)) t
    ≡p dinv * (ev (coeffs b0) t * (t - X j))).
  { intros t. rewrite mul_scalar_ev, mul_ev, new_ev. cbn [ev].
    rewrite neg_eqp. eqp_ring. }
  split; [|split; [|split]].
  - etransitivity; [apply mul_scalar_length|].
    etransitivity; [apply mul_length|].
    pose proof (new_length [Field.neg (X j); 1]) as Hn.
    cbn [length] in Hn. lia.
  - rewrite Hev.
    replace (dinv * (ev (coeffs b0) (X i) * (X i - X j)))
      with (ev (coeffs b0) (X i) * ((X i - X j) * dinv)) by ring.
    rewrite Hdinv. eqp_ring.
  - intros t Ht. rewrite Hev, Ht. eqp_ring.
  - rewrite Hev. eqp_ring.
Qed.

Lemma basis_fold_spec i : forall js b0,
  (forall j, List.In j js -> j <> i -> ~ X i - X j ≡p 0) ->
  exists b,
    fold_left (Polynomial.basis_step points i (X i)) js (Some b0) = Some b /\
    (length (coeffs b) + count_occ Nat.eq_dec js i
     <= length (coeffs b0) + length js)%nat /\
    ev (coeffs b) (X i) ≡p ev (coeffs b0) (X i) /\
    (forall t, ev (coeffs b0) t ≡p 0 -> ev (coeffs b) t ≡p 0) /\
    (forall k, List.In k js -> k <> i -> ev (coeffs b) (X k) ≡p 0).
Proof using Type.
  induction js as [|j js IH]; intros b0 Hd.
  - exists b0. simpl. repeat split; auto; try lia; try reflexivity.
  - cbn [fold_left].
    destruct (Nat.eq_dec j i) as [->|Hji].
    + (* the position of the basis polynomial itself is skipped *)
      assert (Hskip : Polynomial.basis_step points i (X i) (Some b0) i
                      = Some b0).
      { unfold Polynomial.basis_step. now rewrite Nat.eqb_refl. }
      rewrite Hskip.
      destruct (IH b0) as (b & Hf & Hl & Hi & Hz & Hk).
      { intros j Hj. apply Hd. now right. }
      exists b. split; [exact Hf|]. split; [|split; [exact Hi|split; [exact Hz|]]].
      * rewrite count_occ_cons_eq by reflexivity. simpl. lia.
      * intros k [->|Hin] Hne; [congruence|]. now apply Hk.
    + destruct (basis_step_spec i b0 j) as (b1 & Hs & Hl1 & Hi1 & Hz1 & Hj1).
      { apply Hd; [now left|exact Hji]. }
      { congruence. }
      rewrite Hs.
      destruct (IH b1) as (b & Hf & Hl & Hi & Hz & Hk).
      { intros j' Hj'. apply Hd. now right. }
      exists b. split; [exact Hf|]. split; [|split; [|split]].
      * rewrite count_occ_cons_neq by exact Hji. simpl. lia.
      * now rewrite Hi.
      * intros t Ht. apply Hz, Hz1, Ht.
      * intros k [->|Hin] Hne; [apply Hz, Hj1|now apply Hk].
Qed.

Lemma count_occ_seq n k : (k < n)%nat ->
  count_occ Nat.eq_dec (seq 0 n) k = 1%nat.
Proof using Type.
  intros Hk. apply List.NoDup_count_occ'; [apply List.seq_NoDup|].
  apply List.in_seq. lia.
Qed.

Lemma basis_poly_spec i : (i < length points)%nat ->
  exists b,
    Polynomial.basis_poly points i (X i) = Some b /\
    (length (coeffs b) <= length points)%nat /\
    ev (coeffs b) (X i) ≡p 1 /\
    (forall k, (k < length points)%nat -> k <> i ->
               ev (coeffs b) (X k) ≡p 0).
Proof using distinct.
  intros Hi. unfold Polynomial.basis_poly.
  destruct (basis_fold_spec i (seq 0 (length points)) (Polynomial.new [1]))
    as (b & Hf & Hl & He & _ & Hk).
  { intros j Hj Hne. apply List.in_seq in Hj.
    apply distinct; [exact Hi|lia|congruence]. }
  exists b. split; [exact Hf|]. split; [|split].
  - rewrite count_occ_seq, length_seq in Hl by exact Hi.
    pose proof (new_length [1]) as Hn. cbn [length] in Hn. lia.
  - rewrite He, new_ev. simpl. eqp_ring.
  - intros k Hlt Hne. apply Hk; [|exact Hne]. apply List.in_seq. lia.
Qed.

Lemma interpolate_fold_spec : forall idxs res0,
  (forall i, List.In i idxs -> (i < length points)%nat) ->
  exists res,
    fold_left (Polynomial.interpolate_step points) idxs (Some res0)
    = Some res /\
    (length (coeffs res)
     <= Nat.max (length (coeffs res0)) (length points))%nat /\
    (forall k, (k < length points)%nat ->
       ev (coeffs res) (X k)
       ≡p ev (coeffs res0) (X k)
          + Y k * Z.of_nat (count_occ Nat.eq_dec idxs k)).
Proof using distinct.
  induction idxs as [|i idxs IH]; intros res0 Hin.
  - exists res0. simpl. split; [reflexivity|]. split; [lia|].
    intros k _. eqp_ring.
  - cbn [fold_left].
    assert (Hi : (i < length points)%nat) by (apply Hin; now left).
    destruct (basis_poly_spec i Hi) as (basis & Hb & Hbl & Hbi & Hbk).
    unfold Polynomial.interpolate_step at 2.
    destruct (nth i points (0, 0)) as [xi yi] eqn:Ei.
    assert (Hxi : X i = xi) by (unfold X; now rewrite Ei).
    assert (Hyi : Y i = yi) by (unfold Y; now rewrite Ei).
    rewrite <- Hxi, Hb.
    destruct (IH (Polynomial.add res0 (Polynomial.mul_scalar basis yi)))
      as (res & Hf & Hl & Hev).
    { intros j Hj. apply Hin. now right. }
    exists res. split; [exact Hf|]. split.
    + pose proof (add_length res0 (Polynomial.mul_scalar basis yi)).
      pose proof (mul_scalar_length basis yi). lia.
    + intros k Hk. rewrite (Hev k Hk), add_ev, mul_scalar_ev.
      destruct (Nat.eq_dec i k) as [->|Hne].
      * rewrite count_occ_cons_eq by reflexivity.
        rewrite Hbi, Nat2Z.inj_succ, Hyi.
        eqp_ring.
      * rewrite count_occ_cons_neq by exact Hne.
        rewrite (Hbk k Hk) by congruence.
        eqp_ring.
Qed.

(** [interpolate] returns a polynomial with at most [len(points)]
    coefficients (one for the empty list) that takes the value [y] at
    every sample [x]. *)
Lemma interpolate_spec :
  exists res,
    Polynomial.interpolate points = Some res /\
    (length (coeffs res) <= Nat.max 1 (length points))%nat /\
    (forall k, (k < length points)%nat -> ev (coeffs res) (X k) ≡p Y k).
Proof using distinct.
  unfold Polynomial.interpolate.
  destruct (interpolate_fold_spec (seq 0 (length points))
              (Polynomial.new [0])) as (res & Hf & Hl & Hev).
  { intros i Hi. apply List.in_seq in Hi. lia. }
  exists res. split; [exact Hf|]. split.
  - pose proof (new_length [0]) as Hn. cbn [length] in Hn. lia.
  - intros k Hk. rewrite (Hev k Hk), new_ev, count_occ_seq by exact Hk.
    simpl. eqp_ring.
Qed.

End Interpolation.

(** Interpolating through samples of [q] taken at points that are pairwise
    distinct modulo the modulus gives a polynomial equal to [q] as a
    function, provided there are as many samples as [q] has
    coefficients. *)
Lemma interpolate_samples (q : Polynomial) (xs : list Z) :
  length xs = length (coeffs q) ->
  List.NoDup (map (fun x => x mod Field.MODULUS) xs) ->
  exists r,
    Polynomial.interpolate (map (fun x => (x, Polynomial.eval q x)) xs)
    = Some r /\
    forall x, Polynomial.eval r x = Polynomial.eval q x.
Proof.
  intros Hlen Hnd.
  set (points := map (fun x => (x, Polynomial.eval q x)) xs).
  assert (Hpl : length points = length xs) by (unfold points; apply length_map).
  assert (HX : forall k, fst (nth k points (0, 0)) = nth k xs 0).
  { intros k. unfold points.
    destruct (Nat.lt_ge_cases k (length xs)) as [Hk|Hk].
    - rewrite (nth_indep _ _ (0, Polynomial.eval q 0)) by (now rewrite length_map).
      now rewrite (map_nth (fun x => (x, Polynomial.eval q x))).
    - rewrite !nth_overflow; [reflexivity|exact Hk|now rewrite length_map]. }
  assert (HY : forall k, (k < length xs)%nat ->
             snd (nth k points (0, 0)) = Polynomial.eval q (nth k xs 0)).
  { intros k Hk. unfold points.
    rewrite (nth_indep _ _ (0, Polynomial.eval q 0)) by (now rewrite length_map).
    now rewrite (map_nth (fun x => (x, Polynomial.eval q x))). }
  destruct (interpolate_spec points) as (r & Hr & Hrl & Hrv).
  { intros i j Hi Hj Hij H. rewrite !HX in H. apply eqp_sub_zero in H.
    apply Hij. rewrite Hpl in Hi, Hj.
    apply (proj1 (List.NoDup_nth _ (0 mod Field.MODULUS)) Hnd);
      rewrite ?length_map; auto.
    rewrite !(map_nth (fun x => x mod Field.MODULUS)).
    exact H. }
  exists r. split; [exact Hr|].
  intros x. rewrite !eval_ev. apply eqp_mod_eq.
  destruct xs as [|x0 xs'] eqn:Exs.
  - (* no samples: both are the zero function *)
    simpl in Hlen. destruct (coeffs q) eqn:Eq; [|discriminate].
    unfold Polynomial.interpolate in Hr. simpl in Hr.
    injection Hr as <-. rewrite new_ev. simpl. eqp_ring.
  - rewrite <- Exs in *.
    apply (agree_everywhere xs); [exact Hnd| | |].
    + rewrite Hpl in Hrl. rewrite Exs in *. simpl in *. lia.
    + lia.
    + intros a Ha. apply (List.In_nth _ _ 0) in Ha as (k & Hk & <-).
      rewrite <- HX, (Hrv k) by (now rewrite Hpl).
      rewrite HY by exact Hk. rewrite HX. apply eval_eqp.
Qed.

Lemma valid_mod_id xs :
  Forall (fun x => Field.is_valid x = true) xs ->
  map (fun x => x mod Field.MODULUS) xs = xs.
Proof.
  induction 1 as [|x xs Hx _ IH]; [reflexivity|].
  simpl. rewrite IH. f_equal.
  unfold Field.is_valid in Hx. apply Z.mod_small. lia.
Qed.

(** C8.  For every polynomial [q] of degree [d] and every list of [d + 1]
    samples [(x, q(x))] whose [x] are pairwise distinct field elements,
    [Polynomial.interpolate] returns a polynomial that agrees with [q] at
    every point. *)
Theorem interpolate_reproduces (q : Polynomial) (d : Z) (xs : list Z) :
  Polynomial.degree q = d ->
  Z.of_nat (length xs) = d + 1 ->
  Forall (fun x => Field.is_valid x = true) xs ->
  List.NoDup xs ->
  exists r,
    Polynomial.interpolate (map (fun x => (x, Polynomial.eval q x)) xs)
    = Some r /\
    forall x, Polynomial.eval r x = Polynomial.eval q x.
Proof.
  intros Hd Hlen Hvalid Hnd.
  apply interpolate_samples.
  - unfold Polynomial.degree in Hd. lia.
  - now rewrite valid_mod_id.
Qed.

(** The samples of the repository's own interpolation test:
    [5 + 3x + 2x^2] at [1, 2, 3]. *)
Lemma interpolate_reproduces_witness :
  exists r,
    Polynomial.interpolate
      (map (fun x => (x, Polynomial.eval (Polynomial.new [5; 3; 2]) x))
           [1; 2; 3]) = Some r /\
    forall x, Polynomial.eval r x
              = Polynomial.eval (Polynomial.new [5; 3; 2]) x.
Proof.
  apply (interpolate_reproduces (Polynomial.new [5; 3; 2]) 2 [1; 2; 3]).
  - vm_compute. reflexivity.
  - reflexivity.
  - repeat constructor.
  - repeat constructor; simpl; lia.
Defined.

(** ** Bivariate polynomials *)

Lemma sumZ_app {A} (f : A -> Z) l1 l2 :
  sumZ f (l1 ++ l2) = sumZ f l1 + sumZ f l2.
Proof. induction l1 as [|a l1 IH]; simpl; [reflexivity|]. rewrite IH. ring. Qed.

Lemma sumZ_map {A B} (f : B -> Z) (h : A -> B) l :
  sumZ f (map h l) = sumZ (fun a => f (h a)) l.
Proof. induction l as [|a l IH]; simpl; [reflexivity|]. now rewrite IH. Qed.

Lemma sumZ_flat_map {A B} (f : B -> Z) (h : A -> list B) l :
  sumZ f (flat_map h l) = sumZ (fun a => sumZ f (h a)) l.
Proof.
  induction l as [|a l IH]; simpl; [reflexivity|].
  now rewrite sumZ_app, IH.
Qed.

Lemma sumZ_ext_eqp {A} (f g : A -> Z) l :
  (forall a, f a ≡p g a) -> sumZ f l ≡p sumZ g l.
Proof.
  intros H. induction l as [|a l IH]; simpl; [reflexivity|].
  now rewrite IH, H.
Qed.

Lemma sumZ_plus {A} (f g : A -> Z) l :
  sumZ (fun a => f a + g a) l = sumZ f l + sumZ g l.
Proof. induction l as [|a l IH]; simpl; [reflexivity|]. rewrite IH. ring. Qed.

Lemma sumZ_zero {A} (l : list A) : sumZ (fun _ => 0) l = 0.
Proof. induction l as [|a l IH]; simpl; [reflexivity|]. now rewrite IH. Qed.

Lemma sumZ_swap {A B} (F : A -> B -> Z) la lb :
  sumZ (fun a => sumZ (fun b => F a b) lb) la
  = sumZ (fun b => sumZ (fun a => F a b) la) lb.
Proof.
  induction la as [|a la IH]; simpl.
  - now rewrite sumZ_zero.
  - now rewrite IH, sumZ_plus.
Qed.

Lemma sumZ_scale {A} (f : A -> Z) c l :
  sumZ (fun a => f a * c) l = sumZ f l * c.
Proof. induction l as [|a l IH]; simpl; [reflexivity|]. rewrite IH. ring. Qed.

Lemma pw_eqp x y n : x ≡p y -> pw x n ≡p pw y n.
Proof.
  intros H. induction n as [|n IH]; simpl; [reflexivity|]. now rewrite IH, H.
Qed.

Lemma pow_mod_eqp x (n : nat) :
  (Field.embed x ^ Z.of_nat n) mod Field.MODULUS ≡p pw x n.
Proof. rewrite mod_eqp, <- pw_pow. apply pw_eqp, embed_eqp. Qed.

(** A sum accumulated with [Field.add]. *)
Lemma fold_add_sum {A} (g : A -> Z) : forall l acc,
  fold_left (fun r it => Field.add r (g it)) l acc ≡p acc + sumZ g l.
Proof.
  induction l as [|a l IH]; intros acc; simpl.
  - eqp_ring.
  - rewrite IH, add_eqp. eqp_ring.
Qed.

Lemma fold_add_reduced {A} (g : A -> Z) : forall l acc,
  acc mod Field.MODULUS = acc ->
  let r := fold_left (fun r it => Field.add r (g it)) l acc in
  r mod Field.MODULUS = r.
Proof.
  induction l as [|a l IH]; intros acc Hacc; simpl; [exact Hacc|].
  apply IH. unfold Field.add. apply Z.mod_mod. pose proof MODULUS_pos; lia.
Qed.

(** *** The coefficient dictionary built by the constructor *)

Lemma getitem_app l1 l2 key :
  BiVariatePolynomial.getitem (l1 ++ l2) key
  = match BiVariatePolynomial.getitem l1 key with
    | Some c => Some c
    | None => BiVariatePolynomial.getitem l2 key
    end.
Proof.
  induction l1 as [|[[i j] c] l1 IH]; simpl; [reflexivity|].
  destruct ((i =? key.1) && (j =? key.2)); [reflexivity|exact IH].
Qed.

Lemma getitem_row_other (f : Z -> Z) i i0 j0 : i <> i0 -> forall js,
  BiVariatePolynomial.getitem (map (fun j => ((i, j), f j)) js) (i0, j0)
  = None.
Proof.
  intros Hne. induction js as [|j js IH]; simpl; [reflexivity|].
  destruct (Z.eqb_spec i i0); [contradiction|]. exact IH.
Qed.

Lemma getitem_row_same (f : Z -> Z) i j0 : forall js,
  List.In j0 js ->
  BiVariatePolynomial.getitem (map (fun j => ((i, j), f j)) js) (i, j0)
  = Some (f j0).
Proof.
  induction js as [|j js IH]; intros Hin; [destruct Hin|].
  simpl. rewrite Z.eqb_refl. simpl.
  destruct (Z.eqb_spec j j0) as [->|Hne]; [reflexivity|].
  apply IH. destruct Hin; [contradiction|assumption].
Qed.

Lemma getitem_grid (f : Z -> Z -> Z) js i0 j0 : forall rows,
  List.In i0 rows -> List.In j0 js ->
  BiVariatePolynomial.getitem
    (flat_map (fun i => map (fun j => ((i, j), f i j)) js) rows) (i0, j0)
  = Some (f i0 j0).
Proof.
  induction rows as [|i rows IH]; intros Hi Hj; [destruct Hi|].
  cbn [flat_map]. rewrite getitem_app.
  destruct (Z.eq_dec i i0) as [->|Hne].
  - now rewrite (getitem_row_same (f i0)).
  - rewrite (getitem_row_other (f i)) by exact Hne.
    apply IH; [|exact Hj]. destruct Hi; [contradiction|assumption].
Qed.

Lemma in_range_of_nat n (k : nat) :
  (k < Z.to_nat n)%nat -> List.In (Z.of_nat k) (range n).
Proof.
  intros Hk. unfold range. apply List.in_map, List.in_seq. lia.
Qed.

(** *** The accumulation loops of [row_polynomial] and [col_polynomial] *)

Lemma line_inner_spec items i_pow key j y (A IP : nat -> Z) : forall ks cs,
  (forall k, List.In k ks ->
     BiVariatePolynomial.getitem items (key j k) = Some (A k) /\
     i_pow !! k = Some (IP k)) ->
  (j < length cs)%nat ->
  exists cs',
    line_inner items i_pow key j ks (Some cs) = Some cs' /\
    length cs' = length cs /\
    ev cs' y ≡p ev cs y + sumZ (fun k => A k * IP k) ks * pw y j.
Proof.
  unfold line_inner.
  induction ks as [|k ks IH]; intros cs Hks Hj.
  - exists cs. simpl. repeat split. eqp_ring.
  - cbn [fold_left].
    destruct (Hks k (or_introl eq_refl)) as [-> ->].
    destruct (IH (<[j := Field.add (nth j cs 0) (Field.mul (A k) (IP k))]> cs))
      as (cs' & Hf & Hl & He).
    { intros k' Hk'. apply Hks. now right. }
    { now rewrite length_insert. }
    exists cs'. split; [exact Hf|]. split.
    + now rewrite Hl, length_insert.
    + rewrite He, ev_insert by exact Hj.
      rewrite add_eqp, mul_eqp. cbn [sumZ]. eqp_ring.
Qed.

Lemma line_outer_spec items i_pow key y (A : nat -> nat -> Z) (IP : nat -> Z)
    ks :
  forall js cs,
  (forall j k, List.In j js -> List.In k ks ->
     BiVariatePolynomial.getitem items (key j k) = Some (A j k) /\
     i_pow !! k = Some (IP k)) ->
  (forall j, List.In j js -> (j < length cs)%nat) ->
  exists cs',
    line_outer items i_pow key js ks (Some cs) = Some cs' /\
    length cs' = length cs /\
    ev cs' y
    ≡p ev cs y + sumZ (fun j => sumZ (fun k => A j k * IP k) ks * pw y j) js.
Proof.
  unfold line_outer.
  induction js as [|j js IH]; intros cs Hkey Hlen.
  - exists cs. simpl. repeat split. eqp_ring.
  - cbn [fold_left].
    destruct (line_inner_spec items i_pow key j y (A j) IP ks cs)
      as (cs1 & Hf1 & Hl1 & He1).
    { intros k Hk. apply Hkey; [now left|exact Hk]. }
    { apply Hlen. now left. }
    rewrite Hf1.
    destruct (IH cs1) as (cs' & Hf & Hl & He).
    { intros j' k Hj' Hk. apply Hkey; [now right|exact Hk]. }
    { intros j' Hj'. rewrite Hl1. apply Hlen. now right. }
    exists cs'. split; [exact Hf|]. split; [congruence|].
    rewrite He, He1. cbn [sumZ]. eqp_ring.
Qed.

Section CrossCheck.

Variables (degree : Z) (secret : option Z) (rnd : Z -> Z -> Z).

Let p := BiVariatePolynomial.new degree secret rnd.
Let n := Z.to_nat (degree + 1).

(** The coefficient stored under the key [(a, b)]. *)
Let a_ (a b : Z) : Z :=
  if (a =? 0) && (b =? 0) then
    match secret with
    | Some s => Field.embed s
    | None => rnd a b
    end
  else rnd a b.

(** The value [sum_ab a_ab x^a y^b] that all three computations reach. *)
Let target (x y : Z) : Z :=
  sumZ (fun a =>
          sumZ (fun b => a_ (Z.of_nat a) (Z.of_nat b) * (pw x a * pw y b))
               (seq 0 n))
       (seq 0 n).

Lemma coeffs_lookup a b : (a < n)%nat -> (b < n)%nat ->
  BiVariatePolynomial.getitem (bv_coeffs p) (Z.of_nat a, Z.of_nat b)
  = Some (a_ (Z.of_nat a) (Z.of_nat b)).
Proof using Type.
  intros Ha Hb. unfold p, BiVariatePolynomial.new. cbn [bv_coeffs].
  apply (getitem_grid a_); now apply in_range_of_nat.
Qed.

Lemma powers_lookup x k : (k < n)%nat ->
  BiVariatePolynomial.powers p x !! k
  = Some ((x ^ Z.of_nat k) mod Field.MODULUS).
Proof using Type.
  intros Hk. unfold BiVariatePolynomial.powers, range, p. cbn [bv_degree].
  rewrite !list_lookup_fmap.
  rewrite lookup_seq_lt by exact Hk. reflexivity.
Qed.

Lemma eval_target x y :
  BiVariatePolynomial.eval p x y = target x y mod Field.MODULUS.
Proof using Type.
  unfold BiVariatePolynomial.eval.
  set (g := fun it : Z * Z * Z =>
              Field.mul it.2
                (Field.mul ((Field.embed x ^ it.1.1) mod Field.MODULUS)
                           ((Field.embed y ^ it.1.2) mod Field.MODULUS))).
  assert (Hfold : forall l acc,
    fold_left
      (fun result '((i, j), coeff) =>
         Field.add result
           (Field.mul coeff
              (Field.mul ((Field.embed x ^ i) mod Field.MODULUS)
                         ((Field.embed y ^ j) mod Field.MODULUS))))
      l acc
    = fold_left (fun r it => Field.add r (g it)) l acc).
  { induction l as [|[[i j] c] l IH]; intros acc; [reflexivity|].
    simpl. apply IH. }
  rewrite Hfold.
  rewrite <- (fold_add_reduced g (bv_coeffs p) 0 mod_0_M).
  apply eqp_mod_eq. rewrite fold_add_sum, Z.add_0_l.
  unfold p, BiVariatePolynomial.new. cbn [bv_coeffs].
  rewrite sumZ_flat_map. unfold range. rewrite sumZ_map.
  unfold target. fold n.
  apply sumZ_ext_eqp. intros a.
  rewrite !sumZ_map.
  apply sumZ_ext_eqp. intros b.
  unfold g. cbn [fst snd].
  rewrite mul_eqp, mul_eqp, !pow_mod_eqp. reflexivity.
Qed.

Lemma line_target key (A : nat -> nat -> Z) x y :
  (forall j k, (j < n)%nat -> (k < n)%nat ->
     BiVariatePolynomial.getitem (bv_coeffs p) (key j k) = Some (A j k)) ->
  exists cs,
    line_outer (bv_coeffs p) (BiVariatePolynomial.powers p x) key
               (seq 0 n) (seq 0 n) (Some (repeat 0 n)) = Some cs /\
    ev cs y
    ≡p sumZ (fun j => sumZ (fun k => A j k * pw x k) (seq 0 n) * pw y j)
            (seq 0 n).
Proof using Type.
  intros Hkey.
  destruct (line_outer_spec (bv_coeffs p) (BiVariatePolynomial.powers p x)
              key y A (fun k => (x ^ Z.of_nat k) mod Field.MODULUS)
              (seq 0 n) (seq 0 n) (repeat 0 n))
    as (cs & Hf & _ & He).
  { intros j k Hj Hk. apply List.in_seq in Hj, Hk. split.
    - apply Hkey; lia.
    - apply powers_lookup. lia. }
  { intros j Hj. apply List.in_seq in Hj. rewrite repeat_length. lia. }
  exists cs. split; [exact Hf|].
  rewrite He, ev_repeat_0, Z.add_0_l.
  apply sumZ_ext_eqp. intros j.
  assert (Hin : sumZ (fun k => A j k * ((x ^ Z.of_nat k) mod Field.MODULUS))
                     (seq 0 n)
                ≡p sumZ (fun k => A j k * pw x k) (seq 0 n)).
  { apply sumZ_ext_eqp. intros k. now rewrite mod_eqp, pw_pow. }
  now rewrite Hin.
Qed.

Lemma row_target i y :
  exists r,
    BiVariatePolynomial.row_polynomial p i = Some r /\
    Polynomial.eval r y = target i y mod Field.MODULUS.
Proof using Type.
  destruct (line_target (fun j k => (Z.of_nat k, Z.of_nat j))
              (fun j k => a_ (Z.of_nat k) (Z.of_nat j)) i y)
    as (cs & Hf & He).
  { intros j k Hj Hk. now apply coeffs_lookup. }
  exists (Polynomial.new cs). split.
  - unfold BiVariatePolynomial.row_polynomial.
    change (Z.to_nat (bv_degree p + 1)) with n.
    unfold line_outer, line_inner in Hf. now rewrite Hf.
  - rewrite eval_ev. apply eqp_mod_eq. rewrite new_ev, He.
    unfold target. rewrite sumZ_swap.
    apply sumZ_ext_eqp. intros b.
    rewrite <- sumZ_scale.
    apply sumZ_ext_eqp. intros a. eqp_ring.
Qed.

Lemma col_target x j :
  exists c,
    BiVariatePolynomial.col_polynomial p j = Some c /\
    Polynomial.eval c x = target x j mod Field.MODULUS.
Proof using Type.
  destruct (line_target (fun a b => (Z.of_nat a, Z.of_nat b))
              (fun a b => a_ (Z.of_nat a) (Z.of_nat b)) j x)
    as (cs & Hf & He).
  { intros a b Ha Hb. now apply coeffs_lookup. }
  exists (Polynomial.new cs). split.
  - unfold BiVariatePolynomial.col_polynomial.
    change (Z.to_nat (bv_degree p + 1)) with n.
    unfold line_outer, line_inner in Hf. now rewrite Hf.
  - rewrite eval_ev. apply eqp_mod_eq. rewrite new_ev, He.
    unfold target.
    apply sumZ_ext_eqp. intros a.
    rewrite <- sumZ_scale.
    apply sumZ_ext_eqp. intros b. eqp_ring.
Qed.

End CrossCheck.

(** C7.  For every bivariate polynomial built by the constructor (any
    degree, secret and random draws) and all points [i], [j]:
    [row_polynomial(i).eval(j) == col_polynomial(j).eval(i) == p(i, j)]. *)
Theorem bivariate_cross_check (degree : Z) (secret : option Z)
    (rnd : Z -> Z -> Z) (i j : Z) :
  let p := BiVariatePolynomial.new degree secret rnd in
  exists row col,
    BiVariatePolynomial.row_polynomial p i = Some row /\
    BiVariatePolynomial.col_polynomial p j = Some col /\
    Polynomial.eval row j = Polynomial.eval col i /\
    Polynomial.eval col i = BiVariatePolynomial.eval p i j.
Proof.
  intros p.
  destruct (row_target degree secret rnd i j) as (row & Hr & Hre).
  destruct (col_target degree secret rnd i j) as (col & Hc & Hce).
  exists row, col. split; [exact Hr|]. split; [exact Hc|].
  unfold p. rewrite eval_target, Hre, Hce. split; reflexivity.
Qed.

(** ** Circuit *)

Example find_max_test :
  ArithmeticCircuit.find_max [15; 25; 10; 20] 5 = Some (25, 1).
Proof. vm_compute. reflexivity. Qed.

Example compare_bits_test :
  ArithmeticCircuit.compare_bits (ArithmeticCircuit.bit_decompose 15 5)
                                 (ArithmeticCircuit.bit_decompose 10 5)
  = Some 1.
Proof. vm_compute. reflexivity. Qed.

Example second_price_test :
  ArithmeticCircuit.second_price_auction [5; 10; 3; 8] 5 = Some (1, 8).
Proof. vm_compute. reflexivity. Qed.

Example find_max_tie :
  ArithmeticCircuit.find_max [10; 10; 5; 5] 5 = Some (10, 0).
Proof. vm_compute. reflexivity. Qed.

(** *** Bit decomposition *)

Lemma land_1_mod a : Z.land a 1 = a mod 2.
Proof. change 1 with (Z.ones 1) at 1. rewrite Z.land_ones by lia. reflexivity. Qed.

Lemma land_1_bit a : Z.land a 1 = 0 \/ Z.land a 1 = 1.
Proof. rewrite land_1_mod. pose proof (Z.mod_pos_bound a 2). lia. Qed.

Lemma bit_decompose_length v k :
  length (ArithmeticCircuit.bit_decompose v k) = Z.to_nat k.
Proof.
  unfold ArithmeticCircuit.bit_decompose, range.
  now rewrite !length_map, length_seq.
Qed.

Lemma bit_decompose_bits v k :
  Forall (fun b => b = 0 \/ b = 1) (ArithmeticCircuit.bit_decompose v k).
Proof.
  unfold ArithmeticCircuit.bit_decompose.
  apply Forall_forall. intros b Hb.
  apply list_elem_of_In, List.in_map_iff in Hb as (i & <- & _).
  apply land_1_bit.
Qed.

Lemma weighted_sum_bits v : forall n s,
  weighted_sum
    (map (fun i => Z.land (Z.shiftr v i) 1) (map Z.of_nat (seq s n)))
  = (v / 2 ^ Z.of_nat s) mod 2 ^ Z.of_nat n.
Proof.
  induction n as [|n IH]; intros s.
  - simpl. now rewrite Z.mod_1_r.
  - cbn [seq map weighted_sum]. rewrite IH.
    rewrite land_1_mod, Z.shiftr_div_pow2 by lia.
    rewrite !Nat2Z.inj_succ, !Z.pow_succ_r by lia.
    rewrite (Z.mul_comm 2 (2 ^ Z.of_nat s)), <- Z.div_div by lia.
    rewrite (Z.rem_mul_r _ 2 (2 ^ Z.of_nat n)) by lia.
    reflexivity.
Qed.

Lemma bit_decompose_sum v k :
  weighted_sum (ArithmeticCircuit.bit_decompose v k)
  = v mod 2 ^ Z.of_nat (Z.to_nat k).
Proof.
  unfold ArithmeticCircuit.bit_decompose, range.
  rewrite weighted_sum_bits. simpl. now rewrite Z.div_1_r.
Qed.

(** C9.  For non-negative [v] and a bit width [k], [bit_decompose(v, k)]
    returns exactly [k] bits, each [0] or [1], whose weighted sum is
    [v mod 2^k]: a value outside [[0, 2^k)] is truncated to its [k] low
    bits, never rejected. *)
Theorem bit_decompose_spec (v k : Z) :
  0 <= v -> 0 <= k ->
  let bits := ArithmeticCircuit.bit_decompose v k in
  Z.of_nat (length bits) = k /\
  Forall (fun b => b = 0 \/ b = 1) bits /\
  weighted_sum bits = v mod 2 ^ k.
Proof.
  intros _ Hk bits. unfold bits. split; [|split].
  - rewrite bit_decompose_length. lia.
  - apply bit_decompose_bits.
  - rewrite bit_decompose_sum, Z2Nat.id by exact Hk. reflexivity.
Qed.

(** [45 = 101101b] does not fit five bits; its low five bits are [13]. *)
Lemma bit_decompose_spec_witness :
  let bits := ArithmeticCircuit.bit_decompose 45 5 in
  Z.of_nat (length bits) = 5 /\
  Forall (fun b => b = 0 \/ b = 1) bits /\
  weighted_sum bits = 45 mod 2 ^ 5.
Proof. apply (bit_decompose_spec 45 5); lia. Defined.

Example bit_decompose_test :
  ArithmeticCircuit.bit_decompose 13 5 = [1; 0; 1; 1; 0].
Proof. reflexivity. Qed.

Example bit_decompose_truncates :
  ArithmeticCircuit.bit_decompose 45 5 = [1; 0; 1; 1; 0].
Proof. reflexivity. Qed.

(** *** Ties in the tournament *)

Lemma mul_0_l_F x : Field.mul 0 x = 0.
Proof. unfold Field.mul. now rewrite Z.mul_0_l, mod_0_M. Qed.

Lemma bit_times_complement b :
  b = 0 \/ b = 1 -> Field.mul b (Field.sub 1 b) = 0.
Proof.
  unfold Field.mul, Field.sub. intros [->| ->].
  - now rewrite Z.mul_0_l, mod_0_M.
  - change (1 - 1) with 0. now rewrite mod_0_M, Z.mul_0_r, mod_0_M.
Qed.

Lemma enable_flag_defined (a_bits b_bits : list Z) j :
  length a_bits = length b_bits ->
  exists e, ArithmeticCircuit.enable_flag a_bits b_bits j = Some e.
Proof.
  intros Hlen. unfold ArithmeticCircuit.enable_flag.
  assert (H : forall ls acc,
    (forall l, List.In l ls -> (l < length a_bits)%nat) ->
    exists e,
      fold_left
        (fun enable l =>
           match enable, a_bits !! l, b_bits !! l with
           | Some e, Some al, Some bl =>
               Some (Field.mul e
                       (Field.sub 1 (Field.mul (Field.sub al bl)
                                               (Field.sub al bl))))
           | _, _, _ => None
           end) ls (Some acc) = Some e).
  { induction ls as [|l ls IH]; intros acc Hin; [now exists acc|].
    cbn [fold_left].
    assert (Hl : (l < length a_bits)%nat) by (apply Hin; now left).
    destruct (lookup_lt_is_Some_2 a_bits l Hl) as [al ->].
    destruct (lookup_lt_is_Some_2 b_bits l ltac:(lia)) as [bl ->].
    apply IH. intros l' Hl'. apply Hin. now right. }
  apply H. intros l Hl. apply List.in_seq in Hl. lia.
Qed.

(** On equal bit lists the comparison gadget returns [0]. *)
Lemma compare_bits_equal (bs : list Z) :
  Forall (fun b => b = 0 \/ b = 1) bs ->
  ArithmeticCircuit.compare_bits bs bs = Some 0.
Proof.
  intros Hbits. unfold ArithmeticCircuit.compare_bits.
  assert (H : forall js,
    (forall j, List.In j js -> (j < length bs)%nat) ->
    fold_left (ArithmeticCircuit.compare_step bs bs) js (Some 0) = Some 0).
  { induction js as [|j js IH]; intros Hin; [reflexivity|].
    cbn [fold_left].
    assert (Hj : (j < length bs)%nat) by (apply Hin; now left).
    destruct (lookup_lt_is_Some_2 bs j Hj) as [bj Hbj].
    unfold ArithmeticCircuit.compare_step at 2. rewrite Hbj.
    destruct (enable_flag_defined bs bs j eq_refl) as [e ->].
    rewrite bit_times_complement.
    - rewrite mul_0_l_F. unfold Field.add. change (0 + 0) with 0.
      rewrite mod_0_M.
      apply IH. intros j' Hj'. apply Hin. now right.
    - rewrite Forall_forall in Hbits. apply Hbits.
      apply list_elem_of_lookup. now exists j. }
  apply H. intros j Hj. apply List.in_rev, List.in_seq in Hj. lia.
Qed.

Lemma max_two_equal (v : Z) (bs : list Z) :
  Forall (fun b => b = 0 \/ b = 1) bs ->
  ArithmeticCircuit.max_two v v bs bs = Some (v mod Field.MODULUS).
Proof.
  intros Hbits. unfold ArithmeticCircuit.max_two.
  rewrite compare_bits_equal by exact Hbits.
  f_equal. rewrite mul_0_l_F. unfold Field.add, Field.mul, Field.sub.
  change (1 - 0) with 1. rewrite mod_1_M, Z.mul_1_l, Z.add_0_l.
  apply Z.mod_mod. pose proof MODULUS_pos; lia.
Qed.

(** C1 (as the code has it).  When the two compared values are equal
    field elements, [compare_bits] returns [0], [max_two] returns the
    common value, and the pairing of [find_max] keeps the first (left)
    operand; for the bids [[10, 10, 5, 5]] with [k = 5], [find_max]
    returns the value [10] with winner index [0]. *)
Theorem tie_keeps_left (v k i j : Z) :
  Field.is_valid v = true ->
  let bits := ArithmeticCircuit.bit_decompose v k in
  ArithmeticCircuit.compare_bits bits bits = Some 0 /\
  ArithmeticCircuit.max_two v v bits bits = Some v /\
  ArithmeticCircuit.play (ArithmeticCircuit.Entry v i bits)
                         (ArithmeticCircuit.Entry v j bits)
  = Some (ArithmeticCircuit.Entry v i bits) /\
  ArithmeticCircuit.find_max [10; 10; 5; 5] 5 = Some (10, 0).
Proof.
  intros Hv bits.
  assert (Hbits : Forall (fun b => b = 0 \/ b = 1) bits)
    by apply bit_decompose_bits.
  assert (Hmod : v mod Field.MODULUS = v).
  { unfold Field.is_valid in Hv. apply Z.mod_small. lia. }
  split; [now apply compare_bits_equal|].
  split; [now rewrite max_two_equal, Hmod|].
  split; [|vm_compute; reflexivity].
  unfold ArithmeticCircuit.play. cbn [ArithmeticCircuit.e_value
    ArithmeticCircuit.e_bits].
  rewrite max_two_equal, Hmod by exact Hbits.
  now rewrite Z.eqb_refl.
Qed.

Lemma tie_keeps_left_witness :
  let bits := ArithmeticCircuit.bit_decompose 10 5 in
  ArithmeticCircuit.compare_bits bits bits = Some 0 /\
  ArithmeticCircuit.max_two 10 10 bits bits = Some 10 /\
  ArithmeticCircuit.play (ArithmeticCircuit.Entry 10 0 bits)
                         (ArithmeticCircuit.Entry 10 1 bits)
  = Some (ArithmeticCircuit.Entry 10 0 bits) /\
  ArithmeticCircuit.find_max [10; 10; 5; 5] 5 = Some (10, 0).
Proof. apply (tie_keeps_left 10 5 0 1). reflexivity. Defined.

(** The right-biased reading fails: on the bids [[10, 10, 5, 5]] the winner
    index is not [1]. *)
Lemma tie_right_bias_counterexample :
  ~ (exists v, ArithmeticCircuit.find_max [10; 10; 5; 5] 5 = Some (v, 1)).
Proof.
  intros [v H].
  assert (E : ArithmeticCircuit.find_max [10; 10; 5; 5] 5 = Some (10, 0))
    by (vm_compute; reflexivity).
  rewrite E in H. injection H as _ Hidx. discriminate Hidx.
Qed.


(** *** The tournament always produces a winner *)

Lemma compare_bits_defined (a_bits b_bits : list Z) :
  length a_bits = length b_bits ->
  exists c, ArithmeticCircuit.compare_bits a_bits b_bits = Some c.
Proof.
  intros Hlen. unfold ArithmeticCircuit.compare_bits.
  assert (H : forall js acc,
    (forall j, List.In j js -> (j < length a_bits)%nat) ->
    exists c,
      fold_left (ArithmeticCircuit.compare_step a_bits b_bits) js (Some acc)
      = Some c).
  { induction js as [|j js IH]; intros acc Hin; [now exists acc|].
    cbn [fold_left].
    assert (Hj : (j < length a_bits)%nat) by (apply Hin; now left).
    destruct (lookup_lt_is_Some_2 a_bits j Hj) as [aj Haj].
    destruct (lookup_lt_is_Some_2 b_bits j ltac:(lia)) as [bj Hbj].
    destruct (enable_flag_defined a_bits b_bits j Hlen) as [e He].
    unfold ArithmeticCircuit.compare_step at 2. rewrite Haj, Hbj, He.
    apply IH. intros j' Hj'. apply Hin. now right. }
  apply H. intros j Hj. apply List.in_rev, List.in_seq in Hj. lia.
Qed.

Lemma play_defined (w : nat) (x y : ArithmeticCircuit.entry) :
  length (ArithmeticCircuit.e_bits x) = w ->
  length (ArithmeticCircuit.e_bits y) = w ->
  exists z, ArithmeticCircuit.play x y = Some z /\ (z = x \/ z = y).
Proof.
  intros Hx Hy. unfold ArithmeticCircuit.play, ArithmeticCircuit.max_two.
  destruct (compare_bits_defined (ArithmeticCircuit.e_bits x)
              (ArithmeticCircuit.e_bits y)) as [c ->]; [congruence|].
  eexists; split; [reflexivity|]. destruct (_ =? _); auto.
Qed.

Lemma tournament_round_defined (w : nat) : forall (m : nat) current,
  (length current <= m)%nat ->
  Forall (fun e => length (ArithmeticCircuit.e_bits e) = w) current ->
  exists next,
    ArithmeticCircuit.tournament_round current = Some next /\
    Forall (fun e => length (ArithmeticCircuit.e_bits e) = w) next /\
    (2 * length next <= length current + 1)%nat /\
    (current <> [] -> next <> []).
Proof.
  induction m as [|m IH]; intros current Hm Hall.
  - destruct current; [|simpl in Hm; lia].
    exists []. repeat split; auto; simpl; lia.
  - destruct current as [|x [|y rest]].
    + exists []. repeat split; auto; simpl; lia.
    + exists [x]. repeat split; auto; simpl; lia.
    + apply Forall_cons in Hall as [Hx Hall1].
      apply Forall_cons in Hall1 as [Hy Hrest].
      destruct (play_defined w x y Hx Hy) as (z & Hz & Hzxy).
      destruct (IH rest) as (next & Hn & Hnall & Hnlen & _);
        [simpl in Hm; lia|exact Hrest|].
      exists (z :: next). cbn [ArithmeticCircuit.tournament_round].
      rewrite Hz, Hn. split; [reflexivity|]. split; [|split].
      * constructor; [destruct Hzxy as [-> | ->]; assumption|exact Hnall].
      * simpl. lia.
      * discriminate.
Qed.

Lemma tournament_defined (w : nat) : forall fuel current,
  (length current <= S fuel)%nat -> current <> [] ->
  Forall (fun e => length (ArithmeticCircuit.e_bits e) = w) current ->
  exists winner, ArithmeticCircuit.tournament fuel current = Some [winner].
Proof.
  induction fuel as [|fuel IH]; intros current Hlen Hne Hall.
  - destruct current as [|x [|y rest]]; [congruence| |simpl in Hlen; lia].
    now exists x.
  - destruct current as [|x [|y rest]]; [congruence|now exists x|].
    destruct (tournament_round_defined w _ (x :: y :: rest) (le_n _) Hall)
      as (next & Hn & Hnall & Hnlen & Hnne).
    cbn [ArithmeticCircuit.tournament]. rewrite Hn.
    apply IH; [|apply Hnne; discriminate|exact Hnall].
    simpl in Hnlen, Hlen. lia.
Qed.

(** [find_max] returns a value and an index for every input: the bound
    on the number of passes is never reached and no index is out of
    range. *)
Lemma find_max_total (values : list Z) (k : Z) :
  exists v i, ArithmeticCircuit.find_max values k = Some (v, i).
Proof.
  unfold ArithmeticCircuit.find_max.
  destruct values as [|v0 [|v1 rest]]; [now exists 0, (-1)|now exists v0, 0|].
  set (values := v0 :: v1 :: rest).
  set (start := map _ (enumerate values)).
  destruct (tournament_defined (Z.to_nat k) (length values) start)
    as [winner ->].
  - unfold start, enumerate.
    rewrite length_map, length_combine, length_seq. lia.
  - unfold start, values. discriminate.
  - unfold start. apply Forall_forall. intros e He.
    apply list_elem_of_In, List.in_map_iff in He as ([i v] & <- & _).
    apply bit_decompose_length.
  - now exists (ArithmeticCircuit.e_value winner),
               (ArithmeticCircuit.e_index winner).
Qed.
(** ** Beacon *)










(** A single requester does not get a value. *)
Example beacon_below_threshold :
  (RandomnessBeacon.request 7 0 (Some 1) (RandomnessBeacon.new 4 1)).2 = None.
Proof. vm_compute. reflexivity. Qed.

(** ** Binary agreement *)

(** C6.  In a round whose EST wait is over ([n - f] EST messages counted),
    the AUX value is the party's own estimate [e] if
    [est_count[r][e] >= n - f]; otherwise the bit with the strictly larger
    EST count; otherwise, when the two counts are equal, the null value. *)
Theorem aux_selection (a : BinaryAgreement.t) (e : Z) :
  BinaryAgreement.estimate a = Some e ->
  BinaryAgreement.n a - BinaryAgreement.f a
  <= BinaryAgreement.total (BinaryAgreement.est_count a)
                           (BinaryAgreement.round a) ->
  let nf := BinaryAgreement.n a - BinaryAgreement.f a in
  let c v := BinaryAgreement.count (BinaryAgreement.est_count a)
                                   (BinaryAgreement.round a) (Some v) in
  exists aux,
    BinaryAgreement.aux_phase a = Some aux /\
    (nf <= c e -> aux = Some e) /\
    (c e < nf -> c 1 < c 0 -> aux = Some 0) /\
    (c e < nf -> c 0 < c 1 -> aux = Some 1) /\
    (c e < nf -> c 0 = c 1 -> aux = None).
Proof.
  intros He Htotal nf c.
  exists (BinaryAgreement.aux_value a). split.
  - unfold BinaryAgreement.aux_phase.
    destruct (Z.ltb_spec (BinaryAgreement.total (BinaryAgreement.est_count a)
                            (BinaryAgreement.round a))
                         (BinaryAgreement.n a - BinaryAgreement.f a));
      [lia|reflexivity].
  - unfold BinaryAgreement.aux_value. rewrite He.
    fold nf. fold (c e). fold (c 0). fold (c 1).
    destruct (Z.leb_spec nf (c e)) as [Hge|Hlt].
    + repeat split; intros; try lia; reflexivity.
    + destruct (Z.gtb_spec (c 0) (c 1)) as [H01|H01].
      * repeat split; intros; try lia; reflexivity.
      * destruct (Z.gtb_spec (c 1) (c 0)) as [H10|H10].
        -- repeat split; intros; try lia; reflexivity.
        -- repeat split; intros; try lia; reflexivity.
Qed.

Lemma aux_selection_witness :
  let a := aux_example in
  let nf := BinaryAgreement.n a - BinaryAgreement.f a in
  let c v := BinaryAgreement.count (BinaryAgreement.est_count a)
                                   (BinaryAgreement.round a) (Some v) in
  exists aux,
    BinaryAgreement.aux_phase a = Some aux /\
    (nf <= c 0 -> aux = Some 0) /\
    (c 0 < nf -> c 1 < c 0 -> aux = Some 0) /\
    (c 0 < nf -> c 0 < c 1 -> aux = Some 1) /\
    (c 0 < nf -> c 0 = c 1 -> aux = None).
Proof.
  apply (aux_selection aux_example 0).
  - reflexivity.
  - vm_compute. discriminate.
Defined.

Example aux_example_value : BinaryAgreement.aux_phase aux_example = Some (Some 1).
Proof. vm_compute. reflexivity. Qed.

Lemma values_with_nf_cases a :
  BinaryAgreement.values_with_nf a = [] \/
  BinaryAgreement.values_with_nf a = [0] \/
  BinaryAgreement.values_with_nf a = [1] \/
  BinaryAgreement.values_with_nf a = [0; 1].
Proof.
  unfold BinaryAgreement.values_with_nf. cbn [List.filter].
  destruct (_ <=? _); destruct (_ <=? _); auto.
Qed.





(** ** Complete secret sharing *)

(** The loop accepts exactly the item lists in which every sub-share
    [(sender -> (re, ce))] satisfies [my_row(sender) = re] and
    [my_col(my_id) = ce]; the order of the items is immaterial. *)
Lemma check_items_spec me my_row my_col items :
  CompleteSecretSharing.check_items me my_row my_col items = true <->
  forall sender re ce, List.In (sender, (re, ce)) items ->
    Polynomial.eval my_row sender = re /\ Polynomial.eval my_col me = ce.
Proof.
  induction items as [|[sender [re ce]] items IH]; simpl.
  - split; [intros _ ? ? ? []|reflexivity].
  - destruct (Z.eqb_spec (Polynomial.eval my_row sender) re) as [Hr|Hr];
      simpl.
    + destruct (Z.eqb_spec (Polynomial.eval my_col me) ce) as [Hc|Hc];
        simpl.
      * rewrite IH. split.
        -- intros H s r c [E|Hin]; [injection E as <- <- <-; auto|eauto].
        -- intros H s r c Hin. apply H. now right.
      * split; [discriminate|]. intros H.
        destruct (H sender re ce (or_introl eq_refl)). contradiction.
    + split; [discriminate|]. intros H.
      destruct (H sender re ce (or_introl eq_refl)). contradiction.
Qed.


(** The happy counter counts the HAPPY messages with [happy = True]. *)
Lemma happy_count_counts dealer : forall (msgs : list bool) s,
  default 0 (CompleteSecretSharing.happy_count
               (fold_left (fun s h => CompleteSecretSharing._handle_happy
                                        dealer h s) msgs s) !! dealer)
  = default 0 (CompleteSecretSharing.happy_count s !! dealer)
    + Z.of_nat (length (List.filter (fun h => h) msgs)).
Proof.
  induction msgs as [|h msgs IH]; intros s; [simpl; lia|].
  cbn [fold_left]. rewrite IH.
  unfold CompleteSecretSharing._handle_happy.
  cbn [CompleteSecretSharing.happy_count].
  rewrite lookup_insert_eq. destruct h; simpl; lia.
Qed.

(** *** The calls of [receive_share] in an execution *)

(** A CSS_SUBSHARE message changes nothing: the handler raises. *)
Lemma deliver_subshare dealer row_eval col_eval s :
  CompleteSecretSharing.deliver
    (CompleteSecretSharing.CSS_SUBSHARE dealer row_eval col_eval) s = s.
Proof. reflexivity. Qed.

(** No handler writes a sub-share dictionary, the parameters or the
    polynomials of a dealer that has them. *)
Lemma deliver_frame m s :
  CompleteSecretSharing.sub_shares (CompleteSecretSharing.deliver m s)
  = CompleteSecretSharing.sub_shares s /\
  CompleteSecretSharing.n (CompleteSecretSharing.deliver m s)
  = CompleteSecretSharing.n s /\
  CompleteSecretSharing.f (CompleteSecretSharing.deliver m s)
  = CompleteSecretSharing.f s /\
  ((forall d,
      is_Some (CompleteSecretSharing.row_polys s !! d) ->
      is_Some (CompleteSecretSharing.col_polys s !! d)) ->
   forall d,
     is_Some (CompleteSecretSharing.row_polys
                (CompleteSecretSharing.deliver m s) !! d) ->
     is_Some (CompleteSecretSharing.col_polys
                (CompleteSecretSharing.deliver m s) !! d)).
Proof.
  destruct m as [dealer row col|dealer re ce|dealer happy|];
    cbn [CompleteSecretSharing.deliver CompleteSecretSharing.handle_message
         CompleteSecretSharing._handle_subshare from_option id];
    try (repeat split; auto; fail).
  unfold CompleteSecretSharing._handle_share.
  destruct (CompleteSecretSharing.row_polys s !! dealer) eqn:E;
    cbn [CompleteSecretSharing.sub_shares CompleteSecretSharing.n
         CompleteSecretSharing.f CompleteSecretSharing.row_polys
         CompleteSecretSharing.col_polys];
    repeat split; auto.
  intros Hrc d. destruct (decide (dealer = d)) as [->|Hne].
  - rewrite !lookup_insert_eq. eauto.
  - rewrite !lookup_insert_ne by exact Hne. apply Hrc.
Qed.

(** With no sub-share recorded and [n - f >= 1], the wait for sub-shares
    goes on. *)
Lemma subshare_wait_stuck dealer s :
  1 <= CompleteSecretSharing.n s - CompleteSecretSharing.f s ->
  CompleteSecretSharing.sub_shares s !! dealer = Some ∅ ->
  CompleteSecretSharing.subshare_wait dealer s
  = (CompleteSecretSharing.AwaitSubshares, s, []).
Proof.
  intros Hnf Hsub. unfold CompleteSecretSharing.subshare_wait.
  rewrite Hsub, map_size_empty.
  destruct (Z.ltb_spec (Z.of_nat 0)
              (CompleteSecretSharing.n s - CompleteSecretSharing.f s));
    [reflexivity|lia].
Qed.

Lemma share_wait_stuck timeout dealer s :
  1 <= CompleteSecretSharing.n s - CompleteSecretSharing.f s ->
  CompleteSecretSharing.sub_shares s !! dealer = Some ∅ ->
  (is_Some (CompleteSecretSharing.row_polys s !! dealer) ->
   is_Some (CompleteSecretSharing.col_polys s !! dealer)) ->
  exists p out,
    CompleteSecretSharing.share_wait timeout dealer s = (p, s, out) /\
    css_waiting p /\
    forall d h, ~ List.In (CompleteSecretSharing.HAPPY d h) out.
Proof.
  intros Hnf Hsub Hrc.
  assert (Hex : exists out,
            CompleteSecretSharing.exchange dealer s
            = (CompleteSecretSharing.AwaitSubshares, s, out) /\
            forall d h, ~ List.In (CompleteSecretSharing.HAPPY d h) out).
  { unfold CompleteSecretSharing.exchange.
    rewrite (subshare_wait_stuck dealer s Hnf Hsub).
    destruct (CompleteSecretSharing.row_polys s !! dealer) as [my_row|] eqn:Er.
    - destruct Hrc as [my_col Hc]; [eauto|]. rewrite Hc.
      eexists. split; [reflexivity|].
      intros d h Hin. rewrite app_nil_r in Hin.
      apply List.in_map_iff in Hin as (q & Hq & _).
      destruct (CompleteSecretSharing.subshare_payload my_row my_col q).
      discriminate.
    - exists []. split; [reflexivity|]. intros d h []. }
  destruct Hex as (out & Hex & Hout).
  unfold CompleteSecretSharing.share_wait.
  destruct (CompleteSecretSharing.row_polys s !! dealer) eqn:Er.
  - exists CompleteSecretSharing.AwaitSubshares, out.
    split; [exact Hex|]. split; [now right|exact Hout].
  - destruct (timeout <? 100).
    + exists (CompleteSecretSharing.AwaitShare timeout), [].
      split; [reflexivity|]. split; [left; eauto|]. intros d h [].
    + exists CompleteSecretSharing.AwaitSubshares, out.
      split; [exact Hex|]. split; [now right|exact Hout].
Qed.

Lemma stuck_inv_fresh party_id n f :
  1 <= n - f -> css_stuck_inv (CompleteSecretSharing.fresh party_id n f).
Proof.
  intros Hnf. unfold css_stuck_inv, CompleteSecretSharing.fresh.
  cbn [CompleteSecretSharing.css CompleteSecretSharing.conditions
       CompleteSecretSharing.tasks CompleteSecretSharing.outbox
       CompleteSecretSharing.new CompleteSecretSharing.n
       CompleteSecretSharing.f CompleteSecretSharing.sub_shares
       CompleteSecretSharing.row_polys CompleteSecretSharing.col_polys].
  split; [exact Hnf|]. split.
  { intros d subs H. rewrite lookup_empty in H. discriminate. }
  split; [intros d Hd; now apply not_elem_of_empty in Hd|]. split.
  { intros d [x H]. rewrite lookup_empty in H. discriminate. }
  split; [intros k d p H; discriminate|]. intros d h [].
Qed.

Lemma stuck_inv_step e c :
  css_stuck_inv c -> css_stuck_inv (CompleteSecretSharing.step e c).
Proof.
  intros (Hnf & Hempty & Hcond & Hrc & Htasks & Hout).
  destruct e as [m|dealer|k].
  - (* a message is handled *)
    destruct (deliver_frame m (CompleteSecretSharing.css c))
      as (Hs & Hn & Hf & Hrc').
    unfold css_stuck_inv.
    cbn [CompleteSecretSharing.step CompleteSecretSharing.css
         CompleteSecretSharing.conditions CompleteSecretSharing.tasks
         CompleteSecretSharing.outbox].
    rewrite Hs, Hn, Hf.
    exact (conj Hnf (conj Hempty (conj Hcond (conj (Hrc' Hrc)
             (conj Htasks Hout))))).
  - (* a call starts *)
    cbn [CompleteSecretSharing.step].
    unfold CompleteSecretSharing.receive_share.
    set (s1 := if decide (dealer ∈ CompleteSecretSharing.conditions c)
               then CompleteSecretSharing.css c else _).
    assert (Hs1 : CompleteSecretSharing.n s1 = CompleteSecretSharing.n
                    (CompleteSecretSharing.css c) /\
                  CompleteSecretSharing.f s1 = CompleteSecretSharing.f
                    (CompleteSecretSharing.css c) /\
                  CompleteSecretSharing.row_polys s1
                  = CompleteSecretSharing.row_polys
                      (CompleteSecretSharing.css c) /\
                  CompleteSecretSharing.col_polys s1
                  = CompleteSecretSharing.col_polys
                      (CompleteSecretSharing.css c) /\
                  CompleteSecretSharing.sub_shares s1 !! dealer = Some ∅ /\
                  (forall d subs,
                     CompleteSecretSharing.sub_shares s1 !! d = Some subs ->
                     subs = ∅) /\
                  (forall d, d ∈ CompleteSecretSharing.conditions c ->
                     is_Some (CompleteSecretSharing.sub_shares s1 !! d))).
    { unfold s1.
      destruct (decide (dealer ∈ CompleteSecretSharing.conditions c))
        as [Hin|Hnin].
      - repeat split; auto.
        destruct (Hcond dealer Hin) as [subs Hsubs].
        now rewrite Hsubs, (Hempty dealer subs Hsubs).
      - cbn [CompleteSecretSharing.n CompleteSecretSharing.f
             CompleteSecretSharing.row_polys CompleteSecretSharing.col_polys
             CompleteSecretSharing.sub_shares].
        split; [reflexivity|]. split; [reflexivity|].
        split; [reflexivity|]. split; [reflexivity|].
        split; [apply lookup_insert_eq|]. split.
        + intros d subs. destruct (decide (dealer = d)) as [->|Hne].
          * rewrite lookup_insert_eq. now intros [= <-].
          * rewrite lookup_insert_ne by exact Hne. apply Hempty.
        + intros d Hd. destruct (decide (dealer = d)) as [->|Hne].
          * rewrite lookup_insert_eq. eauto.
          * rewrite lookup_insert_ne by exact Hne. now apply Hcond. }
    destruct Hs1 as (Hn1 & Hf1 & Hr1 & Hc1 & Hsub1 & Hempty1 & Hcond1).
    destruct (share_wait_stuck 0 dealer s1) as (p & out & Hsw & Hp & Hno).
    { rewrite Hn1, Hf1. exact Hnf. }
    { exact Hsub1. }
    { rewrite Hr1, Hc1. apply Hrc. }
    rewrite Hsw. unfold css_stuck_inv.
    cbn [CompleteSecretSharing.css CompleteSecretSharing.conditions
         CompleteSecretSharing.tasks CompleteSecretSharing.outbox].
    rewrite Hn1, Hf1, Hr1, Hc1.
    split; [exact Hnf|]. split; [exact Hempty1|]. split.
    { intros d Hd. apply elem_of_union in Hd as [Hd|Hd].
      - apply elem_of_singleton in Hd as ->. rewrite Hsub1. eauto.
      - now apply Hcond1. }
    split; [exact Hrc|]. split.
    { intros k d p' Hk.
      apply lookup_app_Some in Hk as [Hk|[_ Hk]].
      - destruct (Htasks k d p' Hk) as [Hd Hw].
        split; [apply elem_of_union; now right|exact Hw].
      - apply list_lookup_singleton_Some in Hk as [_ Hk].
        injection Hk as <- <-.
        split; [apply elem_of_union; left; now apply elem_of_singleton
               |exact Hp]. }
    intros d h Hin. apply List.in_app_iff in Hin as [Hin|Hin].
    + now apply Hout in Hin.
    + now apply Hno in Hin.
  - (* a call is resumed *)
    cbn [CompleteSecretSharing.step].
    destruct (CompleteSecretSharing.tasks c !! k) as [[dealer p]|] eqn:Ek;
      [|exact (conj Hnf (conj Hempty (conj Hcond (conj Hrc
                 (conj Htasks Hout)))))].
    destruct (Htasks k dealer p Ek) as [Hd Hw].
    destruct (Hcond dealer Hd) as [subs Hsubs].
    pose proof (Hempty dealer subs Hsubs) as ->.
    assert (Hres : exists p' out,
              CompleteSecretSharing.resume p dealer
                (CompleteSecretSharing.css c)
              = (p', CompleteSecretSharing.css c, out) /\
              css_waiting p' /\
              forall d h, ~ List.In (CompleteSecretSharing.HAPPY d h) out).
    { destruct Hw as [[timeout ->]| ->];
        cbn [CompleteSecretSharing.resume].
      - apply share_wait_stuck; auto.
      - rewrite (subshare_wait_stuck dealer _ Hnf Hsubs).
        exists CompleteSecretSharing.AwaitSubshares, [].
        split; [reflexivity|]. split; [now right|]. intros d h []. }
    destruct Hres as (p' & out & Hres & Hp' & Hno). rewrite Hres.
    unfold css_stuck_inv.
    cbn [CompleteSecretSharing.css CompleteSecretSharing.conditions
         CompleteSecretSharing.tasks CompleteSecretSharing.outbox].
    split; [exact Hnf|]. split; [exact Hempty|]. split; [exact Hcond|].
    split; [exact Hrc|]. split.
    { intros k' d p'' Hk'.
      destruct (decide (k = k')) as [<-|Hne].
      - rewrite list_lookup_insert_eq in Hk'
          by exact (lookup_lt_Some _ _ _ Ek).
        injection Hk' as <- <-. split; [exact Hd|exact Hp'].
      - rewrite list_lookup_insert_ne in Hk' by exact Hne.
        now apply Htasks in Hk'. }
    intros d h Hin. apply List.in_app_iff in Hin as [Hin|Hin].
    + now apply Hout in Hin.
    + now apply Hno in Hin.
Qed.

Lemma stuck_inv_run : forall events c,
  css_stuck_inv c -> css_stuck_inv (CompleteSecretSharing.run_events events c).
Proof.
  unfold CompleteSecretSharing.run_events.
  induction events as [|e events IH]; intros c Hinv; [exact Hinv|].
  cbn [fold_left]. apply IH. now apply stuck_inv_step.
Qed.

(** What the last segment of [receive_share] does once the sub-share wait
    is behind it: it stays in the HAPPY wait below [n - f] counted
    messages, and from [n - f] on it returns the stored polynomials when
    the receiver's own verdict is happy and zero polynomials when it is
    not. *)
Lemma happy_wait_outcome (is_happy : bool) (dealer count : Z)
    (s : CompleteSecretSharing.t) :
  CompleteSecretSharing.happy_count s !! dealer = Some count ->
  let nf := CompleteSecretSharing.n s - CompleteSecretSharing.f s in
  let p := (CompleteSecretSharing.happy_wait is_happy dealer s).1 in
  (count < nf -> p = CompleteSecretSharing.AwaitHappy is_happy) /\
  (nf <= count -> is_happy = true ->
   forall row col,
     CompleteSecretSharing.row_polys s !! dealer = Some row ->
     CompleteSecretSharing.col_polys s !! dealer = Some col ->
     p = CompleteSecretSharing.Returned row col) /\
  (nf <= count -> is_happy = false ->
   p = CompleteSecretSharing.Returned (Polynomial.new [0])
                                      (Polynomial.new [0])).
Proof.
  intros Hc nf p. unfold p, CompleteSecretSharing.happy_wait.
  rewrite Hc. fold nf.
  destruct (Z.ltb_spec count nf) as [Hlt|Hge]; cbn [fst].
  - repeat split; intros; try reflexivity; lia.
  - split; [intros; lia|]. split.
    + intros _ -> row col -> ->. reflexivity.
    + intros _ ->. reflexivity.
Qed.

(** C3 (the code in every execution).  On a sharing object with
    [n - f >= 1], whatever messages are handled and however the calls of
    [receive_share] are started and resumed, no call gets past its wait
    for sub-shares: [_handle_subshare] raises before it records anything,
    so every sub-share dictionary stays empty.  Each call is suspended in
    its first or in its second loop; none has returned, with its
    polynomials or with zero polynomials, and no HAPPY has been
    broadcast, however many HAPPY messages with [happy = True] have been
    counted. *)
Theorem receive_share_never_completes (party_id n f : Z)
    (events : list CompleteSecretSharing.event) :
  1 <= n - f ->
  let c := CompleteSecretSharing.run_events events
             (CompleteSecretSharing.fresh party_id n f) in
  (forall k dealer p,
     CompleteSecretSharing.tasks c !! k = Some (dealer, p) ->
     (exists timeout, p = CompleteSecretSharing.AwaitShare timeout) \/
     p = CompleteSecretSharing.AwaitSubshares) /\
  (forall dealer subs,
     CompleteSecretSharing.sub_shares (CompleteSecretSharing.css c) !! dealer
     = Some subs -> subs = ∅) /\
  (forall dealer happy,
     ~ List.In (CompleteSecretSharing.HAPPY dealer happy)
         (CompleteSecretSharing.outbox c)).
Proof.
  intros Hnf c.
  destruct (stuck_inv_run events _ (stuck_inv_fresh party_id n f Hnf))
    as (_ & Hempty & _ & _ & Htasks & Hout).
  fold c in Hempty, Htasks, Hout.
  split; [|split; [exact Hempty|exact Hout]].
  intros k dealer p Hk. now destruct (Htasks k dealer p Hk).
Qed.

(** The failing input: the share of dealer [1] has arrived, three
    CSS_SUBSHARE messages have been handled and [n - f = 3] HAPPY messages
    with [happy = True] are counted, yet the call is still in its wait for
    sub-shares. *)
Lemma receive_share_never_completes_witness :
  let c := CompleteSecretSharing.run_events css_stuck_events
             (CompleteSecretSharing.fresh 0 4 1) in
  (CompleteSecretSharing.happy_count (CompleteSecretSharing.css c) !! 1
   = Some 3 /\
   CompleteSecretSharing.row_polys (CompleteSecretSharing.css c) !! 1
   = Some (Polynomial.new [1; 2]) /\
   CompleteSecretSharing.tasks c
   = [(1, CompleteSecretSharing.AwaitSubshares)]) /\
  (forall k dealer p,
     CompleteSecretSharing.tasks c !! k = Some (dealer, p) ->
     (exists timeout, p = CompleteSecretSharing.AwaitShare timeout) \/
     p = CompleteSecretSharing.AwaitSubshares) /\
  (forall dealer subs,
     CompleteSecretSharing.sub_shares (CompleteSecretSharing.css c) !! dealer
     = Some subs -> subs = ∅) /\
  (forall dealer happy,
     ~ List.In (CompleteSecretSharing.HAPPY dealer happy)
         (CompleteSecretSharing.outbox c)).
Proof.
  split.
  - split; [vm_compute; reflexivity|].
    split; [vm_compute; reflexivity|vm_compute; reflexivity].
  - apply (receive_share_never_completes 0 4 1 css_stuck_events). lia.
Defined.

(** ** Party: local operations on shares *)

(** C10.  [local_add] and [local_multiply_constant] are total: a missing
    operand share reads as [0], the field result is stored under
    [result_id] and returned; on a party without any share, [local_add]
    stores and returns [0]. *)
Theorem local_operations_total (p : MPCParty.t)
    (secret_id1 secret_id2 result_id : string) (constant : Z) :
  let share id := default 0 (MPCParty.shared_values p !! id) in
  let sum := Field.add (share secret_id1) (share secret_id2) in
  let prod := Field.mul (share secret_id1) constant in
  (MPCParty.local_add secret_id1 secret_id2 result_id p).2 = sum /\
  MPCParty.shared_values
    (MPCParty.local_add secret_id1 secret_id2 result_id p).1 !! result_id
  = Some sum /\
  (MPCParty.local_multiply_constant secret_id1 constant result_id p).2
  = prod /\
  MPCParty.shared_values
    (MPCParty.local_multiply_constant secret_id1 constant result_id p).1
    !! result_id
  = Some prod /\
  (forall party_id n f,
     let fresh := MPCParty.new party_id n f in
     (MPCParty.local_add secret_id1 secret_id2 result_id fresh).2 = 0 /\
     MPCParty.shared_values
       (MPCParty.local_add secret_id1 secret_id2 result_id fresh).1
       !! result_id = Some 0).
Proof.
  cbn zeta. unfold MPCParty.local_add, MPCParty.local_multiply_constant,
    MPCParty.store. cbn [fst snd MPCParty.shared_values].
  rewrite !lookup_insert_eq.
  split; [reflexivity|]. split; [reflexivity|].
  split; [reflexivity|]. split; [reflexivity|].
  intros party_id n f. unfold MPCParty.new. cbn [MPCParty.shared_values].
  rewrite lookup_insert_eq, !lookup_empty. cbn [default]. unfold Field.add.
  change (0 + 0) with 0. rewrite mod_0_M. split; reflexivity.
Qed.

(** A missing operand next to a known one. *)
Example local_add_one_unknown :
  (MPCParty.local_add "a" "missing" "out"
     (MPCParty.store "a" 41 (MPCParty.new 0 4 1))).2 = 41.
Proof. vm_compute. reflexivity. Qed.

(** * Further properties of the code *)

(** ** Field *)

Lemma mod_valid a : Field.is_valid (a mod Field.MODULUS) = true.
Proof.
  unfold Field.is_valid.
  pose proof (Z.mod_pos_bound a Field.MODULUS MODULUS_pos).
  apply andb_true_iff. split; [apply Z.leb_le | apply Z.ltb_lt]; lia.
Qed.

Lemma valid_mod a : Field.is_valid a = true -> a mod Field.MODULUS = a.
Proof.
  unfold Field.is_valid. intros H. apply andb_true_iff in H as [H1 H2].
  apply Z.leb_le in H1. apply Z.ltb_lt in H2. apply Z.mod_small. lia.
Qed.

(** X1.  The results of [add], [sub], [mul], [neg] and [embed] are field
    elements, whatever integers they are given. *)
Theorem field_closure (a b : Z) :
  Field.is_valid (Field.add a b) = true /\
  Field.is_valid (Field.sub a b) = true /\
  Field.is_valid (Field.mul a b) = true /\
  Field.is_valid (Field.neg a) = true /\
  Field.is_valid (Field.embed a) = true.
Proof. repeat split; apply mod_valid. Qed.

(** X2.  For an argument that is not a multiple of the modulus, [inv]
    returns a field element whose product with the argument is [1]. *)
Theorem inv_is_inverse (a : Z) :
  a mod Field.MODULUS <> 0 ->
  exists a',
    Field.inv a = Some a' /\
    Field.is_valid a' = true /\
    Field.mul a a' = 1 /\ Field.mul a' a = 1.
Proof.
  intros Ha.
  destruct (inv_correct a) as (a' & Hinv & Hmul).
  { intros H. apply Ha. rewrite H. apply mod_0_M. }
  exists a'. split; [exact Hinv|]. split.
  - unfold Field.inv in Hinv. destruct (a =? 0); [discriminate|].
    injection Hinv as <-. apply mod_valid.
  - unfold Field.mul. rewrite (Z.mul_comm a' a).
    rewrite Hmul. split; apply mod_1_M.
Qed.

Lemma inv_is_inverse_witness :
  exists a',
    Field.inv 7 = Some a' /\
    Field.is_valid a' = true /\
    Field.mul 7 a' = 1 /\ Field.mul a' 7 = 1.
Proof. apply (inv_is_inverse 7). vm_compute. discriminate. Defined.

(** X3.  [inv] raises for the integer [0] only.  A non-zero multiple of
    the modulus, which is zero in the field, is not rejected: the result
    is [0]. *)
Theorem inv_of_zero_class (a : Z) :
  a mod Field.MODULUS = 0 ->
  (a = 0 -> Field.inv a = None) /\
  (a <> 0 -> Field.inv a = Some 0).
Proof.
  intros Hmod. unfold Field.inv. split.
  - intros ->. reflexivity.
  - intros Hne. destruct (Z.eqb_spec a 0) as [E|_]; [contradiction|].
    f_equal.
    replace (Field.MODULUS - 2) with (Z.succ (Field.MODULUS - 3)) by lia.
    rewrite Z.pow_succ_r by (pose proof MODULUS_value; lia).
    rewrite Z.mul_mod, Hmod, Z.mul_0_l by (pose proof MODULUS_pos; lia).
    apply mod_0_M.
Qed.

Lemma inv_of_zero_class_witness :
  (2147483647 = 0 -> Field.inv 2147483647 = None) /\
  (2147483647 <> 0 -> Field.inv 2147483647 = Some 0).
Proof. apply (inv_of_zero_class 2147483647). vm_compute. reflexivity. Defined.

(** X4.  Division undoes multiplication: for a divisor that is not a
    multiple of the modulus, [div(mul(a, b), b)] is [a] reduced into the
    field; for the divisor [0] it raises. *)
Theorem div_mul_round_trip (a b : Z) :
  b mod Field.MODULUS <> 0 ->
  Field.div (Field.mul a b) b = Some (Field.embed a) /\
  Field.div a 0 = None.
Proof.
  intros Hb. split; [|reflexivity].
  destruct (inv_correct b) as (b' & Hinv & Hmul).
  { intros H. apply Hb. rewrite H. apply mod_0_M. }
  unfold Field.div. rewrite Hinv. f_equal.
  unfold Field.embed. apply eqp_mod_eq.
  rewrite mul_eqp.
  replace (a * b * b') with (a * (b * b')) by ring.
  rewrite Hmul. eqp_ring.
Qed.

Lemma div_mul_round_trip_witness :
  Field.div (Field.mul 5 3) 3 = Some (Field.embed 5) /\
  Field.div 5 0 = None.
Proof. apply (div_mul_round_trip 5 3). vm_compute. discriminate. Defined.

(** ** Polynomials *)

Lemma pop_zeros_head r :
  (1 < length (Polynomial.pop_zeros r))%nat ->
  hd 0 (Polynomial.pop_zeros r) <> 0.
Proof.
  induction r as [|c rest IH]; [simpl; lia|].
  destruct rest as [|c' rest']; [simpl; lia|].
  change (Polynomial.pop_zeros (c :: c' :: rest'))
    with (if c =? 0 then Polynomial.pop_zeros (c' :: rest')
          else c :: c' :: rest').
  destruct (Z.eqb_spec c 0) as [->|Hc]; [exact IH|].
  intros _. exact Hc.
Qed.

Lemma pop_zeros_incl r x :
  List.In x (Polynomial.pop_zeros r) -> List.In x r.
Proof.
  induction r as [|c rest IH]; [auto|].
  destruct rest as [|c' rest']; [auto|].
  change (Polynomial.pop_zeros (c :: c' :: rest'))
    with (if c =? 0 then Polynomial.pop_zeros (c' :: rest')
          else c :: c' :: rest').
  destruct (c =? 0); [|auto]. intros H. right. now apply IH.
Qed.

Lemma pop_zeros_idem r :
  Polynomial.pop_zeros (Polynomial.pop_zeros r) = Polynomial.pop_zeros r.
Proof.
  induction r as [|c rest IH]; [reflexivity|].
  destruct rest as [|c' rest']; [reflexivity|].
  change (Polynomial.pop_zeros (c :: c' :: rest'))
    with (if c =? 0 then Polynomial.pop_zeros (c' :: rest')
          else c :: c' :: rest').
  destruct (Z.eqb_spec c 0) as [->|Hc]; [exact IH|].
  change (Polynomial.pop_zeros (c :: c' :: rest'))
    with (if c =? 0 then Polynomial.pop_zeros (c' :: rest')
          else c :: c' :: rest').
  destruct (Z.eqb_spec c 0); [contradiction|reflexivity].
Qed.

Lemma new_coeffs_valid l :
  Forall (fun c => Field.is_valid c = true) (coeffs (Polynomial.new l)).
Proof.
  apply Forall_forall. intros c Hc. apply list_elem_of_In in Hc.
  unfold Polynomial.new in Hc. cbn [coeffs] in Hc.
  apply (proj2 (List.in_rev _ _)), pop_zeros_incl in Hc.
  apply (proj2 (List.in_rev _ _)) in Hc.
  apply List.in_map_iff in Hc as (c0 & <- & _). apply mod_valid.
Qed.

Lemma map_embed_valid l :
  Forall (fun c => Field.is_valid c = true) l -> map Field.embed l = l.
Proof.
  induction 1 as [|c l Hc _ IH]; [reflexivity|].
  simpl. rewrite IH. f_equal. now apply valid_mod.
Qed.

(** X5.  The constructor normalises: every stored coefficient is a field
    element, a non-empty input gives a non-empty list, the last
    coefficient is non-zero unless the list has a single element, and
    building a polynomial from stored coefficients changes nothing. *)
Theorem constructor_normal_form (l : list Z) :
  let cs := coeffs (Polynomial.new l) in
  Forall (fun c => Field.is_valid c = true) cs /\
  (l <> [] -> cs <> []) /\
  (length cs <= length l)%nat /\
  ((1 < length cs)%nat -> List.last cs 0 <> 0) /\
  Polynomial.new cs = Polynomial.new l.
Proof.
  cbn zeta. split; [apply new_coeffs_valid|].
  split; [apply new_nonempty|]. split; [apply new_length|]. split.
  - unfold Polynomial.new. cbn [coeffs]. rewrite length_rev. intros Hlen.
    pose proof (pop_zeros_head _ Hlen) as Hhd.
    destruct (Polynomial.pop_zeros (rev (map Field.embed l)))
      as [|c r]; [simpl in Hlen; lia|].
    cbn [rev hd] in *. now rewrite List.last_last.
  - rewrite <- (map_embed_valid (coeffs (Polynomial.new l)))
      by apply new_coeffs_valid.
    unfold Polynomial.new at 1. f_equal.
    rewrite (map_embed_valid (coeffs (Polynomial.new l)))
      by apply new_coeffs_valid.
    rewrite (map_embed_valid (coeffs (Polynomial.new l)))
      by apply new_coeffs_valid.
    unfold Polynomial.new. cbn [coeffs].
    now rewrite rev_involutive, pop_zeros_idem.
Qed.

Example constructor_strips_zeros :
  coeffs (Polynomial.new [1; 2; 0; 0]) = [1; 2] /\
  coeffs (Polynomial.new [0; 0; 0]) = [0] /\
  coeffs (Polynomial.new []) = [].
Proof. repeat split; vm_compute; reflexivity. Qed.

(** X6.  Evaluation turns the polynomial operations into the field
    operations: [(p + q)(x) = p(x) + q(x)], [(p * q)(x) = p(x) * q(x)] and
    [(p * k)(x) = p(x) * k], at every integer point. *)
Theorem eval_homomorphism (p q : Polynomial) (k x : Z) :
  Polynomial.eval (Polynomial.add p q) x
  = Field.add (Polynomial.eval p x) (Polynomial.eval q x) /\
  Polynomial.eval (Polynomial.mul p q) x
  = Field.mul (Polynomial.eval p x) (Polynomial.eval q x) /\
  Polynomial.eval (Polynomial.mul_scalar p k) x
  = Field.mul (Polynomial.eval p x) k.
Proof.
  rewrite !eval_ev. unfold Field.add, Field.mul. repeat split;
    apply eqp_mod_eq.
  - rewrite add_ev, !mod_eqp. reflexivity.
  - rewrite mul_ev, !mod_eqp. reflexivity.
  - rewrite mul_scalar_ev, !mod_eqp. eqp_ring.
Qed.

(** The value of a polynomial object does not change when it is rebuilt
    from its coefficient list, as a receiver of the list does. *)
Lemma eval_rebuilt p x :
  Polynomial.eval (Polynomial.new (coeffs p)) x = Polynomial.eval p x.
Proof. rewrite !eval_ev. apply eqp_mod_eq, new_ev. Qed.

Lemma points_distinct (points : list (Z * Z)) :
  List.NoDup (map (fun pt => fst pt mod Field.MODULUS) points) ->
  forall i j, (i < length points)%nat -> (j < length points)%nat -> i <> j ->
    ~ fst (nth i points (0, 0)) - fst (nth j points (0, 0)) ≡p 0.
Proof.
  intros Hnd i j Hi Hj Hij H. apply eqp_sub_zero in H. apply Hij.
  apply (proj1 (List.NoDup_nth _ (fst (0, 0) mod Field.MODULUS)) Hnd);
    rewrite ?length_map; auto.
  rewrite !(map_nth (fun pt => fst pt mod Field.MODULUS)). exact H.
Qed.

(** X7.  When the x-coordinates are pairwise distinct modulo the modulus,
    [interpolate] returns a polynomial with at most [len(points)]
    coefficients that takes the value [y] (reduced into the field) at
    every given [(x, y)]. *)
Theorem interpolate_through_points (points : list (Z * Z)) :
  List.NoDup (map (fun pt => fst pt mod Field.MODULUS) points) ->
  exists r,
    Polynomial.interpolate points = Some r /\
    (length (coeffs r) <= Nat.max 1 (length points))%nat /\
    forall x y, List.In (x, y) points ->
      Polynomial.eval r x = Field.embed y.
Proof.
  intros Hnd.
  destruct (interpolate_spec points (points_distinct points Hnd))
    as (r & Hr & Hlen & Hev).
  exists r. split; [exact Hr|]. split; [exact Hlen|].
  intros x y Hin. apply (List.In_nth _ _ (0, 0)) in Hin as (k & Hk & E).
  specialize (Hev k Hk). rewrite E in Hev. cbn [fst snd] in Hev.
  rewrite eval_ev. unfold Field.embed. now apply eqp_mod_eq.
Qed.

Lemma interpolate_through_points_witness :
  exists r,
    Polynomial.interpolate [(1, 10); (2, 17); (3, 28)] = Some r /\
    (length (coeffs r) <= Nat.max 1 (length [(1, 10); (2, 17); (3, 28)]))%nat /\
    forall x y, List.In (x, y) [(1, 10); (2, 17); (3, 28)] ->
      Polynomial.eval r x = Field.embed y.
Proof.
  apply (interpolate_through_points [(1, 10); (2, 17); (3, 28)]).
  vm_compute. repeat constructor; simpl; intuition discriminate.
Defined.

Lemma basis_fold_none points i xi : forall js,
  fold_left (Polynomial.basis_step points i xi) js None = None.
Proof.
  induction js as [|j js IH]; [reflexivity|].
  cbn [fold_left]. unfold Polynomial.basis_step at 2.
  destruct (i =? j)%nat; exact IH.
Qed.

Lemma basis_fold_duplicate points i j :
  i <> j ->
  fst (nth i points (0, 0)) mod Field.MODULUS
  = fst (nth j points (0, 0)) mod Field.MODULUS ->
  forall js acc, List.In j js ->
    fold_left (Polynomial.basis_step points i (fst (nth i points (0, 0))))
              js acc = None.
Proof.
  intros Hij Hx. induction js as [|j' js IH]; intros acc Hin; [destruct Hin|].
  cbn [fold_left]. destruct Hin as [->|Hin]; [|now apply IH].
  assert (E : Polynomial.basis_step points i (fst (nth i points (0, 0)))
                acc j = None).
  { unfold Polynomial.basis_step.
    destruct (Nat.eqb_spec i j) as [|_]; [contradiction|].
    destruct acc as [b|]; [|reflexivity].
    assert (Hz : Field.sub (fst (nth i points (0, 0)))
                           (fst (nth j points (0, 0))) = 0).
    { unfold Field.sub. rewrite Zminus_mod, Hx, Z.sub_diag. apply mod_0_M. }
    rewrite Hz. reflexivity. }
  rewrite E. apply basis_fold_none.
Qed.

Lemma interpolate_fold_none points : forall idxs,
  fold_left (Polynomial.interpolate_step points) idxs None = None.
Proof. induction idxs as [|i idxs IH]; [reflexivity|exact IH]. Qed.

(** X8.  Two points whose x-coordinates coincide modulo the modulus make
    [interpolate] raise (the zero denominator is rejected by [inv]). *)
Theorem interpolate_duplicate_raises (points : list (Z * Z)) (i j : nat) :
  (i < length points)%nat -> (j < length points)%nat -> i <> j ->
  fst (nth i points (0, 0)) mod Field.MODULUS
  = fst (nth j points (0, 0)) mod Field.MODULUS ->
  Polynomial.interpolate points = None.
Proof.
  intros Hi Hj Hij Hx. unfold Polynomial.interpolate.
  assert (H : forall idxs acc, List.In i idxs ->
    fold_left (Polynomial.interpolate_step points) idxs acc = None).
  { induction idxs as [|i' idxs IH]; intros acc Hin; [destruct Hin|].
    cbn [fold_left]. destruct Hin as [->|Hin]; [|now apply IH].
    assert (E : Polynomial.interpolate_step points acc i = None).
    { unfold Polynomial.interpolate_step.
      destruct acc as [res|]; [|reflexivity].
      pose proof (basis_fold_duplicate points i j Hij Hx
                    (seq 0 (length points)) (Some (Polynomial.new [1])))
        as HB.
      unfold Polynomial.basis_poly.
      destruct (nth i points (0, 0)) as [xi yi]. cbn [fst] in HB.
      rewrite HB; [reflexivity|]. apply List.in_seq. lia. }
    rewrite E. apply interpolate_fold_none. }
  apply H. apply List.in_seq. lia.
Qed.

Lemma interpolate_duplicate_raises_witness :
  Polynomial.interpolate [(1, 5); (2, 6); (1, 7)] = None.
Proof.
  apply (interpolate_duplicate_raises [(1, 5); (2, 6); (1, 7)] 0 2);
    [simpl; lia | simpl; lia | lia | reflexivity].
Defined.

(** ** Lagrange coefficients and interpolation *)

Section LagrangeWeights.

Variable points : list (Z * Z).
Variable x0 : Z.

Let X (j : nat) : Z := fst (nth j points (0, 0)).
Let Y (j : nat) : Z := snd (nth j points (0, 0)).

(** The value at [x0] of the basis polynomial that [interpolate] builds
    for position [i]. *)
Let bval (i : nat) : Z :=
  match Polynomial.basis_poly points i (X i) with
  | Some b => ev (coeffs b) x0
  | None => 0
  end.

Hypothesis distinct : forall i j,
  (i < length points)%nat -> (j < length points)%nat -> i <> j ->
  ~ X i - X j ≡p 0.

(** The basis polynomial and the Lagrange coefficient are built by the
    same factors. *)
Lemma basis_lagrange_fold i : forall (xs' : list Z) s b c,
  (forall t, (t < length xs')%nat -> X (s + t) = nth t xs' 0) ->
  (forall t, (t < length xs')%nat -> (s + t)%nat <> i ->
             ~ X i - X (s + t) ≡p 0) ->
  ev (coeffs b) x0 ≡p c ->
  exists b' c',
    fold_left (Polynomial.basis_step points i (X i))
              (seq s (length xs')) (Some b) = Some b' /\
    fold_left (Polynomial.lagrange_step i (X i) x0)
              (combine (seq s (length xs')) xs') (Some c) = Some c' /\
    ev (coeffs b') x0 ≡p c'.
Proof using Type.
  induction xs' as [|xj xs' IH]; intros s b c HX Hd Hbc.
  - exists b, c. simpl. auto.
  - cbn [length seq combine fold_left].
    assert (Hxj : X s = xj).
    { specialize (HX 0%nat ltac:(simpl; lia)). now rewrite Nat.add_0_r in HX. }
    assert (HX' : forall t, (t < length xs')%nat -> X (S s + t) = nth t xs' 0).
    { intros t Ht. specialize (HX (S t) ltac:(simpl; lia)).
      now replace (s + S t)%nat with (S s + t)%nat in HX by lia. }
    assert (Hd' : forall t, (t < length xs')%nat -> (S s + t)%nat <> i ->
                            ~ X i - X (S s + t) ≡p 0).
    { intros t Ht Hne. specialize (Hd (S t) ltac:(simpl; lia)).
      replace (s + S t)%nat with (S s + t)%nat in Hd by lia. now apply Hd. }
    unfold Polynomial.basis_step at 2. unfold Polynomial.lagrange_step at 2.
    destruct (Nat.eqb_spec i s) as [->|Hne].
    + apply IH; assumption.
    + fold (X s).
      assert (Hds : ~ X i - X s ≡p 0).
      { specialize (Hd 0%nat ltac:(simpl; lia)).
        rewrite Nat.add_0_r in Hd. apply Hd. congruence. }
      destruct (inv_correct (Field.sub (X i) (X s))) as (dinv & Hinv & Hdinv).
      { now rewrite sub_eqp. }
      unfold Field.div. rewrite <- Hxj, Hinv.
      apply IH; [assumption|assumption|].
      rewrite mul_scalar_ev, mul_ev, new_ev. cbn [ev].
      rewrite neg_eqp, !mul_eqp, sub_eqp, Hbc. eqp_ring.
Qed.

Lemma lagrange_is_basis_value i : (i < length points)%nat ->
  exists c,
    Polynomial.lagrange_coefficient i (map fst points) x0 = Some c /\
    c ≡p bval i.
Proof using distinct.
  intros Hi.
  assert (HX : forall t, X t = nth t (map fst points) 0).
  { intros t. exact (eq_sym (map_nth fst points (0, 0) t)). }
  destruct (basis_lagrange_fold i (map fst points) 0 (Polynomial.new [1]) 1)
    as (b & c & Hb & Hc & Hbc).
  - intros t _. apply HX.
  - intros t Ht Hne. rewrite length_map in Ht.
    apply distinct; simpl in *; [exact Hi|lia|congruence].
  - rewrite new_ev. simpl. eqp_ring.
  - exists c. split.
    + unfold Polynomial.lagrange_coefficient, enumerate.
      assert (Hl : map fst points !! i = Some (X i)).
      { destruct (lookup_lt_is_Some_2 (map fst points) i) as [x Hx];
          [now rewrite length_map|].
        rewrite Hx, HX. f_equal. symmetry.
        now apply nth_lookup_Some. }
      rewrite Hl. exact Hc.
    + unfold bval, Polynomial.basis_poly.
      rewrite length_map in Hb. rewrite Hb. symmetry. exact Hbc.
Qed.

(** The value of the interpolating polynomial at [x0] is the sum of the
    [y] weighted by the basis values. *)
Lemma interpolate_fold_value : forall idxs res0,
  (forall i, List.In i idxs -> (i < length points)%nat) ->
  exists res,
    fold_left (Polynomial.interpolate_step points) idxs (Some res0)
    = Some res /\
    ev (coeffs res) x0
    ≡p ev (coeffs res0) x0 + sumZ (fun i => Y i * bval i) idxs.
Proof using distinct.
  induction idxs as [|i idxs IH]; intros res0 Hin.
  - exists res0. simpl. split; [reflexivity|eqp_ring].
  - cbn [fold_left sumZ].
    assert (Hi : (i < length points)%nat) by (apply Hin; now left).
    destruct (basis_poly_spec points distinct i Hi) as (basis & Hb & _).
    unfold Polynomial.interpolate_step at 2.
    assert (Hbv : bval i = ev (coeffs basis) x0).
    { unfold bval. fold (X i) in Hb. now rewrite Hb. }
    unfold X in Hb. unfold Y in *.
    destruct (nth i points (0, 0)) as [xi yi]. cbn [fst snd] in *.
    rewrite Hb.
    destruct (IH (Polynomial.add res0 (Polynomial.mul_scalar basis yi)))
      as (res & Hf & Hev).
    { intros j Hj. apply Hin. now right. }
    exists res. split; [exact Hf|].
    rewrite Hev, add_ev, mul_scalar_ev, Hbv. eqp_ring.
Qed.

End LagrangeWeights.

Lemma index_of_position : forall (l pre : list Z) (q : Z),
  ~ List.In q pre ->
  index_of q (pre ++ q :: l) = Some (length pre).
Proof.
  intros l pre. revert l. induction pre as [|y pre IH]; intros l q Hnot.
  - simpl. now rewrite Z.eqb_refl.
  - cbn [app index_of length].
    destruct (Z.eqb_spec y q) as [->|Hne]; [destruct Hnot; now left|].
    rewrite IH; [reflexivity|]. intros H. apply Hnot. now right.
Qed.

Lemma points_of_spec shares (d : Z -> Z) : forall parties,
  (forall q, List.In q parties -> shares !! q = Some (d q)) ->
  MPCParty.points_of shares parties = Some (map (fun q => (q, d q)) parties).
Proof.
  induction parties as [|q rest IH]; intros H; [reflexivity|].
  cbn [MPCParty.points_of map]. rewrite (H q (or_introl eq_refl)).
  rewrite IH; [reflexivity|]. intros q' Hq'. apply H. now right.
Qed.

(** X9.  The degree-reduction loop of [multiply_shared] computes the value
    at the party's own id of the polynomial that [interpolate] builds
    through the selected points [(p, collected_shares[p])], provided the
    selected ids are pairwise distinct modulo the modulus. *)
Theorem degree_reduction_is_interpolation (my_id : Z) (parties : list Z)
    (collected_shares : gmap Z Z) (d : Z -> Z) :
  List.NoDup (map (fun q => q mod Field.MODULUS) parties) ->
  (forall q, List.In q parties -> collected_shares !! q = Some (d q)) ->
  exists r,
    Polynomial.interpolate (map (fun q => (q, d q)) parties) = Some r /\
    MPCParty.degree_reduction my_id parties collected_shares
    = Some (Polynomial.eval r my_id).
Proof.
  intros Hnd Hd.
  set (points := map (fun q => (q, d q)) parties).
  assert (Hfst : map fst points = parties).
  { unfold points. rewrite map_map. simpl. apply map_id. }
  assert (Hlen : length points = length parties)
    by (unfold points; apply length_map).
  assert (Hdist : forall i j,
    (i < length points)%nat -> (j < length points)%nat -> i <> j ->
    ~ fst (nth i points (0, 0)) - fst (nth j points (0, 0)) ≡p 0).
  { apply points_distinct. unfold points. rewrite map_map. exact Hnd. }
  assert (Hnd' : List.NoDup parties).
  { apply (List.NoDup_map_inv (fun q => q mod Field.MODULUS)). exact Hnd. }
  destruct (interpolate_fold_value points my_id Hdist
              (seq 0 (length points)) (Polynomial.new [0]))
    as (r & Hr & Hrv).
  { intros i Hi. apply List.in_seq in Hi. lia. }
  exists r. split; [exact Hr|].
  (* the loop, started anywhere in the list *)
  set (W := fun i : nat =>
              snd (nth i points (0, 0))
              * match Polynomial.basis_poly points i
                        (fst (nth i points (0, 0))) with
                | Some b => ev (coeffs b) my_id
                | None => 0
                end) in *.
  assert (Hloop : forall l pre acc,
    parties = pre ++ l -> acc mod Field.MODULUS = acc ->
    exists s,
      fold_left
        (fun my_new_share q =>
           match my_new_share, index_of q parties, collected_shares !! q with
           | Some s, Some i, Some d0 =>
               match Polynomial.lagrange_coefficient i parties my_id with
               | Some coeff => Some (Field.add s (Field.mul coeff d0))
               | None => None
               end
           | _, _, _ => None
           end) l (Some acc) = Some s /\
      s mod Field.MODULUS = s /\
      s ≡p acc + sumZ W (seq (length pre) (length l))).
  { induction l as [|q l IH]; intros pre acc Hsplit Hacc.
    - exists acc. simpl. repeat split; auto. eqp_ring.
    - cbn [fold_left length seq sumZ].
      assert (Hq : ~ List.In q pre).
      { rewrite Hsplit in Hnd'. apply List.NoDup_remove_2 in Hnd'.
        intros H. apply Hnd'. apply List.in_or_app. now left. }
      assert (Hidx : index_of q parties = Some (length pre))
        by (rewrite Hsplit; now apply index_of_position).
      assert (Hdq : collected_shares !! q = Some (d q)).
      { apply Hd. rewrite Hsplit. apply List.in_or_app. right. now left. }
      rewrite Hidx, Hdq.
      assert (Hi : (length pre < length points)%nat).
      { rewrite Hlen, Hsplit, length_app. simpl. lia. }
      destruct (lagrange_is_basis_value points my_id Hdist (length pre) Hi)
        as (c & Hc & Hcv).
      rewrite Hfst in Hc. rewrite Hc.
      destruct (IH (pre ++ [q]) (Field.add acc (Field.mul c (d q))))
        as (s & Hs & Hsm & Hsv).
      { rewrite Hsplit, <- app_assoc. reflexivity. }
      { unfold Field.add. apply Z.mod_mod. pose proof MODULUS_pos; lia. }
      exists s. split; [exact Hs|]. split; [exact Hsm|].
      rewrite Hsv, length_app, add_eqp, mul_eqp, Hcv.
      replace (length pre + length [q])%nat with (S (length pre))
        by (simpl; lia).
      assert (HW : W (length pre)
                   = d q * match Polynomial.basis_poly points (length pre)
                                   (fst (nth (length pre) points (0, 0))) with
                           | Some b => ev (coeffs b) my_id
                           | None => 0
                           end).
      { unfold W. f_equal. unfold points.
        rewrite (nth_indep _ _ ((fun q0 => (q0, d q0)) 0))
          by (rewrite length_map, Hsplit, length_app; simpl; lia).
        rewrite (map_nth (fun q0 => (q0, d q0))). cbn [snd]. f_equal.
        rewrite Hsplit, app_nth2, Nat.sub_diag by lia. reflexivity. }
      rewrite HW. eqp_ring. }
  destruct (Hloop parties [] 0 eq_refl mod_0_M) as (s & Hs & Hsm & Hsv).
  unfold MPCParty.degree_reduction. rewrite Hs. f_equal.
  rewrite <- Hsm, eval_ev. apply eqp_mod_eq.
  rewrite Hsv, Hrv, new_ev. cbn [length ev]. rewrite Hlen.
  unfold W. eqp_ring.
Qed.

Lemma degree_reduction_is_interpolation_witness :
  exists r,
    Polynomial.interpolate
      (map (fun q => (q, if q =? 0 then 5 else 7)) [0; 1]) = Some r /\
    MPCParty.degree_reduction 2 [0; 1] (<[0 := 5]> (<[1 := 7]> ∅))
    = Some (Polynomial.eval r 2).
Proof.
  apply (degree_reduction_is_interpolation 2 [0; 1]
           (<[0 := 5]> (<[1 := 7]> ∅)) (fun q => if q =? 0 then 5 else 7)).
  - vm_compute. repeat constructor; simpl; intuition discriminate.
  - intros q [<-|[<-|[]]]; reflexivity.
Defined.

(** ** Reconstruction from shares *)

(** Samples of a polynomial with at most as many coefficients as there are
    sample points determine it. *)
Lemma interpolate_samples_le (q : Polynomial) (xs : list Z) :
  (length (coeffs q) <= length xs)%nat ->
  List.NoDup (map (fun x => x mod Field.MODULUS) xs) ->
  exists r,
    Polynomial.interpolate (map (fun x => (x, Polynomial.eval q x)) xs)
    = Some r /\
    forall x, Polynomial.eval r x = Polynomial.eval q x.
Proof.
  intros Hlen Hnd.
  set (points := map (fun x => (x, Polynomial.eval q x)) xs).
  assert (Hpl : length points = length xs) by (unfold points; apply length_map).
  assert (Hnd' : List.NoDup (map (fun pt => fst pt mod Field.MODULUS) points)).
  { unfold points. rewrite map_map. exact Hnd. }
  destruct (interpolate_spec points (points_distinct points Hnd'))
    as (r & Hr & Hrl & Hrv).
  exists r. split; [exact Hr|].
  intros x. rewrite !eval_ev. apply eqp_mod_eq.
  destruct (Nat.eq_dec (length xs) 0%nat) as [E|E].
  - destruct xs; [|discriminate].
    simpl in Hlen. destruct (coeffs q) eqn:Eq; [|simpl in Hlen; lia].
    unfold Polynomial.interpolate in Hr. simpl in Hr.
    injection Hr as <-. rewrite new_ev. simpl. eqp_ring.
  - apply (agree_everywhere xs); [exact Hnd| |exact Hlen|].
    + rewrite Hpl in Hrl. lia.
    + intros a Ha. apply (List.In_nth _ _ 0) in Ha as (k & Hk & <-).
      specialize (Hrv k ltac:(now rewrite Hpl)).
      unfold points in Hrv.
      rewrite (nth_indep _ _ ((fun x => (x, Polynomial.eval q x)) 0)) in Hrv
        by (now rewrite length_map).
      rewrite (map_nth (fun x => (x, Polynomial.eval q x))) in Hrv.
      cbn [fst snd] in Hrv. rewrite Hrv. apply eval_eqp.
Qed.

Lemma sorted_keys_spec {V} (d : gmap Z V) :
  List.NoDup (sorted_keys d) /\
  length (sorted_keys d) = size d /\
  forall k, List.In k (sorted_keys d) <-> is_Some (d !! k).
Proof.
  unfold sorted_keys.
  pose proof (merge_sort_Permutation Z.le (elements (dom d))) as Hperm.
  split; [|split].
  - apply NoDup_ListNoDup. rewrite Hperm. apply NoDup_elements.
  - rewrite Hperm. rewrite <- size_dom. reflexivity.
  - intros k. rewrite <- list_elem_of_In, Hperm, elem_of_elements.
    apply elem_of_dom.
Qed.

Lemma first_parties_spec {V} (d : gmap Z V) (f : Z) :
  0 <= f + 1 <= Z.of_nat (size d) ->
  let parties := slice_to (f + 1) (sorted_keys d) in
  List.NoDup parties /\
  Z.of_nat (length parties) = f + 1 /\
  forall k, List.In k parties -> is_Some (d !! k).
Proof.
  intros Hf. cbn zeta. unfold slice_to.
  destruct (Z.leb_spec 0 (f + 1)) as [_|]; [|lia].
  destruct (sorted_keys_spec d) as (Hnd & Hlen & Hin).
  split; [|split].
  - apply NoDup_ListNoDup.
    apply (sublist_NoDup _ (sorted_keys d));
      [now apply NoDup_ListNoDup | apply sublist_take].
  - rewrite length_take_le; lia.
  - intros k Hk. apply Hin. apply list_elem_of_In.
    apply list_elem_of_In in Hk.
    apply elem_of_take in Hk as (i & Hi & _).
    apply list_elem_of_lookup. now exists i.
Qed.

(** X10.  If every collected share is the value, at a party id that is a
    field element, of one polynomial [q] with at most [f + 1]
    coefficients, and at least [f + 1] shares are collected, then
    [reconstruct] returns [q(0)]. *)
Theorem reconstruct_recovers (p : MPCParty.t) (shares : gmap Z Z)
    (q : Polynomial) :
  Z.of_nat (length (coeffs q)) <= MPCParty.f p + 1 ->
  MPCParty.f p + 1 <= Z.of_nat (size shares) ->
  (forall k s, shares !! k = Some s ->
     Field.is_valid k = true /\ s = Polynomial.eval q k) ->
  MPCParty.reconstruct_finish shares p = Some (Polynomial.eval q 0).
Proof.
  intros Hq Hsize Hshares.
  destruct (first_parties_spec shares (MPCParty.f p)) as (Hnd & Hlen & Hin);
    [lia|].
  unfold MPCParty.reconstruct_finish.
  set (parties := slice_to (MPCParty.f p + 1) (sorted_keys shares)) in *.
  rewrite (points_of_spec shares (Polynomial.eval q) parties).
  - destruct (interpolate_samples_le q parties) as (r & Hr & Hrv); [lia| |].
    + rewrite valid_mod_id; [exact Hnd|].
      apply Forall_forall. intros k Hk. apply list_elem_of_In in Hk.
      destruct (Hin k Hk) as [s Hs]. now destruct (Hshares k s Hs).
    + rewrite Hr. f_equal. apply Hrv.
  - intros k Hk. destruct (Hin k Hk) as [s Hs].
    destruct (Hshares k s Hs) as [_ ->]. exact Hs.
Qed.

Lemma reconstruct_recovers_witness :
  MPCParty.reconstruct_finish
    (<[1 := 8]> (<[2 := 11]> (<[3 := 14]> ∅))) (MPCParty.new 0 4 1)
  = Some (Polynomial.eval (Polynomial.new [5; 3]) 0).
Proof.
  apply (reconstruct_recovers (MPCParty.new 0 4 1)
           (<[1 := 8]> (<[2 := 11]> (<[3 := 14]> ∅)))
           (Polynomial.new [5; 3])).
  - vm_compute. discriminate.
  - vm_compute. discriminate.
  - intros k s Hk.
    destruct (decide (k = 1)) as [->|H1];
      [rewrite lookup_insert_eq in Hk; injection Hk as <-;
       split; vm_compute; reflexivity|].
    rewrite lookup_insert_ne in Hk by congruence.
    destruct (decide (k = 2)) as [->|H2];
      [rewrite lookup_insert_eq in Hk; injection Hk as <-;
       split; vm_compute; reflexivity|].
    rewrite lookup_insert_ne in Hk by congruence.
    destruct (decide (k = 3)) as [->|H3];
      [rewrite lookup_insert_eq in Hk; injection Hk as <-;
       split; vm_compute; reflexivity|].
    rewrite lookup_insert_ne in Hk by congruence.
    rewrite lookup_empty in Hk. discriminate.
Defined.

(** ** Sharing a secret with a bivariate polynomial *)

Lemma line_inner_length items i_pow key j : forall ks acc cs',
  line_inner items i_pow key j ks acc = Some cs' ->
  exists cs, acc = Some cs /\ length cs' = length cs.
Proof.
  unfold line_inner. induction ks as [|k ks IH]; intros acc cs' H.
  - exists cs'. simpl in H. auto.
  - cbn [fold_left] in H. apply IH in H as (cs1 & Hstep & Hlen).
    destruct acc as [cs|]; [|discriminate].
    destruct (BiVariatePolynomial.getitem items (key j k)); [|discriminate].
    destruct (i_pow !! k); [|discriminate].
    injection Hstep as <-. exists cs. split; [reflexivity|].
    now rewrite Hlen, length_insert.
Qed.

Lemma line_outer_length items i_pow key ks : forall js acc cs',
  line_outer items i_pow key js ks acc = Some cs' ->
  exists cs, acc = Some cs /\ length cs' = length cs.
Proof.
  unfold line_outer. induction js as [|j js IH]; intros acc cs' H.
  - exists cs'. simpl in H. auto.
  - cbn [fold_left] in H. apply IH in H as (cs1 & Hstep & Hlen).
    apply line_inner_length in Hstep as (cs & -> & Hlen1).
    exists cs. split; [reflexivity|congruence].
Qed.

Lemma row_polynomial_length p i r :
  BiVariatePolynomial.row_polynomial p i = Some r ->
  (length (coeffs r) <= Z.to_nat (bv_degree p + 1))%nat.
Proof.
  unfold BiVariatePolynomial.row_polynomial.
  set (n := Z.to_nat (bv_degree p + 1)).
  destruct (fold_left _ (seq 0 n) (Some (repeat 0 n))) as [cs|] eqn:E;
    [|discriminate].
  intros H. injection H as <-.
  change (line_outer (bv_coeffs p) (BiVariatePolynomial.powers p i)
            (fun j k => (Z.of_nat k, Z.of_nat j)) (seq 0 n) (seq 0 n)
            (Some (repeat 0 n)) = Some cs) in E.
  apply line_outer_length in E as (cs0 & E0 & Hlen).
  injection E0 as <-. rewrite repeat_length in Hlen.
  etransitivity; [apply new_length|]. lia.
Qed.

Lemma sumZ_all_zero {A} (G : A -> Z) l :
  (forall a, List.In a l -> G a = 0) -> sumZ G l = 0.
Proof.
  induction l as [|a l IH]; intros H; [reflexivity|].
  simpl. rewrite (H a (or_introl eq_refl)), IH; [reflexivity|].
  intros b Hb. apply H. now right.
Qed.

Lemma sumZ_only_zero (G : nat -> Z) n :
  (forall a, a <> 0%nat -> G a = 0) -> sumZ G (seq 0 (S n)) = G 0%nat.
Proof.
  intros H. cbn [seq sumZ]. rewrite sumZ_all_zero; [lia|].
  intros a Ha. apply List.in_seq in Ha. apply H. lia.
Qed.

Lemma pw_zero n : n <> 0%nat -> pw 0 n = 0.
Proof. destruct n; [congruence|reflexivity]. Qed.

Lemma secret_origin_value (degree secret : Z) (rnd : Z -> Z -> Z) :
  0 <= degree ->
  BiVariatePolynomial.eval
    (BiVariatePolynomial.new degree (Some secret) rnd) 0 0
  = Field.embed secret.
Proof.
  intros Hd. rewrite eval_target.
  destruct (Z.to_nat (degree + 1)) as [|m] eqn:Em; [lia|].
  rewrite sumZ_only_zero.
  - rewrite sumZ_only_zero.
    + simpl. unfold Field.embed.
      rewrite Z.mul_1_r. apply Z.mod_mod. pose proof MODULUS_pos; lia.
    + intros b Hb. rewrite (pw_zero b Hb). ring.
  - intros a Ha. apply sumZ_all_zero. intros b _.
    rewrite (pw_zero a Ha). ring.
Qed.

(** X11.  In the polynomial that the dealer builds for a secret, the
    secret sits at the origin: [eval(0, 0)] and [get_secret()] give the
    secret reduced into the field, whatever the random coefficients
    are. *)
Theorem secret_at_origin (degree secret : Z) (rnd : Z -> Z -> Z) :
  0 <= degree ->
  let p := BiVariatePolynomial.new degree (Some secret) rnd in
  BiVariatePolynomial.eval p 0 0 = Field.embed secret /\
  BiVariatePolynomial.get_secret p = Some (Field.embed secret).
Proof.
  intros Hd p. split.
  - now apply secret_origin_value.
  - unfold p, BiVariatePolynomial.get_secret, BiVariatePolynomial.new.
    cbn [bv_coeffs].
    change (0, 0) with (Z.of_nat 0, Z.of_nat 0).
    rewrite (getitem_grid
               (fun i j => if (i =? 0) && (j =? 0)
                           then Field.embed secret else rnd i j)).
    + reflexivity.
    + apply in_range_of_nat. lia.
    + apply in_range_of_nat. lia.
Qed.

Lemma secret_at_origin_witness :
  let p := BiVariatePolynomial.new 1 (Some 42) (fun i j => i + 2 * j) in
  BiVariatePolynomial.eval p 0 0 = Field.embed 42 /\
  BiVariatePolynomial.get_secret p = Some (Field.embed 42).
Proof. apply (secret_at_origin 1 42 (fun i j => i + 2 * j)). lia. Defined.

(** X12.  Reconstruction undoes an honest sharing.  The dealer shares
    [secret] with a polynomial of degree [f]; each party [k] (a field
    element) rebuilds its column polynomial from the payload it is sent
    and keeps the share [col(0)].  From any collection of at least
    [f + 1] such shares, [reconstruct] returns the secret reduced into
    the field. *)
Theorem honest_sharing_reconstructs (secret : Z) (rnd : Z -> Z -> Z)
    (p : MPCParty.t) (shares : gmap Z Z) :
  0 <= MPCParty.f p ->
  MPCParty.f p + 1 <= Z.of_nat (size shares) ->
  (forall k s, shares !! k = Some s ->
     Field.is_valid k = true /\
     exists row col,
       CompleteSecretSharing.share_payload
         (BiVariatePolynomial.new (MPCParty.f p) (Some secret) rnd) k
       = Some (row, col) /\
       s = Polynomial.eval (Polynomial.new col) 0) ->
  MPCParty.reconstruct_finish shares p = Some (Field.embed secret).
Proof.
  intros Hf Hsize Hshares.
  set (poly := BiVariatePolynomial.new (MPCParty.f p) (Some secret) rnd) in *.
  (* the shares are values of the row polynomial of party 0 *)
  destruct (row_target (MPCParty.f p) (Some secret) rnd 0 0)
    as (row0 & Hrow0 & Hrow00).
  fold poly in Hrow0.
  assert (Hq0 : Polynomial.eval row0 0 = Field.embed secret).
  { rewrite <- (secret_origin_value (MPCParty.f p) secret rnd Hf).
    now rewrite eval_target. }
  assert (Hqk : forall k s, shares !! k = Some s ->
                            s = Polynomial.eval row0 k).
  { intros k s Hk. destruct (Hshares k s Hk) as (_ & row & col & Hpay & ->).
    unfold CompleteSecretSharing.share_payload in Hpay.
    destruct (row_target (MPCParty.f p) (Some secret) rnd 0 k)
      as (row0' & Hr & Hrv).
    fold poly in Hr. rewrite Hrow0 in Hr. injection Hr as <-.
    destruct (col_target (MPCParty.f p) (Some secret) rnd 0 k)
      as (colk & Hc & Hcv).
    fold poly in Hc. rewrite Hc in Hpay.
    destruct (BiVariatePolynomial.row_polynomial poly k); [|discriminate].
    injection Hpay as _ <-.
    now rewrite eval_rebuilt, Hrv, Hcv. }
  destruct (first_parties_spec shares (MPCParty.f p)) as (Hnd & Hlen & Hin);
    [lia|].
  unfold MPCParty.reconstruct_finish.
  set (parties := slice_to (MPCParty.f p + 1) (sorted_keys shares)) in *.
  rewrite (points_of_spec shares (Polynomial.eval row0) parties).
  - destruct (interpolate_samples_le row0 parties) as (r & Hr & Hrv).
    + apply row_polynomial_length in Hrow0. unfold poly in Hrow0.
      cbn [bv_degree BiVariatePolynomial.new] in Hrow0. lia.
    + rewrite valid_mod_id; [exact Hnd|].
      apply Forall_forall. intros k Hk. apply list_elem_of_In in Hk.
      destruct (Hin k Hk) as [s Hs]. now destruct (Hshares k s Hs).
    + rewrite Hr. f_equal. now rewrite Hrv.
  - intros k Hk. destruct (Hin k Hk) as [s Hs].
    rewrite Hs. f_equal. now apply Hqk.
Qed.


Lemma honest_sharing_reconstructs_witness :
  MPCParty.reconstruct_finish (<[1 := 44]> (<[2 := 46]> ∅))
                              (MPCParty.new 0 4 1)
  = Some (Field.embed 42).
Proof.
  apply (honest_sharing_reconstructs 42 (fun i j => i + 2 * j)
           (MPCParty.new 0 4 1) (<[1 := 44]> (<[2 := 46]> ∅))).
  - vm_compute. discriminate.
  - vm_compute. discriminate.
  - intros k s Hk.
    destruct (decide (k = 1)) as [->|H1].
    { rewrite lookup_insert_eq in Hk. injection Hk as <-.
      split; [vm_compute; reflexivity|]. eexists _, _.
      split; [vm_compute; reflexivity | vm_compute; reflexivity]. }
    rewrite lookup_insert_ne in Hk by congruence.
    destruct (decide (k = 2)) as [->|H2].
    { rewrite lookup_insert_eq in Hk. injection Hk as <-.
      split; [vm_compute; reflexivity|]. eexists _, _.
      split; [vm_compute; reflexivity | vm_compute; reflexivity]. }
    rewrite lookup_insert_ne in Hk by congruence.
    rewrite lookup_empty in Hk. discriminate.
Defined.
(** ** The comparison gadget *)

Lemma fold_left_map_S {A} (f : A -> nat -> A) : forall l a,
  fold_left f (map S l) a = fold_left (fun a x => f a (S x)) l a.
Proof. induction l as [|x l IH]; intros a; [reflexivity|]. apply IH. Qed.

Lemma fold_left_pointwise {A B} (f g : A -> B -> A) :
  (forall a b, f a b = g a b) ->
  forall l a, fold_left f l a = fold_left g l a.
Proof.
  intros H. induction l as [|x l IH]; intros a; [reflexivity|].
  simpl. rewrite H. apply IH.
Qed.

Lemma enable_flag_tail a0 b0 (a_bits b_bits : list Z) j :
  ArithmeticCircuit.enable_flag (a0 :: a_bits) (b0 :: b_bits) (S j)
  = ArithmeticCircuit.enable_flag a_bits b_bits j.
Proof.
  unfold ArithmeticCircuit.enable_flag.
  cbn [length]. rewrite Nat.sub_succ.
  rewrite <- (seq_shift _ (S j)), fold_left_map_S. reflexivity.
Qed.

Lemma compare_step_tail a0 b0 (a_bits b_bits : list Z) r j :
  ArithmeticCircuit.compare_step (a0 :: a_bits) (b0 :: b_bits) r (S j)
  = ArithmeticCircuit.compare_step a_bits b_bits r j.
Proof.
  unfold ArithmeticCircuit.compare_step.
  rewrite enable_flag_tail. reflexivity.
Qed.

(** The loop from the most significant bit down first runs over the
    tails, then treats position [0]. *)
Lemma compare_bits_cons a0 b0 (a_bits b_bits : list Z) :
  ArithmeticCircuit.compare_bits (a0 :: a_bits) (b0 :: b_bits)
  = ArithmeticCircuit.compare_step (a0 :: a_bits) (b0 :: b_bits)
      (ArithmeticCircuit.compare_bits a_bits b_bits) 0.
Proof.
  unfold ArithmeticCircuit.compare_bits.
  cbn [length]. rewrite <- cons_seq. cbn [rev].
  rewrite fold_left_app. cbn [fold_left]. f_equal.
  rewrite <- seq_shift, <- map_rev, fold_left_map_S.
  apply fold_left_pointwise. intros r j. apply compare_step_tail.
Qed.

Lemma bit_gt_flag a b :
  (a = 0 \/ a = 1) -> (b = 0 \/ b = 1) ->
  Field.mul a (Field.sub 1 b) = if b <? a then 1 else 0.
Proof. intros [->| ->] [->| ->]; vm_compute; reflexivity. Qed.

Lemma bit_eq_flag a b :
  (a = 0 \/ a = 1) -> (b = 0 \/ b = 1) ->
  Field.sub 1 (Field.mul (Field.sub a b) (Field.sub a b))
  = if a =? b then 1 else 0.
Proof. intros [->| ->] [->| ->]; vm_compute; reflexivity. Qed.

(** The enable flag is [1] when the two tails are equal and [0]
    otherwise. *)
Lemma equal_flag_fold : forall (a_bits b_bits : list Z) (e : Z),
  Forall (fun b => b = 0 \/ b = 1) a_bits ->
  Forall (fun b => b = 0 \/ b = 1) b_bits ->
  length a_bits = length b_bits ->
  e = 0 \/ e = 1 ->
  fold_left
    (fun enable l =>
       match enable, a_bits !! l, b_bits !! l with
       | Some e, Some al, Some bl =>
           Some (Field.mul e
                   (Field.sub 1 (Field.mul (Field.sub al bl)
                                           (Field.sub al bl))))
       | _, _, _ => None
       end)
    (seq 0 (length a_bits)) (Some e)
  = Some (if decide (a_bits = b_bits) then e else 0).
Proof.
  induction a_bits as [|a a_bits IH]; intros b_bits e Ha Hb Hlen He.
  - destruct b_bits; [|discriminate]. reflexivity.
  - destruct b_bits as [|b b_bits]; [discriminate|].
    apply Forall_cons in Ha as [Ha0 Ha]. apply Forall_cons in Hb as [Hb0 Hb].
    cbn [length]. rewrite <- cons_seq. cbn [fold_left lookup list_lookup].
    rewrite <- seq_shift, fold_left_map_S.
    change (fold_left
              (fun enable l =>
                 match enable, a_bits !! l, b_bits !! l with
                 | Some e0, Some al, Some bl =>
                     Some (Field.mul e0
                             (Field.sub 1 (Field.mul (Field.sub al bl)
                                                     (Field.sub al bl))))
                 | _, _, _ => None
                 end)
              (seq 0 (length a_bits))
              (Some (Field.mul e
                       (Field.sub 1 (Field.mul (Field.sub a b)
                                               (Field.sub a b)))))
            = Some (if decide (a :: a_bits = b :: b_bits) then e else 0)).
    rewrite bit_eq_flag by assumption.
    assert (He' : Field.mul e (if a =? b then 1 else 0)
                  = if a =? b then e else 0).
    { destruct (a =? b), He as [->| ->]; vm_compute; reflexivity. }
    rewrite He'.
    rewrite IH; [|assumption|assumption|simpl in Hlen; lia|
                 destruct (a =? b); auto].
    f_equal.
    destruct (Z.eqb_spec a b) as [->|Hab].
    + destruct (decide (a_bits = b_bits)) as [->|Hne].
      * now rewrite decide_True.
      * rewrite decide_False; [reflexivity|congruence].
    + rewrite (decide_False (P := a :: a_bits = b :: b_bits)) by congruence.
      now destruct (decide (a_bits = b_bits)).
Qed.

Lemma enable_flag_zero a0 b0 (a_bits b_bits : list Z) :
  Forall (fun b => b = 0 \/ b = 1) a_bits ->
  Forall (fun b => b = 0 \/ b = 1) b_bits ->
  length a_bits = length b_bits ->
  ArithmeticCircuit.enable_flag (a0 :: a_bits) (b0 :: b_bits) 0
  = Some (if decide (a_bits = b_bits) then 1 else 0).
Proof.
  intros Ha Hb Hlen. unfold ArithmeticCircuit.enable_flag.
  cbn [length]. rewrite Nat.sub_succ, Nat.sub_0_r.
  rewrite <- seq_shift, fold_left_map_S.
  apply (equal_flag_fold a_bits b_bits 1); auto.
Qed.

Lemma weighted_sum_inj : forall (a_bits b_bits : list Z),
  Forall (fun b => b = 0 \/ b = 1) a_bits ->
  Forall (fun b => b = 0 \/ b = 1) b_bits ->
  length a_bits = length b_bits ->
  weighted_sum a_bits = weighted_sum b_bits -> a_bits = b_bits.
Proof.
  induction a_bits as [|a a_bits IH]; intros b_bits Ha Hb Hlen Hsum.
  - destruct b_bits; [reflexivity|discriminate].
  - destruct b_bits as [|b b_bits]; [discriminate|].
    apply Forall_cons in Ha as [Ha0 Ha]. apply Forall_cons in Hb as [Hb0 Hb].
    cbn [weighted_sum] in Hsum.
    assert (a = b) by lia. subst b.
    f_equal. apply IH; auto; simpl in Hlen; lia.
Qed.

(** On bit lists of equal length, [compare_bits] decides which of the two
    encoded numbers is larger. *)
Lemma compare_bits_lists : forall (a_bits b_bits : list Z),
  Forall (fun b => b = 0 \/ b = 1) a_bits ->
  Forall (fun b => b = 0 \/ b = 1) b_bits ->
  length a_bits = length b_bits ->
  ArithmeticCircuit.compare_bits a_bits b_bits
  = Some (if weighted_sum b_bits <? weighted_sum a_bits then 1 else 0).
Proof.
  induction a_bits as [|a a_bits IH]; intros b_bits Ha Hb Hlen.
  - destruct b_bits; [reflexivity|discriminate].
  - destruct b_bits as [|b b_bits]; [discriminate|].
    pose proof Ha as Ha'. pose proof Hb as Hb'.
    apply Forall_cons in Ha' as [Ha0 Hat].
    apply Forall_cons in Hb' as [Hb0 Hbt].
    assert (Hl : length a_bits = length b_bits) by (simpl in Hlen; lia).
    rewrite compare_bits_cons, (IH b_bits Hat Hbt Hl).
    unfold ArithmeticCircuit.compare_step.
    cbn [lookup list_lookup].
    rewrite (enable_flag_zero a b a_bits b_bits Hat Hbt Hl).
    rewrite bit_gt_flag by assumption.
    f_equal. cbn [weighted_sum].
    destruct (decide (a_bits = b_bits)) as [->|Hne].
    + rewrite Z.ltb_irrefl.
      destruct (Z.ltb_spec b a), (Z.ltb_spec (b + 2 * weighted_sum b_bits)
                                             (a + 2 * weighted_sum b_bits));
        try lia; vm_compute; reflexivity.
    + assert (weighted_sum a_bits <> weighted_sum b_bits).
      { intros E. apply Hne. now apply weighted_sum_inj. }
      destruct (Z.ltb_spec b a), (Z.ltb_spec (weighted_sum b_bits)
                                             (weighted_sum a_bits)),
        (Z.ltb_spec (b + 2 * weighted_sum b_bits)
                    (a + 2 * weighted_sum a_bits));
        try lia; vm_compute; reflexivity.
Qed.

(** X13.  For two numbers that fit [k] bits, [compare_bits] on their bit
    decompositions returns [1] if the first is strictly larger and [0]
    otherwise. *)
Theorem compare_bits_correct (a b k : Z) :
  0 <= k -> 0 <= a < 2 ^ k -> 0 <= b < 2 ^ k ->
  ArithmeticCircuit.compare_bits (ArithmeticCircuit.bit_decompose a k)
                                 (ArithmeticCircuit.bit_decompose b k)
  = Some (if b <? a then 1 else 0).
Proof.
  intros Hk Ha Hb.
  rewrite compare_bits_lists.
  - rewrite !bit_decompose_sum, Z2Nat.id by exact Hk.
    now rewrite !Z.mod_small by lia.
  - apply bit_decompose_bits.
  - apply bit_decompose_bits.
  - now rewrite !bit_decompose_length.
Qed.

Lemma compare_bits_correct_witness :
  ArithmeticCircuit.compare_bits (ArithmeticCircuit.bit_decompose 15 5)
                                 (ArithmeticCircuit.bit_decompose 10 5)
  = Some (if 10 <? 15 then 1 else 0).
Proof. apply (compare_bits_correct 15 10 5); lia. Defined.

(** Outside the [k]-bit range only the low [k] bits are compared. *)
Example compare_bits_truncated :
  ArithmeticCircuit.compare_bits (ArithmeticCircuit.bit_decompose 32 5)
                                 (ArithmeticCircuit.bit_decompose 1 5)
  = Some 0.
Proof. vm_compute. reflexivity. Qed.

Lemma max_two_lists (a b : Z) (a_bits b_bits : list Z) :
  Forall (fun x => x = 0 \/ x = 1) a_bits ->
  Forall (fun x => x = 0 \/ x = 1) b_bits ->
  length a_bits = length b_bits ->
  ArithmeticCircuit.max_two a b a_bits b_bits
  = Some (if weighted_sum b_bits <? weighted_sum a_bits
          then a mod Field.MODULUS else b mod Field.MODULUS).
Proof.
  intros Ha Hb Hlen. unfold ArithmeticCircuit.max_two.
  rewrite compare_bits_lists by assumption. f_equal.
  destruct (_ <? _).
  - unfold Field.add, Field.mul, Field.sub.
    change (1 - 1) with 0. rewrite mod_0_M, Z.mul_0_l, mod_0_M.
    rewrite Z.mul_1_l, Z.add_0_r. apply Z.mod_mod.
    pose proof MODULUS_pos; lia.
  - unfold Field.add, Field.mul, Field.sub.
    change (1 - 0) with 1. rewrite mod_1_M, Z.mul_0_l, mod_0_M.
    rewrite Z.mul_1_l, Z.add_0_l. apply Z.mod_mod.
    pose proof MODULUS_pos; lia.
Qed.

(** X14.  For two field elements that fit [k] bits, [max_two] with their
    bit decompositions returns the larger of the two. *)
Theorem max_two_correct (a b k : Z) :
  0 <= k -> 0 <= a < 2 ^ k -> 0 <= b < 2 ^ k ->
  Field.is_valid a = true -> Field.is_valid b = true ->
  ArithmeticCircuit.max_two a b (ArithmeticCircuit.bit_decompose a k)
                                (ArithmeticCircuit.bit_decompose b k)
  = Some (Z.max a b).
Proof.
  intros Hk Ha Hb Hva Hvb.
  rewrite max_two_lists;
    [|apply bit_decompose_bits|apply bit_decompose_bits|
     now rewrite !bit_decompose_length].
  rewrite !bit_decompose_sum, Z2Nat.id by exact Hk.
  rewrite !(Z.mod_small _ (2 ^ k)) by lia.
  rewrite (valid_mod a Hva), (valid_mod b Hvb). f_equal.
  destruct (Z.ltb_spec b a); lia.
Qed.

Lemma max_two_correct_witness :
  ArithmeticCircuit.max_two 15 20 (ArithmeticCircuit.bit_decompose 15 5)
                                  (ArithmeticCircuit.bit_decompose 20 5)
  = Some (Z.max 15 20).
Proof.
  apply (max_two_correct 15 20 5); try lia; reflexivity.
Defined.

(** ** The tournament finds the leftmost maximum *)

Lemma beats_refl x : beats x x.
Proof. right. split; [reflexivity|lia]. Qed.

Lemma beats_trans x y z : beats x y -> beats y z -> beats x z.
Proof. unfold beats. intros [H1|[H1 H1']] [H2|[H2 H2']]; [left|left|left|right]; lia. Qed.

Lemma play_spec (k : Z) (x y : ArithmeticCircuit.entry) :
  0 <= k -> good_entry k x -> good_entry k y ->
  ArithmeticCircuit.play x y
  = Some (if ArithmeticCircuit.e_value y <=? ArithmeticCircuit.e_value x
          then x else y).
Proof.
  intros Hk (Hxr & Hxv & Hxb) (Hyr & Hyv & Hyb).
  unfold ArithmeticCircuit.play. rewrite Hxb, Hyb.
  rewrite max_two_lists;
    [|apply bit_decompose_bits|apply bit_decompose_bits|
     now rewrite !bit_decompose_length].
  rewrite !bit_decompose_sum, Z2Nat.id by exact Hk.
  rewrite !(Z.mod_small _ (2 ^ k)) by lia.
  rewrite (valid_mod _ Hxv), (valid_mod _ Hyv). f_equal.
  destruct (Z.ltb_spec (ArithmeticCircuit.e_value y)
                       (ArithmeticCircuit.e_value x)) as [Hlt|Hge].
  - rewrite Z.eqb_refl.
    destruct (Z.leb_spec (ArithmeticCircuit.e_value y)
                         (ArithmeticCircuit.e_value x)); [reflexivity|lia].
  - destruct (Z.eqb_spec (ArithmeticCircuit.e_value y)
                         (ArithmeticCircuit.e_value x)) as [E|E];
      destruct (Z.leb_spec (ArithmeticCircuit.e_value y)
                           (ArithmeticCircuit.e_value x));
      try reflexivity; lia.
Qed.

Lemma play_beats (k : Z) (x y : ArithmeticCircuit.entry) :
  0 <= k -> good_entry k x -> good_entry k y ->
  ArithmeticCircuit.e_index x < ArithmeticCircuit.e_index y ->
  exists w, ArithmeticCircuit.play x y = Some w /\
            (w = x \/ w = y) /\ beats w x /\ beats w y.
Proof.
  intros Hk Hx Hy Hidx. rewrite (play_spec k x y Hk Hx Hy).
  destruct (Z.leb_spec (ArithmeticCircuit.e_value y)
                       (ArithmeticCircuit.e_value x)) as [Hle|Hgt].
  - exists x. split; [reflexivity|]. split; [now left|].
    split; [apply beats_refl|]. unfold beats. lia.
  - exists y. split; [reflexivity|]. split; [now right|].
    split; [|apply beats_refl]. unfold beats. lia.
Qed.

Lemma tournament_round_spec (k : Z) : 0 <= k -> forall (m : nat) current,
  (length current <= m)%nat ->
  Forall (good_entry k) current -> index_sorted current ->
  exists next,
    ArithmeticCircuit.tournament_round current = Some next /\
    Forall (good_entry k) next /\ index_sorted next /\
    (forall e, List.In e next -> List.In e current) /\
    (forall e, List.In e current -> exists w, List.In w next /\ beats w e) /\
    (2 * length next <= length current + 1)%nat /\
    (current <> [] -> next <> []).
Proof.
  intros Hk. induction m as [|m IH]; intros current Hm Hgood Hsorted.
  - destruct current; [|simpl in Hm; lia].
    exists []. repeat split; auto; try (simpl; lia); try constructor;
      try (intros e []).
  - destruct current as [|x [|y rest]].
    + exists []. repeat split; auto; try (simpl; lia); try constructor;
        try (intros e []).
    + exists [x]. repeat split; auto; try (simpl; lia).
      intros e [<-|[]]. exists x. split; [now left|apply beats_refl].
    + apply Forall_cons in Hgood as [Hx Hgood].
      apply Forall_cons in Hgood as [Hy Hrest].
      unfold index_sorted in Hsorted.
      apply StronglySorted_cons in Hsorted as [Hxall Hsorted].
      apply StronglySorted_cons in Hsorted as [Hyall Hsrest].
      apply Forall_cons in Hxall as [Hxy Hxrest].
      destruct (play_beats k x y Hk Hx Hy Hxy) as (w & Hw & Hwxy & Hwx & Hwy).
      destruct (IH rest) as (next & Hn & Hngood & Hnsorted & Hnin & Hnb
                             & Hnlen & _);
        [simpl in Hm; lia|exact Hrest|exact Hsrest|].
      exists (w :: next). cbn [ArithmeticCircuit.tournament_round].
      rewrite Hw, Hn. split; [reflexivity|].
      split; [|split; [|split; [|split; [|split]]]].
      * constructor; [destruct Hwxy as [-> | ->]; assumption|exact Hngood].
      * apply StronglySorted_cons. split; [|exact Hnsorted].
        apply Forall_forall. intros e He.
        apply list_elem_of_In, Hnin in He.
        rewrite Forall_forall in Hxrest, Hyall.
        destruct Hwxy as [-> | ->];
          [apply Hxrest|apply Hyall]; now apply list_elem_of_In.
      * intros e [<-|He].
        -- destruct Hwxy as [-> | ->]; [now left|right; now left].
        -- right. right. now apply Hnin.
      * intros e [<-|[<-|He]].
        -- exists w. split; [now left|exact Hwx].
        -- exists w. split; [now left|exact Hwy].
        -- destruct (Hnb e He) as (w' & Hw' & Hb).
           exists w'. split; [now right|exact Hb].
      * simpl. lia.
      * discriminate.
Qed.

Lemma tournament_spec (k : Z) : 0 <= k -> forall fuel current,
  (length current <= S fuel)%nat -> current <> [] ->
  Forall (good_entry k) current -> index_sorted current ->
  exists winner,
    ArithmeticCircuit.tournament fuel current = Some [winner] /\
    List.In winner current /\
    forall e, List.In e current -> beats winner e.
Proof.
  intros Hk. induction fuel as [|fuel IH];
    intros current Hlen Hne Hgood Hsorted.
  - destruct current as [|x [|y rest]]; [congruence| |simpl in Hlen; lia].
    exists x. split; [reflexivity|]. split; [now left|].
    intros e [<-|[]]. apply beats_refl.
  - destruct current as [|x [|y rest]]; [congruence| |].
    + exists x. split; [reflexivity|]. split; [now left|].
      intros e [<-|[]]. apply beats_refl.
    + destruct (tournament_round_spec k Hk _ (x :: y :: rest) (le_n _)
                  Hgood Hsorted)
        as (next & Hn & Hngood & Hnsorted & Hnin & Hnb & Hnlen & Hnne).
      cbn [ArithmeticCircuit.tournament]. rewrite Hn.
      destruct (IH next) as (winner & Hw & Hwin & Hwb);
        [simpl in Hnlen, Hlen; lia|apply Hnne; discriminate
        |exact Hngood|exact Hnsorted|].
      exists winner. split; [exact Hw|]. split; [now apply Hnin|].
      intros e He. destruct (Hnb e He) as (w & Hwn & Hwe).
      eapply beats_trans; [apply Hwb; exact Hwn|exact Hwe].
Qed.

Lemma combine_seq_lookup {A} : forall (l : list A) (s t : nat),
  combine (seq s (length l)) l !! t = (fun x => ((s + t)%nat, x)) <$> l !! t.
Proof.
  induction l as [|x l IH]; intros s t; [reflexivity|].
  cbn [length seq combine]. destruct t as [|t].
  - simpl. now rewrite Nat.add_0_r.
  - cbn [lookup list_lookup]. rewrite IH.
    replace (S s + t)%nat with (s + S t)%nat by lia. reflexivity.
Qed.

Lemma enumerate_map_lookup {A B} (F : nat * A -> B) (l : list A) (t : nat) :
  map F (enumerate l) !! t = (fun x => F (t, x)) <$> l !! t.
Proof.
  unfold enumerate. change (map F) with (fmap (M := list) F).
  rewrite list_lookup_fmap, combine_seq_lookup.
  destruct (l !! t); reflexivity.
Qed.

Lemma enumerate_map_length {A B} (F : nat * A -> B) (l : list A) :
  length (map F (enumerate l)) = length l.
Proof.
  unfold enumerate. rewrite length_map, length_combine, length_seq. lia.
Qed.

Lemma enumerate_map_in {A B} (F : nat * A -> B) (l : list A) (e : B) :
  List.In e (map F (enumerate l)) <->
  exists t x, l !! t = Some x /\ e = F (t, x).
Proof.
  rewrite <- list_elem_of_In, list_elem_of_lookup. split.
  - intros (t & Ht). rewrite enumerate_map_lookup in Ht.
    destruct (l !! t) as [x|] eqn:E; [|discriminate].
    injection Ht as <-. now exists t, x.
  - intros (t & x & Ht & ->). exists t.
    now rewrite enumerate_map_lookup, Ht.
Qed.

Lemma start_sorted (k : Z) : forall (l : list Z) (s : nat),
  index_sorted
    (map (fun '(i, v) =>
            ArithmeticCircuit.Entry v (Z.of_nat i)
              (ArithmeticCircuit.bit_decompose v k))
         (combine (seq s (length l)) l)).
Proof.
  induction l as [|v l IH]; intros s; [constructor|].
  cbn [length seq combine map]. apply StronglySorted_cons.
  split; [|apply IH].
  apply Forall_forall. intros e He.
  apply list_elem_of_lookup in He as (t & Ht).
  change (map ?F ?l) with (fmap (M := list) F l) in Ht.
  rewrite list_lookup_fmap, combine_seq_lookup in Ht.
  destruct (l !! t); [|discriminate]. injection Ht as <-. simpl. lia.
Qed.

(** The winner of the tournament beats every entry: its value is the
    largest, and among the entries with that value its index is the
    smallest. *)
Lemma find_max_winner (values : list Z) (k : Z) :
  0 <= k -> values <> [] ->
  Forall (fun v => 0 <= v < 2 ^ k /\ Field.is_valid v = true) values ->
  exists i v,
    values !! i = Some v /\
    ArithmeticCircuit.find_max values k = Some (v, Z.of_nat i) /\
    forall j u, values !! j = Some u ->
      u < v \/ (u = v /\ (i <= j)%nat).
Proof.
  intros Hk Hne Hrange.
  destruct values as [|v0 [|v1 rest]] eqn:Ev; [congruence| |].
  - exists 0%nat, v0. split; [reflexivity|]. split; [reflexivity|].
    intros [|j] u Hj; [|discriminate]. injection Hj as <-. right. lia.
  - rewrite <- Ev in *.
    set (F := fun '(i, v) =>
                ArithmeticCircuit.Entry v (Z.of_nat i)
                  (ArithmeticCircuit.bit_decompose v k)).
    assert (Hfm : ArithmeticCircuit.find_max values k
                  = match ArithmeticCircuit.tournament (length values)
                            (map F (enumerate values)) with
                    | Some (w :: _) =>
                        Some (ArithmeticCircuit.e_value w,
                              ArithmeticCircuit.e_index w)
                    | _ => None
                    end) by (rewrite Ev; reflexivity).
    destruct (tournament_spec k Hk (length values) (map F (enumerate values)))
      as (winner & Hw & Hwin & Hwb).
    + rewrite enumerate_map_length. lia.
    + rewrite Ev. discriminate.
    + apply Forall_forall. intros e He.
      apply list_elem_of_In, enumerate_map_in in He as (t & x & Ht & ->).
      rewrite Forall_forall in Hrange.
      destruct (Hrange x) as [Hx1 Hx2];
        [apply list_elem_of_lookup; now exists t|].
      unfold F, good_entry. cbn. auto.
    + apply start_sorted.
    + apply enumerate_map_in in Hwin as (i & v & Hi & ->).
      exists i, v. split; [exact Hi|]. split.
      * rewrite Hfm, Hw. reflexivity.
      * intros j u Hj.
        specialize (Hwb (F (j, u))).
        destruct Hwb as [H|[H1 H2]].
        -- apply enumerate_map_in. now exists j, u.
        -- left. exact H.
        -- right. cbn in H1, H2. split; [exact H1|lia].
Qed.

(** X15.  For a non-empty list of field elements that fit [k] bits,
    [find_max] returns the maximum and the first position at which it
    occurs. *)
Theorem find_max_leftmost_maximum (values : list Z) (k : Z) :
  0 <= k -> values <> [] ->
  Forall (fun v => 0 <= v < 2 ^ k /\ Field.is_valid v = true) values ->
  exists i,
    (i < length values)%nat /\
    ArithmeticCircuit.find_max values k
    = Some (nth i values 0, Z.of_nat i) /\
    (forall j, (j < length values)%nat -> nth j values 0 <= nth i values 0) /\
    (forall j, (j < i)%nat -> nth j values 0 < nth i values 0).
Proof.
  intros Hk Hne Hrange.
  destruct (find_max_winner values k Hk Hne Hrange) as (i & v & Hi & Hf & Hb).
  exists i. pose proof (lookup_lt_Some _ _ _ Hi) as Hlt.
  rewrite (nth_lookup_Some _ _ 0 _ Hi).
  split; [exact Hlt|]. split; [exact Hf|]. split.
  - intros j Hj. destruct (lookup_lt_is_Some_2 values j Hj) as [u Hu].
    rewrite (nth_lookup_Some _ _ 0 _ Hu). destruct (Hb j u Hu); lia.
  - intros j Hj. destruct (lookup_lt_is_Some_2 values j) as [u Hu]; [lia|].
    rewrite (nth_lookup_Some _ _ 0 _ Hu). destruct (Hb j u Hu); lia.
Qed.

Lemma find_max_leftmost_maximum_witness :
  exists i,
    (i < length [10; 31; 5; 31])%nat /\
    ArithmeticCircuit.find_max [10; 31; 5; 31] 5
    = Some (nth i [10; 31; 5; 31] 0, Z.of_nat i) /\
    (forall j, (j < length [10; 31; 5; 31])%nat ->
               nth j [10; 31; 5; 31] 0 <= nth i [10; 31; 5; 31] 0) /\
    (forall j, (j < i)%nat ->
               nth j [10; 31; 5; 31] 0 < nth i [10; 31; 5; 31] 0).
Proof.
  apply (find_max_leftmost_maximum [10; 31; 5; 31] 5);
    [lia|discriminate|].
  repeat constructor; simpl; lia.
Defined.

(** ** The second-price auction circuit *)

Lemma masked_lookup (bids : list Z) (i j : nat) (u : Z) :
  bids !! j = Some u ->
  map (fun '(t, v) => if Z.of_nat t =? Z.of_nat i then 0 else v)
      (enumerate bids) !! j
  = Some (if Nat.eq_dec j i then 0 else u).
Proof.
  intros Hj. rewrite enumerate_map_lookup, Hj. cbn. f_equal.
  destruct (Nat.eq_dec j i) as [->|Hne].
  - now rewrite Z.eqb_refl.
  - destruct (Z.eqb_spec (Z.of_nat j) (Z.of_nat i)); [lia|reflexivity].
Qed.

(** The outcome of the circuit on at least two admissible bids, by
    position. *)
Lemma second_price_auction_outcome (bids : list Z) (k : Z) :
  0 <= k -> (2 <= length bids)%nat ->
  Forall (fun v => 0 <= v < 2 ^ k /\ Field.is_valid v = true) bids ->
  exists i v price,
    bids !! i = Some v /\
    ArithmeticCircuit.second_price_auction bids k
    = Some (Z.of_nat i, price) /\
    (forall j u, bids !! j = Some u -> u < v \/ (u = v /\ (i <= j)%nat)) /\
    (forall j u, bids !! j = Some u -> j <> i -> u <= price) /\
    (exists j, j <> i /\ bids !! j = Some price).
Proof.
  intros Hk Hlen Hrange.
  assert (Hne : bids <> []) by (destruct bids; [simpl in Hlen; lia|discriminate]).
  destruct (find_max_winner bids k Hk Hne Hrange) as (i & v & Hi & Hf & Hb).
  set (masked := map (fun '(t, v) => if Z.of_nat t =? Z.of_nat i then 0 else v)
                     (enumerate bids)).
  assert (Hmlen : length masked = length bids) by apply enumerate_map_length.
  assert (Hmne : masked <> [])
    by (destruct masked; [simpl in Hmlen; lia|discriminate]).
  assert (Hpos : 0 < 2 ^ k) by (apply Z.pow_pos_nonneg; lia).
  assert (Hmrange :
            Forall (fun v => 0 <= v < 2 ^ k /\ Field.is_valid v = true) masked).
  { apply Forall_forall. intros e He.
    apply list_elem_of_In, enumerate_map_in in He as (t & x & Ht & ->).
    destruct (Z.of_nat t =? Z.of_nat i).
    - split; [lia|reflexivity].
    - rewrite Forall_forall in Hrange. apply Hrange.
      apply list_elem_of_lookup. now exists t. }
  destruct (find_max_winner masked k Hk Hmne Hmrange)
    as (m & p & Hm & Hfm & Hbm).
  pose proof (lookup_lt_Some _ _ _ Hi) as Hilt.
  assert (Hothers : forall j u, bids !! j = Some u -> j <> i -> u <= p).
  { intros j u Hu Hji. pose proof (masked_lookup bids i j u Hu) as Hmj.
    destruct (Nat.eq_dec j i); [contradiction|].
    destruct (Hbm j u Hmj); lia. }
  exists i, v, p. split; [exact Hi|]. split.
  { unfold ArithmeticCircuit.second_price_auction. rewrite Hf.
    unfold ArithmeticCircuit.find_second_max. fold masked.
    rewrite Hfm. reflexivity. }
  split; [exact Hb|]. split; [exact Hothers|].
  pose proof (lookup_lt_Some _ _ _ Hm) as Hmlt. rewrite Hmlen in Hmlt.
  destruct (lookup_lt_is_Some_2 bids m Hmlt) as [x Hx].
  pose proof (masked_lookup bids i m x Hx) as Hmx. fold masked in Hmx.
  rewrite Hm in Hmx. injection Hmx as Hp.
  destruct (Nat.eq_dec m i) as [Hmi|Hmi].
  - set (j := if Nat.eq_dec i 0%nat then 1%nat else 0%nat).
    assert (Hj : (j < length bids)%nat /\ j <> i)
      by (unfold j; destruct (Nat.eq_dec i 0%nat); lia).
    destruct Hj as [Hj Hji].
    destruct (lookup_lt_is_Some_2 bids j Hj) as [u Hu].
    exists j. split; [exact Hji|]. rewrite Hu. f_equal.
    pose proof (Hothers j u Hu Hji) as Hle.
    rewrite Forall_forall in Hrange.
    destruct (Hrange u) as [Hu0 _];
      [apply list_elem_of_lookup; now exists j|]. lia.
  - exists m. split; [exact Hmi|]. now rewrite Hx, Hp.
Qed.

(** X16.  For at least two bids that are field elements fitting [k]
    bits, [second_price_auction] returns the first position of the
    highest bid together with the highest of the remaining bids. *)
Theorem second_price_auction_correct (bids : list Z) (k : Z) :
  0 <= k -> (2 <= length bids)%nat ->
  Forall (fun v => 0 <= v < 2 ^ k /\ Field.is_valid v = true) bids ->
  exists i price,
    (i < length bids)%nat /\
    ArithmeticCircuit.second_price_auction bids k
    = Some (Z.of_nat i, price) /\
    (forall j, (j < length bids)%nat -> nth j bids 0 <= nth i bids 0) /\
    (forall j, (j < i)%nat -> nth j bids 0 < nth i bids 0) /\
    (forall j, (j < length bids)%nat -> j <> i -> nth j bids 0 <= price) /\
    (exists j, (j < length bids)%nat /\ j <> i /\ nth j bids 0 = price).
Proof.
  intros Hk Hlen Hrange.
  destruct (second_price_auction_outcome bids k Hk Hlen Hrange)
    as (i & v & p & Hi & Hspa & Hb & Hothers & (m & Hmi & Hm)).
  pose proof (lookup_lt_Some _ _ _ Hi) as Hilt.
  assert (Hnth : forall j u, bids !! j = Some u -> nth j bids 0 = u)
    by (intros j u Hu; apply (nth_lookup_Some _ _ 0 _ Hu)).
  exists i, p. rewrite (Hnth _ _ Hi).
  split; [exact Hilt|]. split; [exact Hspa|].
  split; [|split; [|split]].
  - intros j Hj. destruct (lookup_lt_is_Some_2 bids j Hj) as [u Hu].
    rewrite (Hnth _ _ Hu). destruct (Hb j u Hu); lia.
  - intros j Hj. destruct (lookup_lt_is_Some_2 bids j) as [u Hu]; [lia|].
    rewrite (Hnth _ _ Hu). destruct (Hb j u Hu); lia.
  - intros j Hj Hji. destruct (lookup_lt_is_Some_2 bids j Hj) as [u Hu].
    rewrite (Hnth _ _ Hu). now apply (Hothers j u).
  - exists m. split; [exact (lookup_lt_Some _ _ _ Hm)|].
    split; [exact Hmi|]. exact (Hnth _ _ Hm).
Qed.

Lemma second_price_auction_correct_witness :
  exists i price,
    (i < length [7; 20; 13])%nat /\
    ArithmeticCircuit.second_price_auction [7; 20; 13] 5
    = Some (Z.of_nat i, price) /\
    (forall j, (j < length [7; 20; 13])%nat ->
               nth j [7; 20; 13] 0 <= nth i [7; 20; 13] 0) /\
    (forall j, (j < i)%nat -> nth j [7; 20; 13] 0 < nth i [7; 20; 13] 0) /\
    (forall j, (j < length [7; 20; 13])%nat -> j <> i ->
               nth j [7; 20; 13] 0 <= price) /\
    (exists j, (j < length [7; 20; 13])%nat /\ j <> i /\
               nth j [7; 20; 13] 0 = price).
Proof.
  apply (second_price_auction_correct [7; 20; 13] 5); [lia|simpl; lia|].
  repeat constructor; simpl; lia.
Defined.

(** ** The beacon: release rule and sequential requests *)

Lemma request_effect rnd party idx b :
  let i := from_option (fun i => i) (RandomnessBeacon.index b) idx in
  let reqs := {[party]} ∪ default ∅ (RandomnessBeacon.requests b !! i) in
  let r := RandomnessBeacon.request rnd party idx b in
  RandomnessBeacon.index r.1.1
  = (match idx with
     | None => RandomnessBeacon.index b + 1
     | Some _ => RandomnessBeacon.index b
     end) /\
  RandomnessBeacon.threshold r.1.1 = RandomnessBeacon.threshold b /\
  RandomnessBeacon.requests r.1.1
  = <[i := reqs]> (RandomnessBeacon.requests b) /\
  r.1.2 = i /\
  r.2 = RandomnessBeacon.values r.1.1 !! i /\
  ((RandomnessBeacon.threshold b <= Z.of_nat (size reqs) /\
    RandomnessBeacon.values b !! i = None /\
    RandomnessBeacon.values r.1.1 = <[i := rnd]> (RandomnessBeacon.values b) /\
    RandomnessBeacon.total_invocations r.1.1
    = RandomnessBeacon.total_invocations b + 1) \/
   ((Z.of_nat (size reqs) < RandomnessBeacon.threshold b \/
     is_Some (RandomnessBeacon.values b !! i)) /\
    RandomnessBeacon.values r.1.1 = RandomnessBeacon.values b /\
    RandomnessBeacon.total_invocations r.1.1
    = RandomnessBeacon.total_invocations b)).
Proof.
  unfold RandomnessBeacon.request.
  destruct idx as [i|]; cbn [from_option RandomnessBeacon.index
    RandomnessBeacon.requests RandomnessBeacon.values
    RandomnessBeacon.threshold RandomnessBeacon.n RandomnessBeacon.f
    RandomnessBeacon.total_invocations].
  - destruct (Z.leb_spec (RandomnessBeacon.threshold b)
      (Z.of_nat (size ({[party]} ∪ default ∅ (RandomnessBeacon.requests b !! i)))))
      as [Hth|Hth].
    + destruct (RandomnessBeacon.values b !! i) eqn:Ev; cbn; rewrite ?Ev;
        repeat split; eauto 7.
    + cbn. repeat split; auto.
  - set (i := RandomnessBeacon.index b).
    destruct (Z.leb_spec (RandomnessBeacon.threshold b)
      (Z.of_nat (size ({[party]} ∪ default ∅ (RandomnessBeacon.requests b !! i)))))
      as [Hth|Hth].
    + destruct (RandomnessBeacon.values b !! i) eqn:Ev; cbn; rewrite ?Ev;
        repeat split; eauto 7.
    + cbn. repeat split; auto.
Qed.

Lemma release_inv_new n f : 0 <= f ->
  beacon_release_inv f (RandomnessBeacon.new n f).
Proof.
  intros Hf. split; [reflexivity|]. split.
  - intros i. cbn. rewrite !lookup_empty. cbn. rewrite size_empty. split.
    + intros [x Hx]. discriminate.
    + lia.
  - cbn. now rewrite map_size_empty.
Qed.

Lemma release_inv_request f rnd party idx b :
  beacon_release_inv f b ->
  beacon_release_inv f (RandomnessBeacon.request rnd party idx b).1.1.
Proof.
  intros (Hth & Hiff & Htot).
  destruct (request_effect rnd party idx b)
    as (_ & Hth' & Hreqs & _ & _ & Hcase).
  cbn zeta in *.
  set (i := from_option (fun i => i) (RandomnessBeacon.index b) idx) in *.
  set (reqs := {[party]} ∪ default ∅ (RandomnessBeacon.requests b !! i)) in *.
  set (b' := (RandomnessBeacon.request rnd party idx b).1.1) in *.
  assert (Hmono : (size (default ∅ (RandomnessBeacon.requests b !! i))
                   <= size reqs)%nat)
    by (apply subseteq_size, union_subseteq_r).
  split; [congruence|]. split.
  - intros j. rewrite Hreqs.
    destruct (Z.eq_dec i j) as [<-|Hne].
    + rewrite lookup_insert_eq. cbn [from_option id].
      destruct Hcase as [(Hsz & Hnone & Hv & _)|([Hsz|Hsome] & Hv & _)];
        rewrite Hv.
      * rewrite lookup_insert_eq. split; [lia|eauto].
      * rewrite Hiff. lia.
      * split; [intros _|intros _; exact Hsome].
        apply Hiff in Hsome. lia.
    + rewrite lookup_insert_ne by exact Hne.
      destruct Hcase as [(_ & _ & Hv & _)|(_ & Hv & _)]; rewrite Hv.
      * rewrite lookup_insert_ne by exact Hne. apply Hiff.
      * apply Hiff.
  - destruct Hcase as [(_ & Hnone & Hv & Ht)|(_ & Hv & Ht)];
      rewrite Hv, Ht, Htot; [|reflexivity].
    rewrite map_size_insert_None by exact Hnone. lia.
Qed.

Lemma release_inv_run f : forall calls b log,
  beacon_release_inv f b ->
  beacon_release_inv f (RandomnessBeacon.run calls b log).1.
Proof.
  induction calls as [|c calls IH]; intros b log Hinv; [exact Hinv|].
  cbn [RandomnessBeacon.run].
  pose proof (release_inv_request f (RandomnessBeacon.call_rnd c)
                (RandomnessBeacon.call_party c)
                (RandomnessBeacon.call_index c) b Hinv) as Hstep.
  destruct (RandomnessBeacon.request (RandomnessBeacon.call_rnd c)
              (RandomnessBeacon.call_party c)
              (RandomnessBeacon.call_index c) b) as [[b' i] ret].
  apply IH. exact Hstep.
Qed.

(** X17.  In every execution of a beacon with [f >= 0], a value is stored
    at an index exactly when at least [f + 1] distinct parties have
    requested that index, and [get_invocation_count] is the number of
    stored values. *)
Theorem beacon_release_rule (n f : Z) (calls : list RandomnessBeacon.call) :
  0 <= f ->
  let b := (RandomnessBeacon.run calls (RandomnessBeacon.new n f) []).1 in
  (forall i, is_Some (RandomnessBeacon.values b !! i) <->
     f + 1 <= Z.of_nat (size (default ∅ (RandomnessBeacon.requests b !! i))))
  /\
  RandomnessBeacon.get_invocation_count b
  = Z.of_nat (size (RandomnessBeacon.values b)).
Proof.
  intros Hf b.
  destruct (release_inv_run f calls (RandomnessBeacon.new n f) []
              (release_inv_new n f Hf)) as (_ & Hiff & Htot).
  split; [exact Hiff|exact Htot].
Qed.

Lemma beacon_release_rule_witness :
  let calls := [RandomnessBeacon.Call 7 0 (Some 3);
                RandomnessBeacon.Call 9 0 (Some 3);
                RandomnessBeacon.Call 11 2 (Some 3)] in
  let b := (RandomnessBeacon.run calls (RandomnessBeacon.new 4 1) []).1 in
  (forall i, is_Some (RandomnessBeacon.values b !! i) <->
     1 + 1 <= Z.of_nat (size (default ∅ (RandomnessBeacon.requests b !! i))))
  /\
  RandomnessBeacon.get_invocation_count b
  = Z.of_nat (size (RandomnessBeacon.values b)).
Proof.
  apply (beacon_release_rule 4 1
           [RandomnessBeacon.Call 7 0 (Some 3);
            RandomnessBeacon.Call 9 0 (Some 3);
            RandomnessBeacon.Call 11 2 (Some 3)]).
  lia.
Defined.

Lemma starved_new n f : beacon_starved f 0 (RandomnessBeacon.new n f).
Proof. repeat split. Qed.

Lemma starved_request f k rnd party b :
  1 <= f -> beacon_starved f k b ->
  (RandomnessBeacon.request rnd party None b).1.2 = k /\
  (RandomnessBeacon.request rnd party None b).2 = None /\
  beacon_starved f (k + 1) (RandomnessBeacon.request rnd party None b).1.1.
Proof.
  intros Hf (Hth & Hidx & Hval & Htot & Hreq).
  destruct (request_effect rnd party None b)
    as (Hidx' & Hth' & Hreqs & Hi & Hret & Hcase).
  cbn zeta in *. cbn [from_option id] in *. rewrite Hidx in *.
  rewrite (Hreq k) in * by lia. cbn [from_option id] in *.
  assert (Hsz : size ({[party]} ∪ (∅ : gset Z)) = 1%nat)
    by (rewrite (right_id_L ∅ (∪)); apply size_singleton).
  rewrite Hsz in Hcase.
  destruct Hcase as [(Hbad & _)|(_ & Hv & Ht)]; [lia|].
  split; [exact Hi|]. split.
  { rewrite Hret, Hv, Hval. apply lookup_empty. }
  split; [congruence|]. split; [exact Hidx'|]. split; [congruence|].
  split; [congruence|].
  intros i Hik. rewrite Hreqs, lookup_insert_ne by lia. apply Hreq. lia.
Qed.

Lemma starved_run f : 1 <= f -> forall calls k b log,
  Forall (fun c => RandomnessBeacon.call_index c = None) calls ->
  beacon_starved f k b ->
  beacon_starved f (k + Z.of_nat (length calls))
                 (RandomnessBeacon.run calls b log).1.
Proof.
  intros Hf. induction calls as [|c calls IH]; intros k b log Hall Hinv.
  - cbn. now rewrite Z.add_0_r.
  - apply Forall_cons in Hall as [Hc Hall].
    cbn [RandomnessBeacon.run]. rewrite Hc.
    destruct (starved_request f k (RandomnessBeacon.call_rnd c)
                (RandomnessBeacon.call_party c) b Hf Hinv) as (_ & _ & Hstep).
    destruct (RandomnessBeacon.request (RandomnessBeacon.call_rnd c)
                (RandomnessBeacon.call_party c) None b) as [[b' i] ret].
    cbn [fst] in Hstep.
    replace (k + Z.of_nat (length (c :: calls)))
      with (k + 1 + Z.of_nat (length calls)) by (cbn [length]; lia).
    apply IH; assumption.
Qed.

(** X18.  With [f >= 1], requests that pass no index are never served:
    each call is given an index of its own, so no index collects the
    [f + 1] requesters.  After any number of such calls no value has
    been generated, and one more such call uses the next index and is
    left waiting. *)
Theorem sequential_requests_starve (n f : Z)
    (calls : list RandomnessBeacon.call) (rnd party : Z) :
  1 <= f ->
  Forall (fun c => RandomnessBeacon.call_index c = None) calls ->
  let b := (RandomnessBeacon.run calls (RandomnessBeacon.new n f) []).1 in
  RandomnessBeacon.values b = ∅ /\
  RandomnessBeacon.get_invocation_count b = 0 /\
  (RandomnessBeacon.request rnd party None b).1.2
  = Z.of_nat (length calls) /\
  (RandomnessBeacon.request rnd party None b).2 = None.
Proof.
  intros Hf Hall b.
  pose proof (starved_run f Hf calls 0 (RandomnessBeacon.new n f) [] Hall
                (starved_new n f)) as Hinv.
  fold b in Hinv. rewrite Z.add_0_l in Hinv.
  destruct (starved_request f _ rnd party b Hf Hinv) as (Hi & Hret & _).
  destruct Hinv as (_ & _ & Hval & Htot & _).
  repeat split; assumption.
Qed.

Lemma sequential_requests_starve_witness :
  let calls := [RandomnessBeacon.Call 7 0 None;
                RandomnessBeacon.Call 9 1 None;
                RandomnessBeacon.Call 11 2 None] in
  let b := (RandomnessBeacon.run calls (RandomnessBeacon.new 4 1) []).1 in
  RandomnessBeacon.values b = ∅ /\
  RandomnessBeacon.get_invocation_count b = 0 /\
  (RandomnessBeacon.request 13 3 None b).1.2 = Z.of_nat (length calls) /\
  (RandomnessBeacon.request 13 3 None b).2 = None.
Proof.
  apply (sequential_requests_starve 4 1
           [RandomnessBeacon.Call 7 0 None;
            RandomnessBeacon.Call 9 1 None;
            RandomnessBeacon.Call 11 2 None] 13 3).
  - lia.
  - repeat constructor.
Defined.

(** ** Binary agreement: coin step, decision rule, tallies *)

(** X19.  With [f >= 1] and a beacon that has only been asked without an
    index (as [aba.py] and [auction.py] do), a party that reaches the
    coin step is left waiting inside [beacon.request]: it draws no coin
    and its state, round included, does not change. *)
Theorem coin_step_never_completes (n f : Z)
    (calls : list RandomnessBeacon.call) (rnd : Z) (a : BinaryAgreement.t) :
  1 <= f ->
  Forall (fun c => RandomnessBeacon.call_index c = None) calls ->
  length (BinaryAgreement.values_with_nf a) <> 1%nat ->
  let b := (RandomnessBeacon.run calls (RandomnessBeacon.new n f) []).1 in
  (BinaryAgreement.decision_step rnd a b).2
  = BinaryAgreement.AwaitingCoin (Z.of_nat (length calls)) /\
  (BinaryAgreement.decision_step rnd a b).1.1 = a.
Proof.
  intros Hf Hall Hsize b.
  assert (E : BinaryAgreement.decision_step rnd a b
              = BinaryAgreement.use_coin rnd a b).
  { unfold BinaryAgreement.decision_step.
    destruct (values_with_nf_cases a) as [H|[H|[H|H]]]; rewrite H in *;
      simpl in Hsize; try reflexivity; lia. }
  rewrite E.
  pose proof (starved_run f Hf calls 0 (RandomnessBeacon.new n f) [] Hall
                (starved_new n f)) as Hinv.
  fold b in Hinv. rewrite Z.add_0_l in Hinv.
  destruct (starved_request f _ rnd (BinaryAgreement.party_id a) b Hf Hinv)
    as (Hi & Hret & _).
  unfold BinaryAgreement.use_coin.
  destruct (RandomnessBeacon.request rnd (BinaryAgreement.party_id a) None b)
    as [[b' i] ret]. cbn [fst snd] in Hi, Hret. subst i ret.
  split; reflexivity.
Qed.

Lemma coin_step_never_completes_witness :
  let b := (RandomnessBeacon.run [RandomnessBeacon.Call 7 1 None]
              (RandomnessBeacon.new 4 1) []).1 in
  (BinaryAgreement.decision_step 5 (coin_party 0) b).2
  = BinaryAgreement.AwaitingCoin
      (Z.of_nat (length [RandomnessBeacon.Call 7 1 None])) /\
  (BinaryAgreement.decision_step 5 (coin_party 0) b).1.1 = coin_party 0.
Proof.
  apply (coin_step_never_completes 4 1 [RandomnessBeacon.Call 7 1 None] 5
           (coin_party 0)).
  - lia.
  - repeat constructor.
  - vm_compute. discriminate.
Defined.

Lemma use_coin_not_decided rnd a b v :
  (BinaryAgreement.use_coin rnd a b).2 <> BinaryAgreement.Decided v.
Proof.
  unfold BinaryAgreement.use_coin.
  destruct (RandomnessBeacon.request rnd (BinaryAgreement.party_id a) None b)
    as [[b' i] [coin|]]; discriminate.
Qed.

(** X20.  The decision rule: the step decides [v] exactly when [v] is the
    only bit whose AUX count for the round has reached [n - f].  It then
    records [decided = True] and [decision = v], and does not touch the
    beacon. *)
Theorem decision_rule (rnd : Z) (a : BinaryAgreement.t)
    (b : RandomnessBeacon.t) (v : Z) :
  let support w :=
    BinaryAgreement.n a - BinaryAgreement.f a
    <= BinaryAgreement.count (BinaryAgreement.aux_count a)
         (BinaryAgreement.round a) (Some w) in
  let res := BinaryAgreement.decision_step rnd a b in
  (res.2 = BinaryAgreement.Decided v <->
   (v = 0 \/ v = 1) /\ support v /\ ~ support (1 - v)) /\
  (res.2 = BinaryAgreement.Decided v ->
   BinaryAgreement.decided res.1.1 = true /\
   BinaryAgreement.decision res.1.1 = Some v /\
   res.1.2 = b).
Proof.
  cbn zeta. unfold BinaryAgreement.decision_step,
    BinaryAgreement.values_with_nf. cbn [List.filter].
  destruct (Z.leb_spec (BinaryAgreement.n a - BinaryAgreement.f a)
              (BinaryAgreement.count (BinaryAgreement.aux_count a)
                 (BinaryAgreement.round a) (Some 0))) as [H0|H0];
    destruct (Z.leb_spec (BinaryAgreement.n a - BinaryAgreement.f a)
                (BinaryAgreement.count (BinaryAgreement.aux_count a)
                   (BinaryAgreement.round a) (Some 1))) as [H1|H1];
    cbn [fst snd BinaryAgreement.decided BinaryAgreement.decision].
  - split; [split|].
    + intros H. now apply use_coin_not_decided in H.
    + intros ([-> | ->] & Hs & Hn); exfalso; apply Hn;
        [change (1 - 0) with 1|change (1 - 1) with 0]; lia.
    + intros H. now apply use_coin_not_decided in H.
  - split; [split|].
    + intros H. injection H as <-. split; [now left|]. split; [exact H0|].
      change (1 - 0) with 1. lia.
    + intros ([-> | ->] & Hs & Hn); [reflexivity|lia].
    + intros H. injection H as <-. auto.
  - split; [split|].
    + intros H. injection H as <-. split; [now right|]. split; [exact H1|].
      change (1 - 1) with 0. lia.
    + intros ([-> | ->] & Hs & Hn); [lia|reflexivity].
    + intros H. injection H as <-. auto.
  - split; [split|].
    + intros H. now apply use_coin_not_decided in H.
    + intros ([-> | ->] & Hs & Hn); lia.
    + intros H. now apply use_coin_not_decided in H.
Qed.

Lemma count_incr counts r v r' v' :
  BinaryAgreement.count (BinaryAgreement.incr counts r v) r' v'
  = BinaryAgreement.count counts r' v'
    + (if bool_decide (r = r' /\ v = v') then 1 else 0).
Proof.
  unfold BinaryAgreement.incr, BinaryAgreement.count at 1.
  destruct (decide (r = r')) as [<-|Hr].
  - rewrite lookup_insert_eq. cbn [from_option id].
    destruct (decide (v = v')) as [<-|Hv].
    + rewrite lookup_insert_eq, bool_decide_eq_true_2 by auto. reflexivity.
    + rewrite lookup_insert_ne, bool_decide_eq_false_2 by tauto.
      unfold BinaryAgreement.count. lia.
  - rewrite lookup_insert_ne, bool_decide_eq_false_2 by tauto.
    unfold BinaryAgreement.count. lia.
Qed.

Lemma total_insert (m : gmap (option Z) Z) (v : option Z) (c : Z) :
  map_fold (fun _ c acc => c + acc) 0 (<[v := c]> m)
  = map_fold (fun _ c acc => c + acc) 0 m + c - default 0 (m !! v).
Proof.
  destruct (m !! v) as [x|] eqn:E.
  - rewrite <- insert_delete_eq.
    rewrite map_fold_insert_L;
      [|intros; lia|apply lookup_delete_eq].
    rewrite (map_fold_delete_L _ _ v x m); [|intros; lia|exact E].
    cbn. lia.
  - rewrite map_fold_insert_L; [|intros; lia|exact E]. cbn. lia.
Qed.

Lemma total_incr counts r v r' :
  BinaryAgreement.total (BinaryAgreement.incr counts r v) r'
  = BinaryAgreement.total counts r' + (if bool_decide (r = r') then 1 else 0).
Proof.
  unfold BinaryAgreement.incr, BinaryAgreement.total at 1.
  destruct (decide (r = r')) as [<-|Hr].
  - rewrite lookup_insert_eq, bool_decide_eq_true_2 by auto.
    cbn [from_option id]. rewrite total_insert.
    unfold BinaryAgreement.total, BinaryAgreement.count. lia.
  - rewrite lookup_insert_ne, bool_decide_eq_false_2 by tauto.
    unfold BinaryAgreement.total. lia.
Qed.

Lemma how_many_cons {A} (test : A -> bool) (x : A) (l : list A) :
  how_many test (x :: l) = (if test x then 1 else 0) + how_many test l.
Proof.
  unfold how_many. cbn [List.filter]. destruct (test x); cbn [length]; lia.
Qed.

Lemma handle_message_instance m a :
  BinaryAgreement.instance_id (BinaryAgreement.handle_message m a)
  = BinaryAgreement.instance_id a.
Proof.
  unfold BinaryAgreement.handle_message, BinaryAgreement._handle_est,
    BinaryAgreement._handle_aux.
  destruct (negb _); [reflexivity|].
  destruct (BinaryAgreement.msg_type m); [| |reflexivity];
    destruct (BinaryAgreement.msg_value m) as [w|]; try reflexivity;
    destruct ((w =? 0) || (w =? 1)); reflexivity.
Qed.

Lemma tallied_instance kind a a' r v :
  BinaryAgreement.instance_id a' = BinaryAgreement.instance_id a ->
  tallied kind a' r v = tallied kind a r v.
Proof. intros H. unfold tallied. now rewrite H. Qed.

Lemma binary_test w : (w =? 0) || (w =? 1) = bool_decide (w = 0 \/ w = 1).
Proof.
  destruct (Z.eqb_spec w 0) as [->|H0]; cbn.
  - now rewrite bool_decide_eq_true_2 by auto.
  - destruct (Z.eqb_spec w 1) as [->|H1].
    + now rewrite bool_decide_eq_true_2 by auto.
    + rewrite bool_decide_eq_false_2; [reflexivity|]. intros [?|?]; lia.
Qed.

(** The effect of one message on the four quantities that the round
    reads. *)
Lemma handle_message_tallies m a r :
  let a' := BinaryAgreement.handle_message m a in
  let one (t : bool) := if t then 1 else 0 in
  (forall v, v = Some 0 \/ v = Some 1 ->
     BinaryAgreement.count (BinaryAgreement.est_count a') r v
     = BinaryAgreement.count (BinaryAgreement.est_count a) r v
       + one (tallied BinaryAgreement.ABA_EST a r v m)) /\
  (forall v, v = None \/ v = Some 0 \/ v = Some 1 ->
     BinaryAgreement.count (BinaryAgreement.aux_count a') r v
     = BinaryAgreement.count (BinaryAgreement.aux_count a) r v
       + one (tallied BinaryAgreement.ABA_AUX a r v m)) /\
  BinaryAgreement.total (BinaryAgreement.est_count a') r
  = BinaryAgreement.total (BinaryAgreement.est_count a) r
    + one (tallied BinaryAgreement.ABA_EST a r (Some 0) m)
    + one (tallied BinaryAgreement.ABA_EST a r (Some 1) m) /\
  BinaryAgreement.total (BinaryAgreement.aux_count a') r
  = BinaryAgreement.total (BinaryAgreement.aux_count a) r
    + one (tallied BinaryAgreement.ABA_AUX a r None m)
    + one (tallied BinaryAgreement.ABA_AUX a r (Some 0) m)
    + one (tallied BinaryAgreement.ABA_AUX a r (Some 1) m).
Proof.
  cbn zeta. unfold BinaryAgreement.handle_message, tallied.
  destruct m as [kind inst mr mv].
  cbn [BinaryAgreement.msg_type BinaryAgreement.msg_instance
       BinaryAgreement.msg_round BinaryAgreement.msg_value].
  destruct (Z.eqb_spec inst (BinaryAgreement.instance_id a)) as [Hi|Hi];
    cbn [negb].
  2:{ destruct kind; cbn; repeat split; intros; lia. }
  assert (Hr : forall (P : Prop) `{Decision P},
            (mr =? r) && bool_decide P = bool_decide (mr = r /\ P)).
  { intros P HP. destruct (Z.eqb_spec mr r) as [->|Hne]; cbn.
    - apply bool_decide_ext. tauto.
    - symmetry. apply bool_decide_eq_false_2. tauto. }
  destruct kind; cbn [andb].
  - (* EST *)
    unfold BinaryAgreement._handle_est.
    destruct mv as [w|].
    + rewrite binary_test. destruct (decide (w = 0 \/ w = 1)) as [Hw|Hw].
      * rewrite bool_decide_eq_true_2 by exact Hw.
        cbn [BinaryAgreement.est_count BinaryAgreement.aux_count].
        split; [|split; [|split]].
        -- intros v _. rewrite count_incr, Hr. reflexivity.
        -- intros v _. lia.
        -- rewrite total_incr, !Hr.
           destruct (decide (mr = r)) as [->|Hne].
           ++ rewrite bool_decide_eq_true_2 by reflexivity.
              destruct Hw as [-> | ->].
              ** rewrite bool_decide_eq_true_2 by auto.
                 rewrite bool_decide_eq_false_2; [lia|].
                 intros [_ ?]; discriminate.
              ** rewrite (bool_decide_eq_false_2 (r = r /\ Some 1 = Some 0));
                   [|intros [_ ?]; discriminate].
                 rewrite bool_decide_eq_true_2 by auto. lia.
           ++ rewrite !bool_decide_eq_false_2 by tauto. lia.
        -- lia.
      * rewrite bool_decide_eq_false_2 by exact Hw.
        split; [|split; [|split]].
        -- intros v Hv. rewrite Hr, bool_decide_eq_false_2; [lia|].
           intros [_ E]. apply Hw.
           destruct Hv as [-> | ->]; injection E as ->; auto.
        -- intros v _. lia.
        -- rewrite !Hr, !bool_decide_eq_false_2; [lia| |];
             intros [_ E]; apply Hw; injection E as ->; auto.
        -- lia.
    + split; [|split; [|split]].
      * intros v Hv. rewrite Hr, bool_decide_eq_false_2; [lia|].
        intros [_ E]. destruct Hv as [-> | ->]; discriminate.
      * intros v _. lia.
      * rewrite !Hr, !bool_decide_eq_false_2; [lia| |];
          intros [_ E]; discriminate.
      * lia.
  - (* AUX *)
    unfold BinaryAgreement._handle_aux.
    assert (Hacc : match mv with
                   | Some w => (w =? 0) || (w =? 1)
                   | None => true
                   end
                   = bool_decide (mv = None \/ mv = Some 0 \/ mv = Some 1)).
    { destruct mv as [w|].
      - rewrite binary_test. apply bool_decide_ext. split.
        + intros [-> | ->]; auto.
        + intros [E|[E|E]]; [discriminate|injection E as ->; auto
                            |injection E as ->; auto].
      - symmetry. apply bool_decide_eq_true_2. auto. }
    rewrite Hacc.
    destruct (decide (mv = None \/ mv = Some 0 \/ mv = Some 1)) as [Hw|Hw].
    + rewrite bool_decide_eq_true_2 by exact Hw.
      cbn [BinaryAgreement.est_count BinaryAgreement.aux_count].
      split; [|split; [|split]].
      * intros v _. lia.
      * intros v _. rewrite count_incr, Hr. reflexivity.
      * lia.
      * rewrite total_incr, !Hr.
        destruct (decide (mr = r)) as [->|Hne].
        -- rewrite bool_decide_eq_true_2 by reflexivity.
           destruct Hw as [-> | [-> | ->]].
           ++ rewrite (bool_decide_eq_true_2 (r = r /\ None = None)) by auto.
              rewrite !bool_decide_eq_false_2; [lia| |];
                intros [_ ?]; discriminate.
           ++ rewrite (bool_decide_eq_true_2 (r = r /\ Some 0 = Some 0))
                by auto.
              rewrite !bool_decide_eq_false_2; [lia| |];
                intros [_ ?]; discriminate.
           ++ rewrite (bool_decide_eq_true_2 (r = r /\ Some 1 = Some 1))
                by auto.
              rewrite !bool_decide_eq_false_2; [lia| |];
                intros [_ ?]; discriminate.
        -- rewrite !bool_decide_eq_false_2 by tauto. lia.
    + rewrite bool_decide_eq_false_2 by exact Hw.
      split; [|split; [|split]].
      * intros v _. lia.
      * intros v Hv. rewrite Hr, bool_decide_eq_false_2; [lia|].
        intros [_ E]. apply Hw. now rewrite E.
      * lia.
      * rewrite !Hr, !bool_decide_eq_false_2; [lia| | |];
          intros [_ E]; apply Hw; rewrite E; auto.
  - cbn. repeat split; intros; lia.
Qed.

Lemma handle_messages_tallies r : forall msgs a,
  let a' := BinaryAgreement.handle_messages msgs a in
  (forall v, v = Some 0 \/ v = Some 1 ->
     BinaryAgreement.count (BinaryAgreement.est_count a') r v
     = BinaryAgreement.count (BinaryAgreement.est_count a) r v
       + how_many (tallied BinaryAgreement.ABA_EST a r v) msgs) /\
  (forall v, v = None \/ v = Some 0 \/ v = Some 1 ->
     BinaryAgreement.count (BinaryAgreement.aux_count a') r v
     = BinaryAgreement.count (BinaryAgreement.aux_count a) r v
       + how_many (tallied BinaryAgreement.ABA_AUX a r v) msgs) /\
  BinaryAgreement.total (BinaryAgreement.est_count a') r
  = BinaryAgreement.total (BinaryAgreement.est_count a) r
    + how_many (tallied BinaryAgreement.ABA_EST a r (Some 0)) msgs
    + how_many (tallied BinaryAgreement.ABA_EST a r (Some 1)) msgs /\
  BinaryAgreement.total (BinaryAgreement.aux_count a') r
  = BinaryAgreement.total (BinaryAgreement.aux_count a) r
    + how_many (tallied BinaryAgreement.ABA_AUX a r None) msgs
    + how_many (tallied BinaryAgreement.ABA_AUX a r (Some 0)) msgs
    + how_many (tallied BinaryAgreement.ABA_AUX a r (Some 1)) msgs.
Proof.
  induction msgs as [|m msgs IH]; intros a; cbn zeta.
  - unfold how_many. cbn. repeat split; intros; lia.
  - unfold BinaryAgreement.handle_messages. cbn [fold_left].
    fold (BinaryAgreement.handle_messages msgs
            (BinaryAgreement.handle_message m a)).
    destruct (IH (BinaryAgreement.handle_message m a))
      as (He & Ha & Hte & Hta).
    destruct (handle_message_tallies m a r) as (Se & Sa & Ste & Sta).
    pose proof (handle_message_instance m a) as Hinst.
    split; [|split; [|split]].
    + intros v Hv. rewrite (He v Hv), (Se v Hv).
      rewrite (tallied_instance _ a (BinaryAgreement.handle_message m a) r v)
        by exact Hinst.
      rewrite how_many_cons. lia.
    + intros v Hv. rewrite (Ha v Hv), (Sa v Hv).
      rewrite (tallied_instance _ a (BinaryAgreement.handle_message m a) r v)
        by exact Hinst.
      rewrite how_many_cons. lia.
    + rewrite Hte, Ste.
      rewrite !(tallied_instance _ a (BinaryAgreement.handle_message m a) r)
        by exact Hinst.
      rewrite !how_many_cons. lia.
    + rewrite Hta, Sta.
      rewrite !(tallied_instance _ a (BinaryAgreement.handle_message m a) r)
        by exact Hinst.
      rewrite !how_many_cons. lia.
Qed.

(** X21.  The tallies count messages.  After a party has handled a list
    of messages, each EST counter of a round has grown by the number of
    EST messages of the party's instance and that round that carry the
    bit, each AUX counter by the number of such AUX messages carrying the
    bit or [None], and the sums that the two waits of the round read have
    grown by the number of accepted EST, respectively AUX, messages;
    messages of other instances, of other types or with other values
    change none of them. *)
Theorem tallies_count_messages (msgs : list BinaryAgreement.message)
    (a : BinaryAgreement.t) (r : Z) :
  let a' := BinaryAgreement.handle_messages msgs a in
  Forall (fun v =>
     BinaryAgreement.count (BinaryAgreement.est_count a') r v
     = BinaryAgreement.count (BinaryAgreement.est_count a) r v
       + how_many (tallied BinaryAgreement.ABA_EST a r v) msgs)
    [Some 0; Some 1] /\
  Forall (fun v =>
     BinaryAgreement.count (BinaryAgreement.aux_count a') r v
     = BinaryAgreement.count (BinaryAgreement.aux_count a) r v
       + how_many (tallied BinaryAgreement.ABA_AUX a r v) msgs)
    [None; Some 0; Some 1] /\
  BinaryAgreement.total (BinaryAgreement.est_count a') r
  = BinaryAgreement.total (BinaryAgreement.est_count a) r
    + how_many (tallied BinaryAgreement.ABA_EST a r (Some 0)) msgs
    + how_many (tallied BinaryAgreement.ABA_EST a r (Some 1)) msgs /\
  BinaryAgreement.total (BinaryAgreement.aux_count a') r
  = BinaryAgreement.total (BinaryAgreement.aux_count a) r
    + how_many (tallied BinaryAgreement.ABA_AUX a r None) msgs
    + how_many (tallied BinaryAgreement.ABA_AUX a r (Some 0)) msgs
    + how_many (tallied BinaryAgreement.ABA_AUX a r (Some 1)) msgs.
Proof.
  destruct (handle_messages_tallies r msgs a) as (He & Ha & Hte & Hta).
  cbn zeta in *. split; [|split; [|split]].
  - repeat constructor; apply He; auto.
  - repeat constructor; apply Ha; auto.
  - exact Hte.
  - exact Hta.
Qed.

(** ** The simplified auction, end to end *)

Lemma blinded_output_spec o r rho :
  SimplifiedAuction.blinded_output o r rho = Field.embed o.
Proof.
  unfold SimplifiedAuction.blinded_output, Field.sub, Field.add, Field.embed.
  apply eqp_mod_eq. rewrite !mod_eqp. eqp_ring.
Qed.

Lemma bids_of_spec (bids : gmap Z Z) : forall participating,
  (forall p, List.In p participating -> is_Some (bids !! p)) ->
  exists bs,
    SimplifiedAuction.bids_of bids participating = Some bs /\
    length bs = length participating /\
    forall j p, participating !! j = Some p -> bs !! j = bids !! p.
Proof.
  induction participating as [|p rest IH]; intros Hall.
  - exists []. repeat split; auto. intros j p Hj. discriminate.
  - destruct (Hall p) as [b Hb]; [now left|].
    destruct IH as (bs & Hbs & Hlen & Hnth);
      [intros q Hq; apply Hall; now right|].
    exists (b :: bs). cbn [SimplifiedAuction.bids_of]. rewrite Hb, Hbs.
    split; [reflexivity|]. split; [cbn [length]; lia|].
    intros [|j] q Hj.
    + injection Hj as <-. now rewrite Hb.
    + now apply Hnth.
Qed.

Lemma elem_of_range (n q : Z) : List.In q (range n) <-> 0 <= q < n.
Proof.
  unfold range. rewrite List.in_map_iff. split.
  - intros (x & <- & Hx). apply List.in_seq in Hx. lia.
  - intros Hq. exists (Z.to_nat q). split; [lia|]. apply List.in_seq. lia.
Qed.

Lemma outputs_lookup (g : Z -> Z) (q : Z) : forall l (acc : gmap Z Z),
  fold_left (fun outputs party_id => <[party_id := g party_id]> outputs) l acc
  !! q
  = if decide (q ∈ l) then Some (g q) else acc !! q.
Proof.
  induction l as [|x l IH]; intros acc; cbn [fold_left].
  - rewrite decide_False by apply not_elem_of_nil. reflexivity.
  - rewrite IH.
    destruct (decide (q ∈ l)) as [Hin|Hnin].
    + rewrite decide_True by (apply elem_of_cons; now right). reflexivity.
    + destruct (decide (x = q)) as [->|Hne].
      * rewrite decide_True by (apply elem_of_cons; now left).
        apply lookup_insert_eq.
      * rewrite decide_False
          by (rewrite elem_of_cons; intros [?|?]; [congruence|contradiction]).
        now apply lookup_insert_ne.
Qed.

Lemma sorted_positions (l : list Z) (i j : nat) (x y : Z) :
  StronglySorted Z.le l ->
  l !! i = Some x -> l !! j = Some y -> x < y -> (i < j)%nat.
Proof.
  intros Hs Hi Hj Hxy.
  destruct (Nat.lt_ge_cases i j) as [Hlt|Hge]; [exact Hlt|exfalso].
  destruct (Nat.eq_dec i j) as [->|Hne]; [rewrite Hi in Hj; injection Hj; lia|].
  assert (Hji : (j < i)%nat) by lia.
  rewrite <- (take_drop i l) in Hs.
  apply StronglySorted_app in Hs as (Hcross & _ & _).
  assert (y <= x); [|lia].
  apply Hcross.
  - apply list_elem_of_lookup. exists j. now rewrite lookup_take_lt.
  - apply list_elem_of_lookup. exists 0%nat.
    rewrite lookup_drop, Nat.add_0_r. exact Hi.
Qed.

(** X22.  The result of the simplified auction.  When at least two
    parties take part ([n - f >= 2], at least two bidders) and every bid
    is a field element that fits [k] bits, [run_auction] returns a
    dictionary over the parties [0 .. n-1] in which the winner's entry is
    the second price and every other entry is [0], whatever the random
    masks are.  The participants are the [n - f] bidders with the
    smallest ids; the winner is the participant with the highest bid, the
    one with the smallest id among equals; the second price is the
    highest bid of the other participants. *)
Theorem simple_auction_outcome (n f k : Z) (bids : gmap Z Z)
    (rnd : Z -> Z * Z) :
  0 <= k -> 2 <= n - f -> 2 <= Z.of_nat (size bids) ->
  (forall p v, bids !! p = Some v ->
     0 <= v < 2 ^ k /\ Field.is_valid v = true) ->
  let participating := slice_to (n - f) (sorted_keys bids) in
  exists outputs winner top price,
    SimplifiedAuction.run_auction n f k bids rnd = Some outputs /\
    List.In winner participating /\ bids !! winner = Some top /\
    (forall q v, List.In q participating -> bids !! q = Some v ->
       v <= top /\ (q < winner -> v < top) /\ (q <> winner -> v <= price)) /\
    (exists q, List.In q participating /\ q <> winner /\
               bids !! q = Some price) /\
    forall q, outputs !! q
              = if decide (0 <= q < n)
                then Some (if decide (q = winner) then price else 0)
                else None.
Proof.
  intros Hk Hnf Hsize Hvalid participating.
  destruct (sorted_keys_spec bids) as (Hnd & Hlen & Hin).
  assert (Hsorted : StronglySorted Z.le (sorted_keys bids))
    by apply (StronglySorted_merge_sort Z.le).
  assert (Htake : participating = take (Z.to_nat (n - f)) (sorted_keys bids)).
  { unfold participating, slice_to.
    destruct (Z.leb_spec 0 (n - f)); [reflexivity|lia]. }
  assert (Hplen : (2 <= length participating)%nat).
  { rewrite Htake, length_take. lia. }
  assert (Hpin : forall p, List.In p participating -> is_Some (bids !! p)).
  { intros p Hp. apply Hin. rewrite Htake in Hp.
    apply list_elem_of_In in Hp. apply list_elem_of_In.
    now apply elem_of_take in Hp as (i & Hp & _); apply list_elem_of_lookup_2 in Hp. }
  assert (Hpsorted : StronglySorted Z.le participating).
  { rewrite <- (take_drop (Z.to_nat (n - f)) (sorted_keys bids)) in Hsorted.
    apply StronglySorted_app in Hsorted as (_ & Hs & _). now rewrite Htake. }
  assert (Hpnd : NoDup participating).
  { rewrite Htake. apply (sublist_NoDup _ (sorted_keys bids));
      [now apply NoDup_ListNoDup|apply sublist_take]. }
  destruct (bids_of_spec bids participating Hpin) as (bs & Hbs & Hbslen & Hbsn).
  assert (Hbsvalid :
            Forall (fun v => 0 <= v < 2 ^ k /\ Field.is_valid v = true) bs).
  { apply Forall_forall. intros v Hv.
    apply list_elem_of_lookup in Hv as (j & Hj).
    destruct (lookup_lt_is_Some_2 participating j) as [p Hp];
      [rewrite <- Hbslen; exact (lookup_lt_Some _ _ _ Hj)|].
    rewrite (Hbsn j p Hp) in Hj. exact (Hvalid p v Hj). }
  destruct (second_price_auction_outcome bs k Hk) as
    (i & top & price & Hi & Hspa & Hb & Hothers & (m & Hmi & Hm));
    [lia|exact Hbsvalid|].
  destruct (lookup_lt_is_Some_2 participating i) as [winner Hw];
    [rewrite <- Hbslen; exact (lookup_lt_Some _ _ _ Hi)|].
  assert (Hget : SimplifiedAuction.getitem participating (Z.of_nat i)
                 = Some winner).
  { unfold SimplifiedAuction.getitem.
    pose proof (lookup_lt_Some _ _ _ Hw) as Hlt.
    destruct (Z.leb_spec 0 (Z.of_nat i)); [|lia].
    destruct (Z.ltb_spec (Z.of_nat i) (Z.of_nat (length participating)));
      [|lia].
    cbn [andb]. now rewrite Nat2Z.id. }
  assert (Hprice : Field.is_valid price = true /\ Field.embed price = price).
  { rewrite Forall_forall in Hbsvalid.
    destruct (Hbsvalid price) as [_ Hv];
      [apply list_elem_of_lookup; now exists m|].
    split; [exact Hv|]. unfold Field.embed. now apply valid_mod. }
  destruct Hprice as [_ Hprice].
  set (g := fun party_id =>
              SimplifiedAuction.blinded_output
                (if party_id =? winner then price else 0)
                (rnd party_id).1 (rnd party_id).2).
  exists (fold_left (fun outputs party_id => <[party_id := g party_id]> outputs)
            (range n) ∅), winner, top, price.
  split; [|split; [|split; [|split; [|split]]]].
  - unfold SimplifiedAuction.run_auction. fold participating.
    rewrite Hbs, Hspa, Hget. f_equal.
    generalize (∅ : gmap Z Z). generalize (range n).
    induction l as [|x l IH]; intros acc; [reflexivity|].
    cbn [fold_left]. rewrite <- IH. f_equal. unfold g.
    destruct (rnd x) as [r_i rho]. reflexivity.
  - apply list_elem_of_In, list_elem_of_lookup. now exists i.
  - now rewrite <- (Hbsn i winner Hw).
  - intros q v Hq Hv.
    apply list_elem_of_In, list_elem_of_lookup in Hq as (j & Hj).
    assert (Hbj : bs !! j = Some v) by now rewrite (Hbsn j q Hj).
    split; [destruct (Hb j v Hbj); lia|]. split.
    + intros Hlt.
      pose proof (sorted_positions participating j i q winner Hpsorted
                    Hj Hw Hlt) as Hji.
      destruct (Hb j v Hbj); lia.
    + intros Hne. apply (Hothers j v Hbj). intros ->. congruence.
  - destruct (lookup_lt_is_Some_2 participating m) as [q Hq];
      [rewrite <- Hbslen; exact (lookup_lt_Some _ _ _ Hm)|].
    exists q. split; [apply list_elem_of_In, list_elem_of_lookup; now exists m|].
    split.
    + intros ->. apply Hmi.
      exact (NoDup_lookup participating m i winner Hpnd Hq Hw).
    + now rewrite <- (Hbsn m q Hq).
  - intros q.
    rewrite (outputs_lookup g).
    destruct (decide (0 <= q < n)) as [Hq|Hq].
    + rewrite decide_True by now apply list_elem_of_In, elem_of_range.
      f_equal. unfold g. rewrite blinded_output_spec.
      destruct (Z.eqb_spec q winner) as [->|Hne].
      * now rewrite decide_True.
      * rewrite decide_False by exact Hne. apply mod_0_M.
    + rewrite decide_False by now rewrite list_elem_of_In, elem_of_range.
      apply lookup_empty.
Qed.

Lemma simple_auction_outcome_witness :
  let bids : gmap Z Z := list_to_map [(0, 10); (1, 20); (2, 15); (3, 25)] in
  let participating := slice_to (4 - 1) (sorted_keys bids) in
  exists outputs winner top price,
    SimplifiedAuction.run_auction 4 1 5 bids (fun _ => (3, 4)) = Some outputs /\
    List.In winner participating /\ bids !! winner = Some top /\
    (forall q v, List.In q participating -> bids !! q = Some v ->
       v <= top /\ (q < winner -> v < top) /\ (q <> winner -> v <= price)) /\
    (exists q, List.In q participating /\ q <> winner /\
               bids !! q = Some price) /\
    forall q, outputs !! q
              = if decide (0 <= q < 4)
                then Some (if decide (q = winner) then price else 0)
                else None.
Proof.
  intros bids.
  apply (simple_auction_outcome 4 1 5 bids (fun _ => (3, 4)));
    [lia|lia|vm_compute; discriminate|].
  change (map_Forall (fun (_ : Z) v => 0 <= v < 2 ^ 5 /\
                                       Field.is_valid v = true) bids).
  apply map_Forall_to_list.
  assert (E : map_to_list bids = [(3, 25); (2, 15); (1, 20); (0, 10)])
    by (vm_compute; reflexivity).
  rewrite E.
  repeat (apply List.Forall_cons;
          [split; [cbn [uncurry]; lia|vm_compute; reflexivity]|]).
  apply List.Forall_nil.
Defined.

(** ** Complete secret sharing: the sub-share exchange and reconstruction *)


(** An honest dealer with a polynomial that is not symmetric: party [2]
    is unhappy with the sub-share of party [1]. *)
Example honest_subshare_rejected :
  let p := BiVariatePolynomial.new 1 (Some 42) (fun a b => a + 2 * b) in
  (BiVariatePolynomial.eval p 2 1 =? BiVariatePolynomial.eval p 1 2) = false.
Proof. vm_compute. reflexivity. Qed.

Lemma reconstruct_wait_stuck (f : Z) : 0 <= f -> forall fuel,
  CompleteSecretSharing.reconstruct_wait fuel f ∅ = None.
Proof.
  intros Hf. induction fuel as [|fuel IH]; [reflexivity|].
  cbn [CompleteSecretSharing.reconstruct_wait].
  rewrite map_size_empty.
  destruct (Z.ltb_spec (Z.of_nat 0) (f + 1)); [exact IH|lia].
Qed.

(** X24.  [CompleteSecretSharing.reconstruct] never returns when
    [f >= 0]: its dictionary [shares] is a local variable that nothing
    fills, so the test [len(shares) < f + 1] holds at every iteration. *)
Theorem css_reconstruct_never_returns (s : CompleteSecretSharing.t)
    (dealer : Z) (fuel : nat) :
  0 <= CompleteSecretSharing.f s ->
  CompleteSecretSharing.reconstruct fuel s dealer
  = CompleteSecretSharing.Collecting.
Proof.
  intros Hf. unfold CompleteSecretSharing.reconstruct.
  now rewrite reconstruct_wait_stuck.
Qed.

Lemma css_reconstruct_never_returns_witness :
  CompleteSecretSharing.reconstruct 1000 (CompleteSecretSharing.new 0 4 1) 0
  = CompleteSecretSharing.Collecting.
Proof.
  apply (css_reconstruct_never_returns (CompleteSecretSharing.new 0 4 1) 0
           1000).
  simpl. lia.
Defined.

(** ** Reliable broadcast *)

Ltac rbc_unfold :=
  unfold ReliableBroadcast.handle_message, ReliableBroadcast._handle_val,
    ReliableBroadcast._handle_echo, ReliableBroadcast._handle_ready,
    ReliableBroadcast.ready_unset,
    ReliableBroadcast.set_val_received, ReliableBroadcast.set_echo_count,
    ReliableBroadcast.set_ready_count, ReliableBroadcast.set_delivered,
    ReliableBroadcast.set_echo_sent, ReliableBroadcast.set_ready_sent;
  cbn [ReliableBroadcast.msg_type ReliableBroadcast.msg_sender
       ReliableBroadcast.msg_value
       ReliableBroadcast.party_id ReliableBroadcast.n ReliableBroadcast.f
       ReliableBroadcast.echo_threshold ReliableBroadcast.ready_threshold
       ReliableBroadcast.deliver_threshold ReliableBroadcast.val_received
       ReliableBroadcast.echo_count ReliableBroadcast.ready_count
       ReliableBroadcast.delivered ReliableBroadcast.echo_sent
       ReliableBroadcast.ready_sent].

Ltac rbc_unfold_flag :=
  unfold ReliableBroadcast.handle_message, ReliableBroadcast._handle_val,
    ReliableBroadcast._handle_echo, ReliableBroadcast._handle_ready,
    ReliableBroadcast.set_val_received, ReliableBroadcast.set_echo_count,
    ReliableBroadcast.set_ready_count, ReliableBroadcast.set_delivered,
    ReliableBroadcast.set_echo_sent, ReliableBroadcast.set_ready_sent;
  cbn [ReliableBroadcast.msg_type ReliableBroadcast.msg_sender
       ReliableBroadcast.msg_value
       ReliableBroadcast.party_id ReliableBroadcast.n ReliableBroadcast.f
       ReliableBroadcast.echo_threshold ReliableBroadcast.ready_threshold
       ReliableBroadcast.deliver_threshold ReliableBroadcast.val_received
       ReliableBroadcast.echo_count ReliableBroadcast.ready_count
       ReliableBroadcast.delivered ReliableBroadcast.echo_sent
       ReliableBroadcast.ready_sent].

Ltac rbc_case :=
  match goal with
  | |- context [if ?b then _ else _] => destruct b eqn:?
  | |- context [match ?x with Some _ => _ | None => _ end] => destruct x eqn:?
  end;
  cbn [fst snd ReliableBroadcast.party_id ReliableBroadcast.n
       ReliableBroadcast.f
       ReliableBroadcast.echo_threshold ReliableBroadcast.ready_threshold
       ReliableBroadcast.deliver_threshold ReliableBroadcast.val_received
       ReliableBroadcast.echo_count ReliableBroadcast.ready_count
       ReliableBroadcast.delivered ReliableBroadcast.echo_sent
       ReliableBroadcast.ready_sent].

Ltac rbc_cases :=
  rbc_unfold; repeat rbc_case;
  cbn [fst snd ReliableBroadcast.party_id ReliableBroadcast.n
       ReliableBroadcast.f
       ReliableBroadcast.echo_threshold ReliableBroadcast.ready_threshold
       ReliableBroadcast.deliver_threshold ReliableBroadcast.val_received
       ReliableBroadcast.echo_count ReliableBroadcast.ready_count
       ReliableBroadcast.delivered ReliableBroadcast.echo_sent
       ReliableBroadcast.ready_sent].

Ltac rbc_cases_flag :=
  rbc_unfold_flag; repeat rbc_case;
  cbn [fst snd ReliableBroadcast.party_id ReliableBroadcast.n
       ReliableBroadcast.f
       ReliableBroadcast.echo_threshold ReliableBroadcast.ready_threshold
       ReliableBroadcast.deliver_threshold ReliableBroadcast.val_received
       ReliableBroadcast.echo_count ReliableBroadcast.ready_count
       ReliableBroadcast.delivered ReliableBroadcast.echo_sent
       ReliableBroadcast.ready_sent].

Lemma rbc_static m s :
  ReliableBroadcast.echo_threshold (ReliableBroadcast.handle_message m s).1
  = ReliableBroadcast.echo_threshold s /\
  ReliableBroadcast.ready_threshold (ReliableBroadcast.handle_message m s).1
  = ReliableBroadcast.ready_threshold s /\
  ReliableBroadcast.deliver_threshold (ReliableBroadcast.handle_message m s).1
  = ReliableBroadcast.deliver_threshold s.
Proof.
  destruct m as [[] sd v]; rbc_cases; auto.
Qed.

Lemma rbc_increment (sd' sd : Z) (v' v : option Z) :
  (if bool_decide (sd' = sd /\ v' = v) then 1 else 0)
  = (if (sd' =? sd) && bool_decide (v' = v) then 1 else 0).
Proof.
  destruct (Z.eqb_spec sd' sd) as [->|Hne]; cbn [andb].
  - rewrite (bool_decide_ext (sd = sd /\ v' = v) (v' = v)) by tauto.
    reflexivity.
  - rewrite bool_decide_eq_false_2 by tauto. reflexivity.
Qed.

Lemma rbc_ready_count_step m s sd v :
  BinaryAgreement.count
    (ReliableBroadcast.ready_count (ReliableBroadcast.handle_message m s).1)
    sd v
  = BinaryAgreement.count (ReliableBroadcast.ready_count s) sd v
    + (if is_ready_msg sd v m then 1 else 0).
Proof.
  unfold is_ready_msg. destruct m as [[] sd' v'];
    cbn [ReliableBroadcast.msg_type ReliableBroadcast.msg_sender
         ReliableBroadcast.msg_value];
    try (rbc_cases; lia).
  rewrite <- rbc_increment.
  set (inc := if bool_decide (sd' = sd /\ v' = v) then 1 else 0).
  assert (Hinc : BinaryAgreement.count
                   (BinaryAgreement.incr (ReliableBroadcast.ready_count s)
                      sd' v') sd v
                 = BinaryAgreement.count (ReliableBroadcast.ready_count s) sd v
                   + inc) by apply count_incr.
  clearbody inc. rbc_cases; exact Hinc.
Qed.

Lemma rbc_echo_count_step m s sd v :
  BinaryAgreement.count
    (ReliableBroadcast.echo_count (ReliableBroadcast.handle_message m s).1)
    sd v
  = BinaryAgreement.count (ReliableBroadcast.echo_count s) sd v
    + (if is_echo_msg sd v m then 1 else 0).
Proof.
  unfold is_echo_msg. destruct m as [[] sd' v'];
    cbn [ReliableBroadcast.msg_type ReliableBroadcast.msg_sender
         ReliableBroadcast.msg_value];
    try (rbc_cases; lia).
  rewrite <- rbc_increment.
  set (inc := if bool_decide (sd' = sd /\ v' = v) then 1 else 0).
  assert (Hinc : BinaryAgreement.count
                   (BinaryAgreement.incr (ReliableBroadcast.echo_count s)
                      sd' v') sd v
                 = BinaryAgreement.count (ReliableBroadcast.echo_count s) sd v
                   + inc) by apply count_incr.
  clearbody inc. rbc_cases; exact Hinc.
Qed.

Lemma rbc_delivered_latch m s sd v :
  ReliableBroadcast.delivered s !! sd = Some v ->
  ReliableBroadcast.delivered (ReliableBroadcast.handle_message m s).1 !! sd
  = Some v.
Proof.
  intros H. destruct m as [[] sd' v']; rbc_cases; try exact H.
  all: destruct (decide (sd' = sd)) as [->|Hne];
    [|now rewrite lookup_insert_ne].
  all: match goal with
       | E : _ && negb (bool_decide _) = true |- _ =>
           apply andb_prop in E as [_ E];
           apply negb_true_iff, bool_decide_eq_false in E;
           exfalso; apply E; rewrite H; eauto
       end.
Qed.

Lemma rbc_delivered_step m s sd v :
  ReliableBroadcast.delivered (ReliableBroadcast.handle_message m s).1 !! sd
  = Some v ->
  ReliableBroadcast.delivered s !! sd = Some v \/
  ReliableBroadcast.deliver_threshold s
  <= BinaryAgreement.count
       (ReliableBroadcast.ready_count
          (ReliableBroadcast.handle_message m s).1) sd v.
Proof.
  destruct m as [[] sd' v']; rbc_cases; intros H; auto.
  all: destruct (decide (sd' = sd)) as [->|Hne];
    [|rewrite lookup_insert_ne in H by exact Hne; now left].
  all: rewrite lookup_insert_eq in H; injection H as ->; right.
  all: match goal with
       | E : _ && negb (bool_decide _) = true |- _ =>
           apply andb_prop in E as [E _]; now apply Z.leb_le in E
       end.
Qed.

Lemma how_many_nonneg {A} (test : A -> bool) (l : list A) :
  0 <= how_many test l.
Proof. unfold how_many. lia. Qed.

Lemma how_many_app {A} (test : A -> bool) (l1 l2 : list A) :
  how_many test (l1 ++ l2) = how_many test l1 + how_many test l2.
Proof. unfold how_many. rewrite List.filter_app, length_app. lia. Qed.

Lemma rbc_run_cons m msgs s sent :
  ReliableBroadcast.run (m :: msgs) s sent
  = ReliableBroadcast.run msgs (ReliableBroadcast.handle_message m s).1
      (sent ++ (ReliableBroadcast.handle_message m s).2).
Proof.
  cbn [ReliableBroadcast.run].
  now destruct (ReliableBroadcast.handle_message m s).
Qed.

Lemma rbc_run_static : forall msgs s sent,
  ReliableBroadcast.echo_threshold (ReliableBroadcast.run msgs s sent).1
  = ReliableBroadcast.echo_threshold s /\
  ReliableBroadcast.ready_threshold (ReliableBroadcast.run msgs s sent).1
  = ReliableBroadcast.ready_threshold s /\
  ReliableBroadcast.deliver_threshold (ReliableBroadcast.run msgs s sent).1
  = ReliableBroadcast.deliver_threshold s.
Proof.
  induction msgs as [|m msgs IH]; intros s sent; [auto|].
  rewrite rbc_run_cons.
  destruct (IH (ReliableBroadcast.handle_message m s).1
              (sent ++ (ReliableBroadcast.handle_message m s).2))
    as (-> & -> & ->).
  apply rbc_static.
Qed.

Lemma rbc_run_ready_count sd v : forall msgs s sent,
  BinaryAgreement.count
    (ReliableBroadcast.ready_count (ReliableBroadcast.run msgs s sent).1) sd v
  = BinaryAgreement.count (ReliableBroadcast.ready_count s) sd v
    + how_many (is_ready_msg sd v) msgs.
Proof.
  induction msgs as [|m msgs IH]; intros s sent.
  - unfold how_many. cbn. lia.
  - rewrite rbc_run_cons, IH, rbc_ready_count_step, how_many_cons. lia.
Qed.

Lemma rbc_run_echo_count sd v : forall msgs s sent,
  BinaryAgreement.count
    (ReliableBroadcast.echo_count (ReliableBroadcast.run msgs s sent).1) sd v
  = BinaryAgreement.count (ReliableBroadcast.echo_count s) sd v
    + how_many (is_echo_msg sd v) msgs.
Proof.
  induction msgs as [|m msgs IH]; intros s sent.
  - unfold how_many. cbn. lia.
  - rewrite rbc_run_cons, IH, rbc_echo_count_step, how_many_cons. lia.
Qed.

Lemma rbc_run_latch sd v : forall msgs s sent,
  ReliableBroadcast.delivered s !! sd = Some v ->
  ReliableBroadcast.delivered (ReliableBroadcast.run msgs s sent).1 !! sd
  = Some v.
Proof.
  induction msgs as [|m msgs IH]; intros s sent H; [exact H|].
  rewrite rbc_run_cons. apply IH. now apply rbc_delivered_latch.
Qed.

Lemma rbc_run_delivered sd v : forall msgs s sent,
  ReliableBroadcast.delivered (ReliableBroadcast.run msgs s sent).1 !! sd
  = Some v ->
  ReliableBroadcast.delivered s !! sd = Some v \/
  ReliableBroadcast.deliver_threshold s
  <= BinaryAgreement.count
       (ReliableBroadcast.ready_count (ReliableBroadcast.run msgs s sent).1)
       sd v.
Proof.
  induction msgs as [|m msgs IH]; intros s sent H; [now left|].
  rewrite rbc_run_cons in *.
  destruct (IH _ _ H) as [H1|H1].
  - destruct (rbc_delivered_step m s sd v H1) as [H2|H2]; [now left|right].
    rewrite rbc_run_ready_count.
    pose proof (how_many_nonneg (is_ready_msg sd v) msgs). lia.
  - right. destruct (rbc_static m s) as (_ & _ & <-). exact H1.
Qed.

Lemma count_empty r v : BinaryAgreement.count ∅ r v = 0.
Proof. unfold BinaryAgreement.count. now rewrite lookup_empty. Qed.

(** X25.  Delivery.  In every sequence of messages handled by a fresh
    instance, a value [v] recorded as delivered for a sender has been
    carried by at least [2f + 1] READY messages for that sender; it is
    what [deliver] returns; and no later message changes it. *)
Theorem rbc_delivery_rule (party_id n f : Z)
    (msgs : list ReliableBroadcast.message) (sd : Z) (v : option Z) :
  let s := (ReliableBroadcast.run msgs
              (ReliableBroadcast.new party_id n f) []).1 in
  ReliableBroadcast.delivered s !! sd = Some v ->
  2 * f + 1 <= how_many (is_ready_msg sd v) msgs /\
  ReliableBroadcast.deliver sd s = Some v /\
  forall more sent,
    ReliableBroadcast.deliver sd (ReliableBroadcast.run more s sent).1
    = Some v.
Proof.
  intros s H. split; [|split].
  - destruct (rbc_run_delivered sd v msgs _ _ H) as [H1|H1].
    + cbn in H1. rewrite lookup_empty in H1. discriminate.
    + fold s in H1. unfold s in H1 at 1.
      rewrite rbc_run_ready_count in H1. cbn in H1.
      rewrite count_empty in H1. lia.
  - exact H.
  - intros more sent. now apply rbc_run_latch.
Qed.

Lemma rbc_delivery_rule_witness :
  let msgs := [ReliableBroadcast.Message ReliableBroadcast.RBC_READY 2 (Some 9);
               ReliableBroadcast.Message ReliableBroadcast.RBC_READY 2 (Some 9);
               ReliableBroadcast.Message ReliableBroadcast.RBC_READY 2 (Some 9)]
  in
  let s := (ReliableBroadcast.run msgs (ReliableBroadcast.new 0 4 1) []).1 in
  2 * 1 + 1 <= how_many (is_ready_msg 2 (Some 9)) msgs /\
  ReliableBroadcast.deliver 2 s = Some (Some 9) /\
  forall more sent,
    ReliableBroadcast.deliver 2 (ReliableBroadcast.run more s sent).1
    = Some (Some 9).
Proof.
  apply (rbc_delivery_rule 0 4 1
           [ReliableBroadcast.Message ReliableBroadcast.RBC_READY 2 (Some 9);
            ReliableBroadcast.Message ReliableBroadcast.RBC_READY 2 (Some 9);
            ReliableBroadcast.Message ReliableBroadcast.RBC_READY 2 (Some 9)]
           2 (Some 9)).
  vm_compute. reflexivity.
Defined.

Lemma rbc_run_app : forall l1 l2 s sent,
  ReliableBroadcast.run (l1 ++ l2) s sent
  = ReliableBroadcast.run l2 (ReliableBroadcast.run l1 s sent).1
      (ReliableBroadcast.run l1 s sent).2.
Proof.
  induction l1 as [|m l1 IH]; intros l2 s sent.
  - reflexivity.
  - cbn [app]. rewrite !rbc_run_cons. apply IH.
Qed.

Lemma rbc_val_other m s sd :
  is_val_msg sd m = false ->
  ReliableBroadcast.val_received (ReliableBroadcast.handle_message m s).1 !! sd
  = ReliableBroadcast.val_received s !! sd.
Proof.
  unfold is_val_msg. destruct m as [[] sd' v'];
    cbn [ReliableBroadcast.msg_type ReliableBroadcast.msg_sender];
    intros H; rbc_cases; try reflexivity.
  all: apply lookup_insert_ne; intros ->; now rewrite Z.eqb_refl in H.
Qed.

Lemma rbc_val_first m s sd :
  is_val_msg sd m = true ->
  ReliableBroadcast.val_received s !! sd = None ->
  ReliableBroadcast.val_received (ReliableBroadcast.handle_message m s).1 !! sd
  = Some (ReliableBroadcast.msg_value m).
Proof.
  unfold is_val_msg. destruct m as [[] sd' v'];
    cbn [ReliableBroadcast.msg_type ReliableBroadcast.msg_sender
         ReliableBroadcast.msg_value];
    intros H Hnone; try discriminate.
  apply Z.eqb_eq in H as ->.
  rbc_unfold. rewrite Hnone.
  cbn [ReliableBroadcast.echo_sent ReliableBroadcast.val_received].
  destruct (ReliableBroadcast.echo_sent s !! sd);
    cbn [fst ReliableBroadcast.val_received]; apply lookup_insert_eq.
Qed.

Lemma rbc_val_latch m s sd v :
  ReliableBroadcast.val_received s !! sd = Some v ->
  ReliableBroadcast.val_received (ReliableBroadcast.handle_message m s).1 !! sd
  = Some v.
Proof.
  intros H. destruct m as [[] sd' v']; rbc_cases; try exact H.
  all: rewrite lookup_insert_ne; [exact H|]; intros ->; congruence.
Qed.

Lemma rbc_run_val_other sd : forall msgs s sent,
  how_many (is_val_msg sd) msgs = 0 ->
  ReliableBroadcast.val_received (ReliableBroadcast.run msgs s sent).1 !! sd
  = ReliableBroadcast.val_received s !! sd.
Proof.
  induction msgs as [|m msgs IH]; intros s sent H; [reflexivity|].
  rewrite how_many_cons in H.
  pose proof (how_many_nonneg (is_val_msg sd) msgs).
  destruct (is_val_msg sd m) eqn:E; [lia|].
  rewrite rbc_run_cons, IH by lia. now apply rbc_val_other.
Qed.

Lemma rbc_run_val_latch sd v : forall msgs s sent,
  ReliableBroadcast.val_received s !! sd = Some v ->
  ReliableBroadcast.val_received (ReliableBroadcast.run msgs s sent).1 !! sd
  = Some v.
Proof.
  induction msgs as [|m msgs IH]; intros s sent H; [exact H|].
  rewrite rbc_run_cons. apply IH. now apply rbc_val_latch.
Qed.

Lemma in_app_single {A} (x y : A) (l : list A) :
  List.In x (l ++ [y]) <-> List.In x l \/ x = y.
Proof.
  rewrite List.in_app_iff. cbn. intuition congruence.
Qed.

Lemma rbc_echo_step sd m s sent :
  let echo_inv s sent :=
    (ReliableBroadcast.echo_sent s !! sd = None <->
     ReliableBroadcast.val_received s !! sd = None) /\
    how_many (is_echo_for sd) sent
    = (match ReliableBroadcast.val_received s !! sd with
       | Some _ => 1
       | None => 0
       end) /\
    forall v, List.In (ReliableBroadcast.ECHO sd v) sent <->
              ReliableBroadcast.val_received s !! sd = Some v in
  echo_inv s sent ->
  echo_inv (ReliableBroadcast.handle_message m s).1
           (sent ++ (ReliableBroadcast.handle_message m s).2).
Proof.
  cbn zeta. intros (Hsync & Hcount & Hin).
  destruct m as [kind sd' v'].
  assert (Hready : forall outs,
            (outs = [ReliableBroadcast.READY sd' v'] \/ outs = []) ->
            how_many (is_echo_for sd) (sent ++ outs)
            = how_many (is_echo_for sd) sent /\
            forall v, List.In (ReliableBroadcast.ECHO sd v) (sent ++ outs)
                      <-> List.In (ReliableBroadcast.ECHO sd v) sent).
  { intros outs [-> | ->].
    - rewrite how_many_app. split.
      + unfold how_many at 2. cbn. lia.
      + intros v. rewrite in_app_single. split; [|auto].
        intros [H|H]; [exact H|discriminate].
    - rewrite app_nil_r. split; [reflexivity|tauto]. }
  destruct kind.
  - (* VAL *)
    rbc_unfold.
    destruct (ReliableBroadcast.val_received s !! sd') as [old|] eqn:Eold.
    { cbn [fst snd]. rewrite app_nil_r. auto. }
    cbn [ReliableBroadcast.echo_sent ReliableBroadcast.val_received].
    destruct (decide (sd' = sd)) as [->|Hne].
    + rewrite (proj2 Hsync Eold).
      cbn [fst snd ReliableBroadcast.echo_sent
           ReliableBroadcast.val_received].
      rewrite !lookup_insert_eq, how_many_app, Hcount, Eold.
      split; [split; discriminate|]. split.
      * unfold how_many. cbn. rewrite Z.eqb_refl. reflexivity.
      * intros v. rewrite in_app_single, Hin, Eold. split.
        -- intros [H|H]; [discriminate|]. now injection H as ->.
        -- intros H. injection H as ->. now right.
    + assert (Hout : forall outs,
                (outs = [ReliableBroadcast.ECHO sd' v'] \/ outs = []) ->
                how_many (is_echo_for sd) (sent ++ outs)
                = how_many (is_echo_for sd) sent /\
                forall v, List.In (ReliableBroadcast.ECHO sd v) (sent ++ outs)
                          <-> List.In (ReliableBroadcast.ECHO sd v) sent).
      { intros outs [-> | ->].
        - rewrite how_many_app. split.
          + unfold how_many at 2. cbn.
            destruct (Z.eqb_spec sd' sd); [contradiction|]. cbn. lia.
          + intros v. rewrite in_app_single. split; [|auto].
            intros [H|H]; [exact H|]. injection H as -> _. contradiction.
        - rewrite app_nil_r. split; [reflexivity|tauto]. }
      destruct (ReliableBroadcast.echo_sent s !! sd');
        cbn [fst snd ReliableBroadcast.echo_sent
             ReliableBroadcast.val_received];
        rewrite ?lookup_insert_ne by exact Hne.
      * destruct (Hout []) as [-> Hin']; [now right|].
        split; [exact Hsync|]. split; [exact Hcount|].
        intros v. now rewrite Hin'.
      * destruct (Hout [ReliableBroadcast.ECHO sd' v']) as [-> Hin'];
          [now left|].
        split; [exact Hsync|]. split; [exact Hcount|].
        intros v. now rewrite Hin'.
  - (* ECHO *)
    rbc_cases.
    all: match goal with
         | |- context [_ ++ ?o] =>
             destruct (Hready o) as [-> Hin']; [auto|]
         end.
    all: split; [exact Hsync|]; split; [exact Hcount|];
      intros v; now rewrite Hin'.
  - (* READY *)
    rbc_cases.
    all: match goal with
         | |- context [_ ++ ?o] =>
             destruct (Hready o) as [-> Hin']; [auto|]
         end.
    all: split; [exact Hsync|]; split; [exact Hcount|];
      intros v; now rewrite Hin'.
  - cbn [ReliableBroadcast.handle_message ReliableBroadcast.msg_type fst snd].
    rewrite app_nil_r. auto.
Qed.

Lemma rbc_echo_run sd : forall msgs s sent,
  let echo_inv s sent :=
    (ReliableBroadcast.echo_sent s !! sd = None <->
     ReliableBroadcast.val_received s !! sd = None) /\
    how_many (is_echo_for sd) sent
    = (match ReliableBroadcast.val_received s !! sd with
       | Some _ => 1
       | None => 0
       end) /\
    forall v, List.In (ReliableBroadcast.ECHO sd v) sent <->
              ReliableBroadcast.val_received s !! sd = Some v in
  echo_inv s sent ->
  echo_inv (ReliableBroadcast.run msgs s sent).1
           (ReliableBroadcast.run msgs s sent).2.
Proof.
  induction msgs as [|m msgs IH]; intros s sent; cbn zeta; [auto|].
  intros H. rewrite rbc_run_cons. apply IH.
  now apply (rbc_echo_step sd m s sent).
Qed.

(** X26.  Echo.  Whatever messages a fresh instance handles, it
    broadcasts at most one ECHO per original sender; an ECHO for a sender
    has been broadcast exactly when a VAL of that sender has been
    recorded, with the recorded value; and the recorded value is the one
    of the first VAL handled for that sender. *)
Theorem rbc_echo_once (party_id n f : Z)
    (msgs : list ReliableBroadcast.message) (sd : Z) :
  let r := ReliableBroadcast.run msgs (ReliableBroadcast.new party_id n f) []
  in
  how_many (is_echo_for sd) r.2 <= 1 /\
  (forall v, List.In (ReliableBroadcast.ECHO sd v) r.2 <->
             ReliableBroadcast.val_received r.1 !! sd = Some v) /\
  (forall pre m post,
     msgs = pre ++ m :: post ->
     is_val_msg sd m = true -> how_many (is_val_msg sd) pre = 0 ->
     ReliableBroadcast.val_received r.1 !! sd
     = Some (ReliableBroadcast.msg_value m)).
Proof.
  intros r.
  destruct (rbc_echo_run sd msgs (ReliableBroadcast.new party_id n f) [])
    as (_ & Hcount & Hin).
  { unfold ReliableBroadcast.new.
    cbn [ReliableBroadcast.echo_sent ReliableBroadcast.val_received].
    rewrite !lookup_empty. split; [tauto|]. split; [reflexivity|].
    intros v. split; [intros []|discriminate]. }
  fold r in Hcount, Hin. split; [|split].
  - rewrite Hcount. destruct (_ !! _); lia.
  - exact Hin.
  - intros pre m post -> Hm Hpre. unfold r.
    rewrite rbc_run_app, rbc_run_cons.
    apply rbc_run_val_latch, rbc_val_first; [exact Hm|].
    rewrite rbc_run_val_other by exact Hpre. apply lookup_empty.
Qed.

(** What one message does to the READY flag of the instance: either the
    flag is untouched and no READY is broadcast, or a READY for the
    message's sender and value is broadcast, the flag was unset and one of
    the two thresholds has been reached. *)
Lemma rbc_ready_summary m s :
  let s' := (ReliableBroadcast.handle_message m s).1 in
  let outs := (ReliableBroadcast.handle_message m s).2 in
  (ReliableBroadcast.ready_sent s' = ReliableBroadcast.ready_sent s /\
   (forall sd, how_many (is_ready_for sd) outs = 0) /\
   (forall sd v, ~ List.In (ReliableBroadcast.READY sd v) outs)) \/
  (outs = [ReliableBroadcast.READY (ReliableBroadcast.msg_sender m)
             (ReliableBroadcast.msg_value m)] /\
   ReliableBroadcast.ready_sent s'
   = <[ReliableBroadcast.msg_sender m := ReliableBroadcast.msg_value m]>
       (ReliableBroadcast.ready_sent s) /\
   ReliableBroadcast.ready_unset s (ReliableBroadcast.msg_sender m) = true /\
   (ReliableBroadcast.echo_threshold s
    <= BinaryAgreement.count (ReliableBroadcast.echo_count s')
         (ReliableBroadcast.msg_sender m) (ReliableBroadcast.msg_value m) \/
    ReliableBroadcast.ready_threshold s
    <= BinaryAgreement.count (ReliableBroadcast.ready_count s')
         (ReliableBroadcast.msg_sender m) (ReliableBroadcast.msg_value m))).
Proof.
  cbn zeta.
  assert (Hquiet : forall outs : list ReliableBroadcast.out,
            (outs = [] \/ exists sd v, outs = [ReliableBroadcast.ECHO sd v]) ->
            (forall sd, how_many (is_ready_for sd) outs = 0) /\
            (forall sd v, ~ List.In (ReliableBroadcast.READY sd v) outs)).
  { intros outs [->|(sd0 & v0 & ->)]; split; intros; try reflexivity.
    - intros [].
    - intros [H|[]]. discriminate. }
  destruct m as [[] sd' v'].
  - left. rbc_cases_flag; (split; [reflexivity|]); apply Hquiet; eauto.
  - rbc_cases_flag.
    + right. apply andb_prop in Heqb as [H1 H2]. apply Z.leb_le in H1.
      split; [reflexivity|]. split; [reflexivity|]. split; [exact H2|].
      now left.
    + left. split; [reflexivity|]. apply Hquiet. now left.
  - rbc_cases_flag.
    all: try (left; split; [reflexivity|]; apply Hquiet; now left).
    all: right; apply andb_prop in Heqb as [H1 H2]; apply Z.leb_le in H1;
      (split; [reflexivity|]); (split; [reflexivity|]);
      (split; [exact H2|]); now right.
  - left. cbn. split; [reflexivity|]. apply Hquiet. now left.
Qed.

Lemma ready_unset_lookup s s' sd :
  ReliableBroadcast.ready_sent s' !! sd = ReliableBroadcast.ready_sent s !! sd ->
  ReliableBroadcast.ready_unset s' sd = ReliableBroadcast.ready_unset s sd.
Proof. unfold ReliableBroadcast.ready_unset. now intros ->. Qed.

Lemma rbc_ready_step sd m s sent :
  let ready_inv s sent :=
    ReliableBroadcast.ready_sent s !! sd <> Some None /\
    how_many (is_ready_for sd) sent
    = (if ReliableBroadcast.ready_unset s sd then 0 else 1) /\
    forall v, List.In (ReliableBroadcast.READY sd v) sent ->
      ReliableBroadcast.ready_sent s !! sd = Some v /\
      (ReliableBroadcast.echo_threshold s
       <= BinaryAgreement.count (ReliableBroadcast.echo_count s) sd v \/
       ReliableBroadcast.ready_threshold s
       <= BinaryAgreement.count (ReliableBroadcast.ready_count s) sd v) in
  ReliableBroadcast.msg_value m <> None ->
  ready_inv s sent ->
  ready_inv (ReliableBroadcast.handle_message m s).1
            (sent ++ (ReliableBroadcast.handle_message m s).2).
Proof.
  cbn zeta. intros Hval (Hnn & Hcount & Hin).
  destruct (rbc_static m s) as (Hte & Htr & _).
  assert (Hmono : forall v,
            (ReliableBroadcast.echo_threshold s
             <= BinaryAgreement.count (ReliableBroadcast.echo_count s) sd v \/
             ReliableBroadcast.ready_threshold s
             <= BinaryAgreement.count (ReliableBroadcast.ready_count s) sd v) ->
            ReliableBroadcast.echo_threshold
              (ReliableBroadcast.handle_message m s).1
            <= BinaryAgreement.count
                 (ReliableBroadcast.echo_count
                    (ReliableBroadcast.handle_message m s).1) sd v \/
            ReliableBroadcast.ready_threshold
              (ReliableBroadcast.handle_message m s).1
            <= BinaryAgreement.count
                 (ReliableBroadcast.ready_count
                    (ReliableBroadcast.handle_message m s).1) sd v).
  { intros v H. rewrite Hte, Htr, rbc_echo_count_step, rbc_ready_count_step.
    destruct (is_echo_msg sd v m), (is_ready_msg sd v m); lia. }
  assert (Hsame :
            ReliableBroadcast.ready_sent
              (ReliableBroadcast.handle_message m s).1 !! sd
            = ReliableBroadcast.ready_sent s !! sd ->
            how_many (is_ready_for sd)
              (ReliableBroadcast.handle_message m s).2 = 0 ->
            (forall v, ~ List.In (ReliableBroadcast.READY sd v)
                         (ReliableBroadcast.handle_message m s).2) ->
            ReliableBroadcast.ready_sent
              (ReliableBroadcast.handle_message m s).1 !! sd <> Some None /\
            how_many (is_ready_for sd)
              (sent ++ (ReliableBroadcast.handle_message m s).2)
            = (if ReliableBroadcast.ready_unset
                    (ReliableBroadcast.handle_message m s).1 sd
               then 0 else 1) /\
            forall v,
              List.In (ReliableBroadcast.READY sd v)
                (sent ++ (ReliableBroadcast.handle_message m s).2) ->
              ReliableBroadcast.ready_sent
                (ReliableBroadcast.handle_message m s).1 !! sd = Some v /\
              (ReliableBroadcast.echo_threshold
                 (ReliableBroadcast.handle_message m s).1
               <= BinaryAgreement.count
                    (ReliableBroadcast.echo_count
                       (ReliableBroadcast.handle_message m s).1) sd v \/
               ReliableBroadcast.ready_threshold
                 (ReliableBroadcast.handle_message m s).1
               <= BinaryAgreement.count
                    (ReliableBroadcast.ready_count
                       (ReliableBroadcast.handle_message m s).1) sd v)).
  { intros Hlk Hzero Hnotin.
    rewrite (ready_unset_lookup s _ sd Hlk), Hlk, how_many_app, Hzero.
    split; [exact Hnn|]. split; [lia|].
    intros v Hv. apply List.in_app_iff in Hv as [Hv|Hv];
      [|now apply Hnotin in Hv].
    destruct (Hin v Hv) as [H1 H2]. split; [exact H1|now apply Hmono]. }
  destruct (rbc_ready_summary m s) as [(Hrs & Hzero & Hnotin)
                                      |(Hout & Hrs & Hunset & Hjust)];
    cbn zeta in *.
  - apply Hsame; [now rewrite Hrs|apply Hzero|apply Hnotin].
  - destruct (decide (ReliableBroadcast.msg_sender m = sd)) as [Hsd|Hsd].
    + rewrite Hsd in *.
      destruct (ReliableBroadcast.msg_value m) as [x|] eqn:Ex;
        [|congruence].
      assert (Hfresh : forall v,
                ~ List.In (ReliableBroadcast.READY sd v) sent).
      { intros v Hv. destruct (Hin v Hv) as [H1 _].
        unfold ReliableBroadcast.ready_unset in Hunset. rewrite H1 in Hunset.
        destruct v; [discriminate|]. now apply Hnn. }
      rewrite Hunset in Hcount.
      assert (Hnow : ReliableBroadcast.ready_sent
                       (ReliableBroadcast.handle_message m s).1 !! sd
                     = Some (Some x))
        by (rewrite Hrs; apply lookup_insert_eq).
      split; [rewrite Hnow; discriminate|]. split.
      * unfold ReliableBroadcast.ready_unset at 1. rewrite Hnow.
        rewrite how_many_app, Hcount, Hout. unfold how_many. cbn.
        now rewrite Z.eqb_refl.
      * intros v Hv. rewrite Hout in Hv.
        apply in_app_single in Hv as [Hv|Hv]; [now apply Hfresh in Hv|].
        injection Hv as ->. split; [exact Hnow|].
        now rewrite Hte, Htr.
    + apply Hsame.
      * rewrite Hrs. now apply lookup_insert_ne.
      * rewrite Hout. unfold how_many. cbn.
        destruct (Z.eqb_spec (ReliableBroadcast.msg_sender m) sd);
          [contradiction|reflexivity].
      * intros v Hv. rewrite Hout in Hv. destruct Hv as [Hv|[]].
        injection Hv as Hv _. contradiction.
Qed.

Lemma rbc_ready_run sd : forall msgs s sent,
  let ready_inv s sent :=
    ReliableBroadcast.ready_sent s !! sd <> Some None /\
    how_many (is_ready_for sd) sent
    = (if ReliableBroadcast.ready_unset s sd then 0 else 1) /\
    forall v, List.In (ReliableBroadcast.READY sd v) sent ->
      ReliableBroadcast.ready_sent s !! sd = Some v /\
      (ReliableBroadcast.echo_threshold s
       <= BinaryAgreement.count (ReliableBroadcast.echo_count s) sd v \/
       ReliableBroadcast.ready_threshold s
       <= BinaryAgreement.count (ReliableBroadcast.ready_count s) sd v) in
  Forall (fun m => ReliableBroadcast.msg_value m <> None) msgs ->
  ready_inv s sent ->
  ready_inv (ReliableBroadcast.run msgs s sent).1
            (ReliableBroadcast.run msgs s sent).2.
Proof.
  induction msgs as [|m msgs IH]; intros s sent; cbn zeta; [auto|].
  intros Hall H. apply Forall_cons in Hall as [Hm Hall].
  rewrite rbc_run_cons. apply IH; [exact Hall|].
  now apply (rbc_ready_step sd m s sent).
Qed.

(** X27.  Ready.  When no handled message carries the value [None], a
    fresh instance broadcasts at most one READY per original sender; the
    value of that READY is the one kept in [ready_sent], and it has been
    carried by at least [(n + f + 2) // 2] ECHO messages or by at least
    [f + 1] READY messages for that sender. *)
Theorem rbc_ready_once (party_id n f : Z)
    (msgs : list ReliableBroadcast.message) (sd : Z) :
  Forall (fun m => ReliableBroadcast.msg_value m <> None) msgs ->
  let r := ReliableBroadcast.run msgs (ReliableBroadcast.new party_id n f) []
  in
  how_many (is_ready_for sd) r.2 <= 1 /\
  forall v, List.In (ReliableBroadcast.READY sd v) r.2 ->
    ReliableBroadcast.ready_sent r.1 !! sd = Some v /\
    ((n + f + 1 + 1) / 2 <= how_many (is_echo_msg sd v) msgs \/
     f + 1 <= how_many (is_ready_msg sd v) msgs).
Proof.
  intros Hall r.
  destruct (rbc_ready_run sd msgs (ReliableBroadcast.new party_id n f) []
              Hall) as (_ & Hcount & Hin).
  { unfold ReliableBroadcast.new, ReliableBroadcast.ready_unset.
    cbn [ReliableBroadcast.ready_sent]. rewrite !lookup_empty.
    split; [discriminate|]. split; [reflexivity|]. intros v []. }
  fold r in Hcount, Hin. split.
  - rewrite Hcount. destruct (ReliableBroadcast.ready_unset r.1 sd); lia.
  - intros v Hv. destruct (Hin v Hv) as [H1 H2]. split; [exact H1|].
    unfold r in H2.
    destruct (rbc_run_static msgs (ReliableBroadcast.new party_id n f) [])
      as (Hte & Htr & _).
    rewrite Hte, Htr, rbc_run_echo_count, rbc_run_ready_count in H2.
    cbn in H2. rewrite !count_empty in H2. exact H2.
Qed.

Lemma rbc_ready_once_witness :
  let msgs := [ReliableBroadcast.Message ReliableBroadcast.RBC_ECHO 2 (Some 9);
               ReliableBroadcast.Message ReliableBroadcast.RBC_ECHO 2 (Some 9);
               ReliableBroadcast.Message ReliableBroadcast.RBC_ECHO 2 (Some 9);
               ReliableBroadcast.Message ReliableBroadcast.RBC_ECHO 2 (Some 9)]
  in
  let r := ReliableBroadcast.run msgs (ReliableBroadcast.new 0 4 1) [] in
  how_many (is_ready_for 2) r.2 <= 1 /\
  forall v, List.In (ReliableBroadcast.READY 2 v) r.2 ->
    ReliableBroadcast.ready_sent r.1 !! 2 = Some v /\
    ((4 + 1 + 1 + 1) / 2 <= how_many (is_echo_msg 2 v) msgs \/
     1 + 1 <= how_many (is_ready_msg 2 v) msgs).
Proof.
  apply (rbc_ready_once 0 4 1
           [ReliableBroadcast.Message ReliableBroadcast.RBC_ECHO 2 (Some 9);
            ReliableBroadcast.Message ReliableBroadcast.RBC_ECHO 2 (Some 9);
            ReliableBroadcast.Message ReliableBroadcast.RBC_ECHO 2 (Some 9);
            ReliableBroadcast.Message ReliableBroadcast.RBC_ECHO 2 (Some 9)]
           2).
  repeat (apply List.Forall_cons; [discriminate|]). apply List.Forall_nil.
Defined.

(** With the value [None] the READY flag never looks set: each further
    ECHO past the threshold broadcasts READY again. *)
Example rbc_ready_repeated_for_none :
  let msgs := [ReliableBroadcast.Message ReliableBroadcast.RBC_ECHO 2 None;
               ReliableBroadcast.Message ReliableBroadcast.RBC_ECHO 2 None;
               ReliableBroadcast.Message ReliableBroadcast.RBC_ECHO 2 None;
               ReliableBroadcast.Message ReliableBroadcast.RBC_ECHO 2 None]
  in
  (ReliableBroadcast.run msgs (ReliableBroadcast.new 0 4 1) []).2
  = [ReliableBroadcast.READY 2 None; ReliableBroadcast.READY 2 None].
Proof. vm_compute. reflexivity. Qed.

